(** * Owning handles with value semantics: [cloned_ptr] and [polymorphic_value]

    A shallow embedding of [cloned_ptr.h] and of [polymorphic_value.h]:
    the control blocks, the allocation helpers, the constructors, the
    destructor, assignment, swap, the accessors and the factory functions.

    Modelling conventions.
    - An address is an [N]; [nullptr] is [0].  Pointer conversions between
      views of one object ([static_cast], [const_cast], the implicit
      derived-to-base conversion) keep the address; [dynamic_cast] keeps the
      address when the dynamic class of the pointee derives from the target
      and yields [nullptr] otherwise.  [typeid( *u )] names the dynamic
      class of the pointee when the static class of [u] is polymorphic, and
      the static class otherwise.
    - The free store is a finite map from addresses to cells.  A cell is raw
      storage, a constructed object, or the storage of a control block that
      an allocator constructed; an object carries its dynamic class and the
      data members of its sub-objects, each tagged with the class that
      declares it.
    - A [std::unique_ptr<control_block>] is an [option control_block]: the
      block is owned by exactly one place, so it is a value of the owner.
      Allocating a block is still an event that can fail.
    - Allocation and constructor failures are scheduled by an oracle in the
      state: every allocation and every constructor of an object consumes
      one entry, [false] makes it throw.  An exhausted oracle never fails.
    - Handles are C++ objects with an identity; they live in a store indexed
      by variable names, so that [&p == this] is a comparison of names. *)

From stdpp Require Import base option list gmap sets strings.
From Stdlib Require Import ZArith.

Scheme All for option.

Definition addr := N.
Definition nullptr : addr := 0%N.
Definition var := string.

(** ** Results of running a piece of code *)

Inductive exn :=
| bad_alloc
| constructor_exception
| bad_polymorphic_value_construction.

Inductive result (A : Type) : Type :=
| Ok (a : A)
| Throw (e : exn)
| AssertionFailed
| Undefined.
Arguments Ok {A} a.
Arguments Throw {A} e.
Arguments AssertionFailed {A}.
Arguments Undefined {A}.

Section Model.

Context {class : Type}.
Variable is_base_of : class -> class -> bool.

(** Whether the translation unit is compiled with [NDEBUG], which turns
    [assert] into nothing. *)
Variable NDEBUG : bool.

(** ** Objects and the free store *)

Record object := Object { dyn : class; members : list (class * Z) }.

(** [U(const U&)] applied to an object seen as a [U]: the result has dynamic
    class [U] and the members of the [U] sub-object. *)
Definition copy_as (U : class) (o : object) : object :=
  {| dyn := U;
     members := List.filter (fun m => is_base_of (fst m) U) (members o) |}.

Inductive cell :=
| Raw
| Obj (o : object)
| Block.

(** ** Control blocks of [cloned_ptr.h] *)

Inductive control_block :=
| control_block_impl (U : class) (p_ : addr)
| delegating_control_block (delegate_ : option control_block)
| downcasting_delegating_control_block (delegate_ : option control_block)
| dynamic_casting_delegating_control_block
    (T : class) (delegate_ : option control_block) (p_ : addr)
| const_casting_delegating_control_block (delegate_ : option control_block).

Record cloned_ptr := Handle { ptr_ : addr; cb_ : option control_block }.

Record state := State {
  heap : gmap addr cell;
  oracle : list bool;
  vars : gmap var cloned_ptr
}.

Definition set_heap (h : gmap addr cell) (s : state) : state :=
  {| heap := h; oracle := oracle s; vars := vars s |}.
Definition set_oracle (o : list bool) (s : state) : state :=
  {| heap := heap s; oracle := o; vars := vars s |}.
Definition set_vars (v : gmap var cloned_ptr) (s : state) : state :=
  {| heap := heap s; oracle := oracle s; vars := v |}.

(** ** The monad of stateful, fallible code *)

Definition M (A : Type) : Type := state -> result A * state.

Definition ret {A} (a : A) : M A := fun s => (Ok a, s).

Definition bind {A B} (m : M A) (f : A -> M B) : M B :=
  fun s =>
    match m s with
    | (Ok a, s') => f a s'
    | (Throw e, s') => (Throw e, s')
    | (AssertionFailed, s') => (AssertionFailed, s')
    | (Undefined, s') => (Undefined, s')
    end.

Definition throw {A} (e : exn) : M A := fun s => (Throw e, s).
Definition undefined {A} : M A := fun s => (Undefined, s).
Definition assertion_failed {A} : M A := fun s => (AssertionFailed, s).

(** [try { m } catch (...) { h; throw; }] *)
Definition try_catch_rethrow {A} (m : M A) (h : M unit) : M A :=
  fun s =>
    match m s with
    | (Throw e, s') => bind h (fun _ => throw e) s'
    | r => r
    end.

#[global] Instance M_ret : MRet M := @ret.
#[global] Instance M_bind : MBind M := fun A B f m => bind m f.

(** ** Primitive operations on the free store *)

Definition get_heap : M (gmap addr cell) := fun s => (Ok (heap s), s).
Definition put_heap (h : gmap addr cell) : M unit :=
  fun s => (Ok (), set_heap h s).

(** Consume one oracle entry; [false] throws [e]. *)
Definition may_fail (e : exn) : M unit :=
  fun s =>
    match oracle s with
    | [] => (Ok (), s)
    | true :: o => (Ok (), set_oracle o s)
    | false :: o => (Throw e, set_oracle o s)
    end.

(** The address the allocator hands out next: neither null nor in use. *)
Definition fresh_address (h : gmap addr cell) : addr :=
  fresh ({[nullptr]} ∪ dom h).

(** [operator new] / [allocator_traits::allocate]: raw storage at a fresh
    address. *)
Definition allocate : M addr :=
  may_fail bad_alloc;;
  h ← get_heap;
  let a := fresh_address h in
  put_heap (<[a := Raw]> h);;
  mret a.

(** [operator delete] / [allocator_traits::deallocate] of raw storage. *)
Definition deallocate (a : addr) : M unit :=
  h ← get_heap; put_heap (delete a h).

(** Read the object a pointer refers to; null and dangling pointers are
    undefined behaviour. *)
Definition deref (p : addr) : M object :=
  if decide (p = nullptr) then undefined
  else
    h ← get_heap;
    match h !! p with
    | Some (Obj o) => mret o
    | _ => undefined
    end.

(** Run a constructor on raw storage [mem] that produces the object [o]. *)
Definition construct (mem : addr) (o : object) : M unit :=
  may_fail constructor_exception;;
  h ← get_heap; put_heap (<[mem := Obj o]> h).

(** The new-expression [new U(args)]: allocate, construct, and give the
    storage back when the constructor throws. *)
Definition new_ (o : object) : M addr :=
  mem ← allocate;
  try_catch_rethrow (construct mem o;; mret mem) (deallocate mem).

(** [new U( *p )] *)
Definition new_copy (U : class) (p : addr) : M addr :=
  o ← deref p;
  new_ (copy_as U o).

(** [delete p]: a no-op on null, destroys and frees a live object, and is
    undefined on anything else. *)
Definition delete_ (p : addr) : M unit :=
  if decide (p = nullptr) then mret ()
  else
    h ← get_heap;
    match h !! p with
    | Some (Obj _) => put_heap (delete p h)
    | _ => undefined
    end.

(** [dynamic_cast<T*>(p)] *)
Definition dynamic_cast (T : class) (p : addr) : M addr :=
  if decide (p = nullptr) then mret nullptr
  else o ← deref p;
       mret (if is_base_of T (dyn o) then p else nullptr).

(** [std::make_unique<Block>(...)] once the constructor arguments have been
    evaluated: the allocation of the block can fail, its constructor
    cannot. *)
Definition make_unique (b : control_block) : M control_block :=
  may_fail bad_alloc;; mret b.

(** ** The control-block interface: [ptr], [release], [clone], destructor *)

(** [ptr()].  Calling through a null [delegate_] is undefined ([None]).
    The casts applied on the way out keep the address. *)
Fixpoint ptr (cb : control_block) : option addr :=
  match cb with
  | control_block_impl _ p_ => Some p_
  | delegating_control_block d =>
      match d with Some b => ptr b | None => None end
  | downcasting_delegating_control_block d =>
      match d with Some b => ptr b | None => None end
  | dynamic_casting_delegating_control_block _ _ p_ => Some p_
  | const_casting_delegating_control_block d =>
      match d with Some b => ptr b | None => None end
  end.

(** [release()]: the pointer handed out and the block as it is left. *)
Fixpoint release (cb : control_block) : option (addr * control_block) :=
  match cb with
  | control_block_impl U p_ => Some (p_, control_block_impl U nullptr)
  | delegating_control_block d =>
      match d with
      | Some b =>
          match release b with
          | Some (p, b') => Some (p, delegating_control_block (Some b'))
          | None => None
          end
      | None => None
      end
  | downcasting_delegating_control_block d =>
      match d with
      | Some b =>
          match release b with
          | Some (p, b') =>
              Some (p, downcasting_delegating_control_block (Some b'))
          | None => None
          end
      | None => None
      end
  | dynamic_casting_delegating_control_block T d p_ =>
      match d with
      | Some b =>
          match release b with
          | Some (_, b') =>
              Some (p_, dynamic_casting_delegating_control_block T (Some b') p_)
          | None => None
          end
      | None => None
      end
  | const_casting_delegating_control_block d =>
      match d with
      | Some b =>
          match release b with
          | Some (p, b') =>
              Some (p, const_casting_delegating_control_block (Some b'))
          | None => None
          end
      | None => None
      end
  end.

(** The destructor of a block: [control_block_impl] deletes its object, the
    adapters destroy their delegate. *)
Fixpoint destroy (cb : control_block) : M unit :=
  match cb with
  | control_block_impl _ p_ => delete_ p_
  | delegating_control_block d =>
      match d with Some b => destroy b | None => mret () end
  | downcasting_delegating_control_block d =>
      match d with Some b => destroy b | None => mret () end
  | dynamic_casting_delegating_control_block _ d _ =>
      match d with Some b => destroy b | None => mret () end
  | const_casting_delegating_control_block d =>
      match d with Some b => destroy b | None => mret () end
  end.

(** The destructor of a [std::unique_ptr<control_block>]. *)
Definition reset_unique (u : option control_block) : M unit :=
  match u with Some b => destroy b | None => mret () end.

(** Code that runs while a temporary or local [unique_ptr] owns [u]: when
    it throws, unwinding destroys [u]. *)
Definition owning {A} (u : option control_block) (m : M A) : M A :=
  try_catch_rethrow m (reset_unique u).

(** [std::make_unique<dynamic_casting_delegating_control_block<T, U>>(b)]:
    the constructor dereferences the delegate and caches the cast. *)
Definition make_unique_dynamic_casting
    (T : class) (b : option control_block) : M control_block :=
  may_fail bad_alloc;;
  match b with
  | Some c =>
      match ptr c with
      | Some a =>
          p ← dynamic_cast T a;
          mret (dynamic_casting_delegating_control_block T (Some c) p)
      | None => undefined
      end
  | None => undefined
  end.

(** [clone()].  In [control_block_impl] the argument [new U( *p_ )] is a raw
    pointer while [make_unique] allocates the block; in the adapters the
    argument is a temporary [unique_ptr]. *)
Fixpoint clone (cb : control_block) : M control_block :=
  match cb with
  | control_block_impl U p_ =>
      p ← new_copy U p_;
      make_unique (control_block_impl U p)
  | delegating_control_block d =>
      match d with
      | Some b =>
          c ← clone b;
          owning (Some c) (make_unique (delegating_control_block (Some c)))
      | None => undefined
      end
  | downcasting_delegating_control_block d =>
      match d with
      | Some b =>
          c ← clone b;
          owning (Some c)
            (make_unique (downcasting_delegating_control_block (Some c)))
      | None => undefined
      end
  | dynamic_casting_delegating_control_block T d _ =>
      match d with
      | Some b =>
          c ← clone b;
          owning (Some c) (make_unique_dynamic_casting T (Some c))
      | None => undefined
      end
  | const_casting_delegating_control_block d =>
      match d with
      | Some b =>
          c ← clone b;
          owning (Some c)
            (make_unique (const_casting_delegating_control_block (Some c)))
      | None => undefined
      end
  end.

(** ** [cloned_ptr]: the store of handles *)

Definition empty_handle : cloned_ptr := {| ptr_ := nullptr; cb_ := None |}.

Definition read (x : var) : M cloned_ptr :=
  fun s =>
    match vars s !! x with
    | Some h => (Ok h, s)
    | None => (Undefined, s)
    end.

Definition write (x : var) (h : cloned_ptr) : M unit :=
  fun s => (Ok (), set_vars (<[x := h]> (vars s)) s).

Definition forget (x : var) : M unit :=
  fun s => (Ok (), set_vars (delete x (vars s)) s).

Definition set_ptr_ (x : var) (a : addr) : M unit :=
  h ← read x; write x {| ptr_ := a; cb_ := cb_ h |}.

Definition set_cb_ (x : var) (u : option control_block) : M unit :=
  h ← read x; write x {| ptr_ := ptr_ h; cb_ := u |}.

(** [x.cb_ = std::move(u)]: the member takes [u], then the block it held
    is destroyed. *)
Definition assign_cb_ (x : var) (u : option control_block) : M unit :=
  h ← read x;
  set_cb_ x u;;
  reset_unique (cb_ h).

(** ** Accessors *)

(** [operator bool() const { return ptr_; }] *)
Definition operator_bool (h : cloned_ptr) : bool :=
  negb (N.eqb (ptr_ h) nullptr).

(** [T *get() const { return ptr_; }] *)
Definition get (h : cloned_ptr) : addr := ptr_ h.

(** [T *operator->() const { return get(); }] *)
Definition operator_arrow (h : cloned_ptr) : M addr := mret (get h).

Definition assert_ (c : bool) : M unit :=
  if NDEBUG then mret () else if c then mret () else assertion_failed.

(** [T &operator*() const { assert(ptr_); return *get(); }] *)
Definition operator_star (h : cloned_ptr) : M object :=
  assert_ (negb (N.eqb (ptr_ h) nullptr));;
  deref (get h).

(** ** Constructors

    A constructor computes the members of the handle under construction;
    [declare] then makes the finished handle a variable. *)

Definition declare (this : var) (ctor : M cloned_ptr) : M unit :=
  h ← ctor; write this h.

(** [cloned_ptr() {}] and [cloned_ptr(std::nullptr_t)] *)
Definition cloned_ptr_default : M cloned_ptr := mret empty_handle.

(** [template <typename U> explicit cloned_ptr(U *u)] *)
Definition cloned_ptr_from (U : class) (u : addr) : M cloned_ptr :=
  if decide (u = nullptr) then mret empty_handle
  else
    cb ← make_unique (control_block_impl U u);
    mret {| ptr_ := u; cb_ := Some cb |}.

(** [cloned_ptr(const cloned_ptr &p)] *)
Definition cloned_ptr_copy (p : cloned_ptr) : M cloned_ptr :=
  if negb (operator_bool p) then mret empty_handle
  else
    match cb_ p with
    | Some b =>
        tmp_cb ← clone b;
        match ptr tmp_cb with
        | Some a => mret {| ptr_ := a; cb_ := Some tmp_cb |}
        | None => undefined
        end
    | None => undefined
    end.

(** [template <typename U> cloned_ptr(const cloned_ptr<U> &p)] *)
Definition cloned_ptr_convert_copy (p : cloned_ptr) : M cloned_ptr :=
  tmp ← cloned_ptr_copy p;
  owning (cb_ tmp)
    (cb ← make_unique (delegating_control_block (cb_ tmp));
     mret {| ptr_ := ptr_ tmp; cb_ := Some cb |}).

Definition copy_construct (this p : var) : M unit :=
  hp ← read p; declare this (cloned_ptr_copy hp).

Definition convert_copy_construct (this p : var) : M unit :=
  hp ← read p; declare this (cloned_ptr_convert_copy hp).

(** [cloned_ptr(cloned_ptr &&p)] *)
Definition move_construct (this p : var) : M unit :=
  hp ← read p;
  let ptr_this := ptr_ hp in
  let cb_this := cb_ hp in
  set_cb_ p None;;
  set_ptr_ p nullptr;;
  write this {| ptr_ := ptr_this; cb_ := cb_this |}.

(** [template <typename U> cloned_ptr(cloned_ptr<U> &&p)] *)
Definition convert_move_construct (this p : var) : M unit :=
  hp ← read p;
  let ptr_this := ptr_ hp in
  cb ← make_unique (delegating_control_block (cb_ hp));
  set_cb_ p None;;
  set_ptr_ p nullptr;;
  write this {| ptr_ := ptr_this; cb_ := Some cb |}.

(** [~cloned_ptr() = default]: the members are destroyed and the variable
    is gone. *)
Definition destructor (this : var) : M unit :=
  h ← read this;
  reset_unique (cb_ h);;
  forget this.

(** [make_cloned_ptr<T>(ts...)]: [cloned_ptr<T>(new T(ts...))] *)
Definition make_cloned_ptr (T : class) (ms : list (class * Z)) : M cloned_ptr :=
  u ← new_ {| dyn := T; members := ms |};
  cloned_ptr_from T u.

(** ** Assignment *)

(** [cloned_ptr &operator=(const cloned_ptr &p)] *)
Definition copy_assign (this p : var) : M unit :=
  if decide (p = this) then mret ()
  else
    hp ← read p;
    if negb (operator_bool hp) then
      assign_cb_ this None;;
      set_ptr_ this nullptr
    else
      match cb_ hp with
      | Some b =>
          tmp_cb ← clone b;
          match ptr tmp_cb with
          | Some a =>
              set_ptr_ this a;;
              assign_cb_ this (Some tmp_cb)
          | None => undefined
          end
      | None => undefined
      end.

(** [cloned_ptr &operator=(cloned_ptr &&p)] *)
Definition move_assign (this p : var) : M unit :=
  if decide (p = this) then mret ()
  else
    hp ← read p;
    set_cb_ p None;;
    assign_cb_ this (cb_ hp);;
    set_ptr_ this (ptr_ hp);;
    set_ptr_ p nullptr.

(** [template <typename U> cloned_ptr &operator=(cloned_ptr<U> &&p)] *)
Definition convert_move_assign (this p : var) : M unit :=
  hp ← read p;
  cb ← make_unique (delegating_control_block (cb_ hp));
  set_cb_ p None;;
  assign_cb_ this (Some cb);;
  set_ptr_ this (ptr_ hp);;
  set_ptr_ p nullptr.

(** [template <typename U> cloned_ptr &operator=(const cloned_ptr<U> &p)]:
    a local copy [tmp] of [p], then the converting move assignment from it;
    [tmp] is destroyed when that throws. *)
Definition convert_copy_assign (this p : var) : M unit :=
  hp ← read p;
  tmp ← cloned_ptr_copy hp;
  cb ← owning (cb_ tmp) (make_unique (delegating_control_block (cb_ tmp)));
  assign_cb_ this (Some cb);;
  set_ptr_ this (ptr_ tmp).

(** ** Modifiers *)

(** [T *release()] *)
Definition cloned_ptr_release (this : var) : M addr :=
  h ← read this;
  if N.eqb (ptr_ h) nullptr then mret nullptr
  else
    set_ptr_ this nullptr;;
    match cb_ h with
    | Some b =>
        match release b with
        | Some (p, b') => set_cb_ this (Some b');; mret p
        | None => undefined
        end
    | None => undefined
    end.

(** [void reset(U *u = nullptr)] with [U = T]: the local [tmp] adopts [u]
    and is move-assigned to [*this]. *)
Definition reset (this : var) (U : class) (u : addr) : M unit :=
  h ← read this;
  if decide (u = ptr_ h) then mret ()
  else
    tmp ← cloned_ptr_from U u;
    assign_cb_ this (cb_ tmp);;
    set_ptr_ this (ptr_ tmp).

(** [reset] with [U] a proper derived class of [T]: the assignment is the
    converting move assignment. *)
Definition reset_derived (this : var) (U : class) (u : addr) : M unit :=
  h ← read this;
  if decide (u = ptr_ h) then mret ()
  else
    tmp ← cloned_ptr_from U u;
    cb ← owning (cb_ tmp) (make_unique (delegating_control_block (cb_ tmp)));
    assign_cb_ this (Some cb);;
    set_ptr_ this (ptr_ tmp).

(** [void swap(cloned_ptr &p)] *)
Definition swap (this p : var) : M unit :=
  ht ← read this;
  hp ← read p;
  set_ptr_ this (ptr_ hp);;
  set_ptr_ p (ptr_ ht);;
  set_cb_ this (cb_ hp);;
  set_cb_ p (cb_ ht).

(** ** Casts *)

(** [std::static_pointer_cast<T>(p)] *)
Definition static_pointer_cast (p : cloned_ptr) : M cloned_ptr :=
  tmp ← cloned_ptr_copy p;
  owning (cb_ tmp)
    (cb ← make_unique (downcasting_delegating_control_block (cb_ tmp));
     mret {| ptr_ := ptr_ tmp; cb_ := Some cb |}).

(** [std::dynamic_pointer_cast<T>(p)] *)
Definition dynamic_pointer_cast (T : class) (p : cloned_ptr) : M cloned_ptr :=
  a ← dynamic_cast T (get p);
  if N.eqb a nullptr then cloned_ptr_default
  else
    tmp ← cloned_ptr_copy p;
    owning (cb_ tmp)
      (a' ← dynamic_cast T (ptr_ tmp);
       cb ← make_unique_dynamic_casting T (cb_ tmp);
       mret {| ptr_ := a'; cb_ := Some cb |}).

(** [std::const_pointer_cast<T>(p)] *)
Definition const_pointer_cast (p : cloned_ptr) : M cloned_ptr :=
  tmp ← cloned_ptr_copy p;
  owning (cb_ tmp)
    (cb ← make_unique (const_casting_delegating_control_block (cb_ tmp));
     mret {| ptr_ := ptr_ tmp; cb_ := Some cb |}).

(** ** The comparison operators that overload resolution finds

    The overloads of [==], [!=], [<], [>], [<=], [>=] for [cloned_ptr] are
    inside a comment ([TODO: Like shared_ptr implementations of
    comparisons]).  [operator bool] is not [explicit], so for two handles
    [t] and [u] the expression [t == u] still compiles: both operands are
    converted to [bool] and the built-in operator compares the two
    booleans.  A comparison of a handle with [nullptr] has no viable
    candidate. *)

Definition int_of_bool (b : bool) : Z := if b then 1%Z else 0%Z.

Definition builtin_eq (t u : cloned_ptr) : bool :=
  Z.eqb (int_of_bool (operator_bool t)) (int_of_bool (operator_bool u)).
Definition builtin_ne (t u : cloned_ptr) : bool :=
  negb (Z.eqb (int_of_bool (operator_bool t)) (int_of_bool (operator_bool u))).
Definition builtin_lt (t u : cloned_ptr) : bool :=
  Z.ltb (int_of_bool (operator_bool t)) (int_of_bool (operator_bool u)).
Definition builtin_gt (t u : cloned_ptr) : bool :=
  Z.gtb (int_of_bool (operator_bool t)) (int_of_bool (operator_bool u)).
Definition builtin_le (t u : cloned_ptr) : bool :=
  Z.leb (int_of_bool (operator_bool t)) (int_of_bool (operator_bool u)).
Definition builtin_ge (t u : cloned_ptr) : bool :=
  Z.geb (int_of_bool (operator_bool t)) (int_of_bool (operator_bool u)).

(** ** Public operations as a transition system *)

Inductive operation :=
| Default (this : var)
| FromPointer (this : var) (U : class) (u : addr)
| Make (this : var) (T : class) (ms : list (class * Z))
| Copy (this p : var)
| ConvertCopy (this p : var)
| Move (this p : var)
| ConvertMove (this p : var)
| Destructor (this : var)
| CopyAssign (this p : var)
| ConvertCopyAssign (this p : var)
| MoveAssign (this p : var)
| ConvertMoveAssign (this p : var)
| Release (this : var)
| Reset (this : var) (U : class) (u : addr)
| ResetDerived (this : var) (U : class) (u : addr)
| Swap (this p : var)
| StaticPointerCast (this p : var)
| DynamicPointerCast (this : var) (T : class) (p : var)
| ConstPointerCast (this p : var).

Definition run (o : operation) : M unit :=
  match o with
  | Default this => declare this cloned_ptr_default
  | FromPointer this U u => declare this (cloned_ptr_from U u)
  | Make this T ms => declare this (make_cloned_ptr T ms)
  | Copy this p => copy_construct this p
  | ConvertCopy this p => convert_copy_construct this p
  | Move this p => move_construct this p
  | ConvertMove this p => convert_move_construct this p
  | Destructor this => destructor this
  | CopyAssign this p => copy_assign this p
  | ConvertCopyAssign this p => convert_copy_assign this p
  | MoveAssign this p => move_assign this p
  | ConvertMoveAssign this p => convert_move_assign this p
  | Release this => _ ← cloned_ptr_release this; mret ()
  | Reset this U u => reset this U u
  | ResetDerived this U u => reset_derived this U u
  | Swap this p => swap this p
  | StaticPointerCast this p =>
      hp ← read p; declare this (static_pointer_cast hp)
  | DynamicPointerCast this T p =>
      hp ← read p; declare this (dynamic_pointer_cast T hp)
  | ConstPointerCast this p =>
      hp ← read p; declare this (const_pointer_cast hp)
  end.

(** ** Vocabulary of the properties *)

(** The class bound and the pointer held by the [control_block_impl] at the
    bottom of a chain of adapters; [None] when the chain ends in a null
    delegate. *)
Fixpoint owned (cb : control_block) : option (class * addr) :=
  match cb with
  | control_block_impl U p_ => Some (U, p_)
  | delegating_control_block d =>
      match d with Some b => owned b | None => None end
  | downcasting_delegating_control_block d =>
      match d with Some b => owned b | None => None end
  | dynamic_casting_delegating_control_block _ d _ =>
      match d with Some b => owned b | None => None end
  | const_casting_delegating_control_block d =>
      match d with Some b => owned b | None => None end
  end.

(** The address a chain deletes when it is destroyed. *)
Definition target (cb : control_block) : addr :=
  match owned cb with Some (_, a) => a | None => nullptr end.

Definition target_of (u : option control_block) : addr :=
  match u with Some b => target b | None => nullptr end.

(** The class bound at the bottom of a handle's descriptor when the handle
    adopted its pointer. *)
Definition bound_class (h : cloned_ptr) : option class :=
  match cb_ h with Some b => fst <$> owned b | None => None end.

(** [delete a] is defined: [a] is null or a live object. *)
Definition deletable (s : state) (a : addr) : Prop :=
  a = nullptr ∨ ∃ o, heap s !! a = Some (Obj o).

(** The free store once [delete a] has run. *)
Definition without (a : addr) (hp : gmap addr cell) : gmap addr cell :=
  if decide (a = nullptr) then hp else delete a hp.

(** A chain is coherent when no delegate is null and every cached pointer
    of a [dynamic_casting_delegating_control_block] is null or the pointer
    held at the bottom. *)
Fixpoint coherent (cb : control_block) : Prop :=
  match cb with
  | control_block_impl _ _ => True
  | delegating_control_block d =>
      match d with Some b => coherent b | None => False end
  | downcasting_delegating_control_block d =>
      match d with Some b => coherent b | None => False end
  | dynamic_casting_delegating_control_block _ d p_ =>
      match d with
      | Some b => coherent b ∧ (p_ = nullptr ∨ p_ = target b)
      | None => False
      end
  | const_casting_delegating_control_block d =>
      match d with Some b => coherent b | None => False end
  end.


(** The invariant of a handle: a non-null observer comes with a coherent
    descriptor that locates the observer. *)
Definition handle_ok (h : cloned_ptr) : Prop :=
  ptr_ h ≠ nullptr →
  ∃ b, cb_ h = Some b ∧ coherent b ∧ ptr b = Some (ptr_ h).

Definition store_ok (s : state) : Prop :=
  map_Forall (fun _ h => handle_ok h) (vars s).

(** An operation completes when it returns or throws. *)
Definition completes {A} (r : result A) : Prop :=
  match r with
  | Ok _ | Throw _ => True
  | AssertionFailed | Undefined => False
  end.

(** No failure is scheduled. *)
Definition quiet (s : state) : Prop :=
  Forall (fun b => b = true) (oracle s).

(** From [s], [m] returns [a] and leaves the free store [hp] and the
    handles [v], with no failure scheduled. *)
Definition returns {A} (m : M A) (s : state) (a : A)
    (hp : gmap addr cell) (v : gmap var cloned_ptr) : Prop :=
  ∃ s', m s = (Ok a, s') ∧ heap s' = hp ∧ vars s' = v ∧ quiet s'.

(** Partial correctness of a piece of code: from a state in [P] it ends,
    when it returns, in [Q], and when it throws, in [E]. *)
Definition hoare {A} (P : state -> Prop) (m : M A)
    (Q : A -> state -> Prop) (E : state -> Prop) : Prop :=
  ∀ s, P s ->
    match m s with
    | (Ok a, s') => Q a s'
    | (Throw _, s') => E s'
    | (AssertionFailed, _) | (Undefined, _) => True
    end.

(** The judgement for code that leaves the handles alone: the store of
    handles is as before, a returned result satisfies [φ], and [ε] holds
    when it throws. *)
Definition frames {A} (m : M A) (φ : A -> Prop) (ε : Prop) : Prop :=
  ∀ s, vars (m s).2 = vars s
       ∧ match (m s).1 with
         | Ok a => φ a
         | Throw _ => ε
         | AssertionFailed | Undefined => True
         end.

(** The live objects, and those among them that no handle will delete. *)
Definition is_object (c : cell) : bool :=
  match c with Obj _ => true | _ => false end.

Definition live_objects (s : state) : gset addr :=
  dom (filter (fun kv => is_object kv.2 = true) (heap s)).

Definition owned_objects (s : state) : gset addr :=
  list_to_set ((fun kv => target_of (cb_ kv.2)) <$> map_to_list (vars s)).

Definition leaked (s : state) : gset addr :=
  live_objects s ∖ owned_objects s.

(** ** Ownership *)

(** No handle of the state owns [a]. *)
Definition unowned (s : state) (a : addr) : Prop :=
  ∀ x h, vars s !! x = Some h -> target_of (cb_ h) ≠ a.

(** A raw pointer that a handle may adopt: null, or a live object that no
    handle owns. *)
Definition adoptable (s : state) (u : addr) : Prop :=
  u = nullptr ∨ ((∃ o, heap s !! u = Some (Obj o)) ∧ unowned s u).

Definition declared (s : state) (x : var) : Prop := is_Some (vars s !! x).

(** Every handle satisfies its invariant and owns nothing or a live object,
    and no two handles own the same object. *)
Definition owns_ok (s : state) : Prop :=
  store_ok s
  ∧ (∀ x h, vars s !! x = Some h -> deletable s (target_of (cb_ h)))
  ∧ (∀ x y hx hy,
       x ≠ y -> vars s !! x = Some hx -> vars s !! y = Some hy ->
       target_of (cb_ hx) = target_of (cb_ hy) ->
       target_of (cb_ hx) = nullptr).

(** What a caller has to provide: the handles an operation names are
    variables of the state, and a raw pointer handed over is [adoptable]
    (or, for [reset], the pointer the handle holds already). *)
Definition admissible (o : operation) (s : state) : Prop :=
  match o with
  | Default _ | Make _ _ _ => True
  | FromPointer _ _ u => adoptable s u
  | Copy _ p | ConvertCopy _ p | Move _ p | ConvertMove _ p
  | StaticPointerCast _ p | DynamicPointerCast _ _ p
  | ConstPointerCast _ p => declared s p
  | Destructor this | Release this => declared s this
  | CopyAssign this p | ConvertCopyAssign this p | MoveAssign this p
  | ConvertMoveAssign this p | Swap this p => declared s this ∧ declared s p
  | Reset this _ u | ResetDerived this _ u =>
      ∃ h, vars s !! this = Some h ∧ (u = ptr_ h ∨ adoptable s u)
  end.

(** Total correctness of a piece of code: from a state in [P] it returns
    into [Q] or throws into [E], and is never undefined. *)
Definition safe {A} (P : state -> Prop) (m : M A)
    (Q : A -> state -> Prop) (E : state -> Prop) : Prop :=
  ∀ s, P s ->
    match m s with
    | (Ok a, s') => Q a s'
    | (Throw _, s') => E s'
    | (AssertionFailed, _) | (Undefined, _) => False
    end.

(** The number of cast adapters stacked on a [control_block_impl]. *)
Fixpoint adapters (cb : control_block) : nat :=
  match cb with
  | control_block_impl _ _ => 0
  | delegating_control_block d =>
      S (match d with Some b => adapters b | None => 0 end)
  | downcasting_delegating_control_block d =>
      S (match d with Some b => adapters b | None => 0 end)
  | dynamic_casting_delegating_control_block _ d _ =>
      S (match d with Some b => adapters b | None => 0 end)
  | const_casting_delegating_control_block d =>
      S (match d with Some b => adapters b | None => 0 end)
  end.

End Model.

Arguments object : clear implicits.
Arguments cell : clear implicits.
Arguments control_block : clear implicits.
Arguments cloned_ptr : clear implicits.
Arguments state : clear implicits.
Arguments M : clear implicits.
Arguments operation : clear implicits.

(** ** [polymorphic_value.h] *)

Module isocpp_p0201.
Section PolymorphicValue.

Context {class : Type} `{EqDecision class}.
Variable is_base_of : class -> class -> bool.
Variable NDEBUG : bool.

(** Whether [ISOCPP_P0201_POLYMORPHIC_VALUE_NO_RTTI] is defined. *)
Variable NO_RTTI : bool.

(** [std::is_polymorphic<U>]: whether the class declares or inherits a
    virtual function. *)
Variable is_polymorphic : class -> bool.

#[local] Abbreviation M := (M class).
#[local] Abbreviation object := (object class).

(** A copier is [default_copy<U>] or a callable of the user's that yields
    the object to own; a deleter is [std::default_delete<U>] or the user's. *)
Inductive copier :=
| default_copy
| custom_copy (f : object -> object).

Inductive deleter :=
| default_delete
| custom_delete.

Definition is_default_copy (c : copier) : bool :=
  match c with default_copy => true | custom_copy _ => false end.

Definition is_default_delete (d : deleter) : bool :=
  match d with default_delete => true | custom_delete => false end.

(** [direct_control_block] embeds its object: [u_] is the address of the
    embedded object, which lives and dies with the block.
    [allocated_pointer_control_block] records where the allocator placed
    the block itself. *)
Inductive control_block :=
| direct_control_block (U : class) (u_ : addr)
| pointer_control_block (U : class) (p_ : addr) (c : copier) (d : deleter)
| delegating_control_block (delegate_ : option control_block)
| allocated_pointer_control_block (U : class) (p_ : addr) (this : addr).

Record polymorphic_value :=
  { ptr_ : addr; cb_ : option control_block }.

Definition empty_value : polymorphic_value :=
  {| ptr_ := nullptr; cb_ := None |}.

Definition assert_ (c : bool) : M unit :=
  if NDEBUG then mret () else if c then mret () else assertion_failed.

(** [detail::allocate_object<T>(a, args...)], with the constructor call as
    a parameter. *)
Definition allocate_object (construct_at : addr -> M unit) : M addr :=
  mem ← allocate;
  try_catch_rethrow (construct_at mem;; mret mem) (deallocate mem).

(** [detail::deallocate_object(a, p)], with the destructor call as a
    parameter. *)
Definition deallocate_object (destroy_at : addr -> M unit) (p : addr) : M unit :=
  destroy_at p;;
  deallocate p.

(** [allocator_traits::destroy] of an object: it must be alive. *)
Definition destroy_object (p : addr) : M unit :=
  _ ← deref p;
  h ← get_heap; put_heap (<[p := Raw]> h).

(** [allocator_traits::construct] of [U( *src )] at [mem]. *)
Definition construct_copy (U : class) (src : addr) (mem : addr) : M unit :=
  o ← deref src;
  construct mem (copy_as is_base_of U o).

(** The constructor of [allocated_pointer_control_block] in allocated
    storage. *)
Definition construct_block (mem : addr) : M unit :=
  h ← get_heap; put_heap (<[mem := Block]> h).

(** The destructor of [allocated_pointer_control_block] in place. *)
Definition destroy_block (p_ : addr) (this : addr) : M unit :=
  deallocate_object destroy_object p_;;
  h ← get_heap; put_heap (<[this := Raw]> h).

(** [C::operator()( *p_ )] *)
Definition call_copier (c : copier) (U : class) (p : addr) : M addr :=
  match c with
  | default_copy => new_copy is_base_of U p
  | custom_copy f => o ← deref p; new_ (f o)
  end.

Fixpoint ptr (cb : control_block) : option addr :=
  match cb with
  | direct_control_block _ u_ => Some u_
  | pointer_control_block _ p_ _ _ => Some p_
  | delegating_control_block d =>
      match d with Some b => ptr b | None => None end
  | allocated_pointer_control_block _ p_ _ => Some p_
  end.

(** [control_block_deleter]: [t->destroy()], which is [delete this] except
    in [allocated_pointer_control_block]. *)
Fixpoint destroy (cb : control_block) : M unit :=
  match cb with
  | direct_control_block _ u_ => delete_ u_
  | pointer_control_block _ p_ _ _ => delete_ p_
  | delegating_control_block d =>
      match d with Some b => destroy b | None => mret () end
  | allocated_pointer_control_block _ p_ this =>
      deallocate_object (destroy_block p_) this
  end.

Definition reset_unique (u : option control_block) : M unit :=
  match u with Some b => destroy b | None => mret () end.

(** [clone()].  In a new-expression the storage is obtained before the
    constructor arguments are evaluated. *)
Fixpoint clone (cb : control_block) : M control_block :=
  match cb with
  | direct_control_block U u_ =>
      a ← new_copy is_base_of U u_;
      mret (direct_control_block U a)
  | pointer_control_block U p_ c d =>
      assert_ (negb (N.eqb p_ nullptr));;
      may_fail bad_alloc;;
      p ← call_copier c U p_;
      mret (pointer_control_block U p c d)
  | delegating_control_block d =>
      match d with
      | Some b =>
          may_fail bad_alloc;;
          c ← clone b;
          mret (delegating_control_block (Some c))
      | None => undefined
      end
  | allocated_pointer_control_block U p_ _ =>
      assert_ (negb (N.eqb p_ nullptr));;
      cloned_ptr ← allocate_object (construct_copy U p_);
      try_catch_rethrow
        (new_cb ← allocate_object construct_block;
         mret (allocated_pointer_control_block U cloned_ptr new_cb))
        (deallocate_object destroy_object cloned_ptr)
  end.

(** [explicit operator bool() const { return bool(cb_); }] *)
Definition operator_bool (v : polymorphic_value) : bool :=
  match cb_ v with Some _ => true | None => false end.

(** [const T* operator->() const { assert(ptr_); return ptr_; }] *)
Definition operator_arrow_const (v : polymorphic_value) : M addr :=
  assert_ (negb (N.eqb (ptr_ v) nullptr));;
  mret (ptr_ v).

(** [T* operator->() { assert( *this ); return ptr_; }] *)
Definition operator_arrow (v : polymorphic_value) : M addr :=
  assert_ (operator_bool v);;
  mret (ptr_ v).

(** [T& operator*() { assert( *this ); return *ptr_; }], and the same body
    for the [const] overload. *)
Definition operator_star (v : polymorphic_value) : M object :=
  assert_ (operator_bool v);;
  deref (ptr_ v).

(** [polymorphic_value() {}] *)
Definition polymorphic_value_default : M polymorphic_value :=
  mret empty_value.

(** [typeid( *u ) != typeid(U)] for a [U* u] that is not null.  When [U] is
    a polymorphic class the operand is evaluated and [typeid] names the
    class of the most derived object; otherwise the operand is not
    evaluated and [typeid] names the static class [U], so that the two
    never differ. *)
Definition typeid_differs (U : class) (u : addr) : M bool :=
  if is_polymorphic U then
    o ← deref u;
    mret (negb (bool_decide (dyn o = U)))
  else mret false.

(** [explicit polymorphic_value(U* u, C copier, D deleter)].  The local
    [std::unique_ptr<U, D> p] deletes [u] when the block cannot be
    allocated. *)
Definition polymorphic_value_from
    (U : class) (u : addr) (c : copier) (d : deleter) : M polymorphic_value :=
  if decide (u = nullptr) then mret empty_value
  else
    (if NO_RTTI then mret ()
     else if is_default_delete d && is_default_copy c then
       differs ← typeid_differs U u;
       match differs with
       | true => throw bad_polymorphic_value_construction
       | false => mret ()
       end
     else mret ());;
    try_catch_rethrow
      (may_fail bad_alloc;;
       mret {| ptr_ := u; cb_ := Some (pointer_control_block U u c d) |})
      (delete_ u).

(** [polymorphic_value(U* u, std::allocator_arg_t, const A& alloc)] *)
Definition polymorphic_value_from_allocated
    (U : class) (u : addr) : M polymorphic_value :=
  if decide (u = nullptr) then mret empty_value
  else
    (if NO_RTTI then mret ()
     else
       differs ← typeid_differs U u;
       match differs with
       | true => throw bad_polymorphic_value_construction
       | false => mret ()
       end);;
    this ← allocate_object construct_block;
    mret {| ptr_ := u; cb_ := Some (allocated_pointer_control_block U u this) |}.

(** [polymorphic_value(const polymorphic_value& p)] *)
Definition polymorphic_value_copy (p : polymorphic_value) : M polymorphic_value :=
  if negb (operator_bool p) then mret empty_value
  else
    match cb_ p with
    | Some b =>
        tmp_cb ← clone b;
        match ptr tmp_cb with
        | Some a => mret {| ptr_ := a; cb_ := Some tmp_cb |}
        | None => undefined
        end
    | None => undefined
    end.

(** [make_polymorphic_value<T, U>(ts...)] *)
Definition make_polymorphic_value
    (U : class) (ms : list (class * Z)) : M polymorphic_value :=
  u ← new_ {| dyn := U; members := ms |};
  mret {| ptr_ := u; cb_ := Some (direct_control_block U u) |}.

(** [allocate_polymorphic_value<T, U>(std::allocator_arg, a, ts...)] *)
Definition allocate_polymorphic_value
    (U : class) (ms : list (class * Z)) : M polymorphic_value :=
  u ← allocate_object (fun mem => construct mem {| dyn := U; members := ms |});
  this ← try_catch_rethrow
            (allocate_object construct_block)
            (deallocate_object destroy_object u);
  mret {| ptr_ := u; cb_ := Some (allocated_pointer_control_block U u this) |}.

(** [explicit polymorphic_value(std::in_place_type_t<U>, ts...)] *)
Definition polymorphic_value_in_place
    (U : class) (ms : list (class * Z)) : M polymorphic_value :=
  u ← new_ {| dyn := U; members := ms |};
  let cb := direct_control_block U u in
  match ptr cb with
  | Some a => mret {| ptr_ := a; cb_ := Some cb |}
  | None => undefined
  end.

(** [template <class U> explicit polymorphic_value(const
    polymorphic_value<U>& p)]: the local copy [tmp] is destroyed when the
    adapter cannot be allocated. *)
Definition polymorphic_value_convert_copy
    (p : polymorphic_value) : M polymorphic_value :=
  tmp ← polymorphic_value_copy p;
  try_catch_rethrow
    (may_fail bad_alloc;;
     mret {| ptr_ := ptr_ tmp;
             cb_ := Some (delegating_control_block (cb_ tmp)) |})
    (reset_unique (cb_ tmp)).

(** ** [polymorphic_value] objects as variables

    The operations below involve the identity of their operands.  They take
    the store of the variables that hold a [polymorphic_value] and return it
    as they leave it; none of them touches a member before the last point
    at which it can throw, so the store of a call that throws is the store
    it was given. *)

Definition read_value
    (x : var) (V : gmap var polymorphic_value) : M polymorphic_value :=
  match V !! x with Some v => mret v | None => undefined end.

(** [polymorphic_value(polymorphic_value&& p) noexcept] *)
Definition move_construct
    (this p : var) (V : gmap var polymorphic_value)
    : M (gmap var polymorphic_value) :=
  hp ← read_value p V;
  mret (<[this := {| ptr_ := ptr_ hp; cb_ := cb_ hp |}]>
          (<[p := empty_value]> V)).

(** [template <class U> explicit polymorphic_value(polymorphic_value<U>&& p)] *)
Definition convert_move_construct
    (this p : var) (V : gmap var polymorphic_value)
    : M (gmap var polymorphic_value) :=
  hp ← read_value p V;
  may_fail bad_alloc;;
  mret (<[this := {| ptr_ := ptr_ hp;
                     cb_ := Some (delegating_control_block (cb_ hp)) |}]>
          (<[p := empty_value]> V)).

(** [~polymorphic_value() = default]: [control_block_deleter] runs on
    [cb_]. *)
Definition destructor
    (this : var) (V : gmap var polymorphic_value)
    : M (gmap var polymorphic_value) :=
  hv ← read_value this V;
  reset_unique (cb_ hv);;
  mret (delete this V).

(** [polymorphic_value& operator=(const polymorphic_value& p)] *)
Definition copy_assign
    (this p : var) (V : gmap var polymorphic_value)
    : M (gmap var polymorphic_value) :=
  if decide (p = this) then mret V
  else
    hp ← read_value p V;
    ht ← read_value this V;
    if negb (operator_bool hp) then
      reset_unique (cb_ ht);;
      mret (<[this := empty_value]> V)
    else
      match cb_ hp with
      | Some b =>
          tmp_cb ← clone b;
          match ptr tmp_cb with
          | Some a =>
              reset_unique (cb_ ht);;
              mret (<[this := {| ptr_ := a; cb_ := Some tmp_cb |}]> V)
          | None => undefined
          end
      | None => undefined
      end.

(** [polymorphic_value& operator=(polymorphic_value&& p) noexcept] *)
Definition move_assign
    (this p : var) (V : gmap var polymorphic_value)
    : M (gmap var polymorphic_value) :=
  if decide (p = this) then mret V
  else
    hp ← read_value p V;
    ht ← read_value this V;
    reset_unique (cb_ ht);;
    mret (<[p := empty_value]>
            (<[this := {| ptr_ := ptr_ hp; cb_ := cb_ hp |}]> V)).

(** [void swap(polymorphic_value& p) noexcept] *)
Definition swap
    (this p : var) (V : gmap var polymorphic_value)
    : M (gmap var polymorphic_value) :=
  ht ← read_value this V;
  hp ← read_value p V;
  mret (<[p := {| ptr_ := ptr_ ht; cb_ := cb_ ht |}]>
          (<[this := {| ptr_ := ptr_ hp; cb_ := cb_ hp |}]> V)).

(** The non-member [swap(t, u)]: [t.swap(u)]. *)
Definition nonmember_swap
    (t u : var) (V : gmap var polymorphic_value)
    : M (gmap var polymorphic_value) :=
  swap t u V.

(** ** Vocabulary *)

(** The object a chain of blocks holds and the function its [clone()]
    applies to it: the copy constructor of the bound class, or the copier of
    the user. *)
Fixpoint copied_by (cb : control_block) : option (addr * (object -> object)) :=
  match cb with
  | direct_control_block U u_ => Some (u_, copy_as is_base_of U)
  | pointer_control_block U p_ c _ =>
      Some (p_, match c with
                | default_copy => copy_as is_base_of U
                | custom_copy f => f
                end)
  | delegating_control_block d =>
      match d with Some b => copied_by b | None => None end
  | allocated_pointer_control_block U p_ _ =>
      Some (p_, copy_as is_base_of U)
  end.

(** The cells of the free store that go when a chain of blocks is
    destroyed: the object held and, for an allocated block, the block.  A
    deleter of the user's is taken to release the object it is given, as
    [std::default_delete] does. *)
Fixpoint storage (cb : control_block) : list addr :=
  match cb with
  | direct_control_block _ u_ => [u_]
  | pointer_control_block _ p_ _ _ => [p_]
  | delegating_control_block d =>
      match d with Some b => storage b | None => [] end
  | allocated_pointer_control_block _ p_ this => [p_; this]
  end.

Definition storage_of (u : option control_block) : list addr :=
  match u with Some b => storage b | None => [] end.

(** Destroying [u] is defined: it is null, or the chain holds a live
    object. *)
Definition disposable (s : state class) (u : option control_block) : Prop :=
  match u with
  | Some b =>
      ∃ a f o, copied_by b = Some (a, f) ∧ a ≠ nullptr
               ∧ heap s !! a = Some (Obj o)
  | None => True
  end.

(** The invariant of a value: it is engaged exactly when it observes an
    object, and then its block locates the observed object. *)
Definition value_ok (v : polymorphic_value) : Prop :=
  match cb_ v with
  | Some b => ptr_ v ≠ nullptr ∧ ptr b = Some (ptr_ v)
  | None => ptr_ v = nullptr
  end.

End PolymorphicValue.
End isocpp_p0201.

Arguments isocpp_p0201.copier : clear implicits.
Arguments isocpp_p0201.control_block : clear implicits.
Arguments isocpp_p0201.polymorphic_value : clear implicits.

(** ** The classes of [TestCloningPtr.cpp] *)

Module TestTypes.

Inductive class :=
| BaseType
| DerivedType
| AlternativeBaseType
| AlternativeDerivedType
| Base
| IntermediateBaseA
| IntermediateBaseB
| MultiplyDerived.

#[global] Instance class_eq_dec : EqDecision class.
Proof. solve_decision. Defined.

(** [std::is_base_of<B, D>]: reflexive on classes, and following the
    base-specifier lists of the test file. *)
Definition is_base_of (B D : class) : bool :=
  match B, D with
  | BaseType, (BaseType | DerivedType | AlternativeDerivedType) => true
  | DerivedType, DerivedType => true
  | AlternativeBaseType, (AlternativeBaseType | AlternativeDerivedType) => true
  | AlternativeDerivedType, AlternativeDerivedType => true
  | Base, (Base | IntermediateBaseA | IntermediateBaseB | MultiplyDerived) => true
  | IntermediateBaseA, (IntermediateBaseA | MultiplyDerived) => true
  | IntermediateBaseB, (IntermediateBaseB | MultiplyDerived) => true
  | MultiplyDerived, MultiplyDerived => true
  | _, _ => false
  end.

(** [std::is_polymorphic]: every class of the test file declares or
    inherits a virtual member function or a virtual destructor. *)
Definition is_polymorphic (c : class) : bool := true.

(** [DerivedType(v)] *)
Definition derived (v : Z) : object class :=
  {| dyn := DerivedType; members := [(DerivedType, v)] |}.

(** [MultiplyDerived(v)]: [Base::v_ = 42], [IntermediateBaseA::a_ = 3],
    [IntermediateBaseB::b_ = 101] and [value_ = v]. *)
Definition multiply_derived (v : Z) : object class :=
  {| dyn := MultiplyDerived;
     members := [(Base, 42%Z); (IntermediateBaseA, 3%Z);
                 (IntermediateBaseB, 101%Z); (MultiplyDerived, v)] |}.

Definition initial : state class :=
  {| heap := ∅; oracle := []; vars := ∅ |}.

(** [cloned_ptr<BaseType> a(new DerivedType(7)); cloned_ptr<BaseType> b, e;] *)
Definition one_owner_program : M class unit :=
  declare "a" (make_cloned_ptr DerivedType [(DerivedType, 7%Z)]);;
  declare "b" cloned_ptr_default;;
  declare "e" cloned_ptr_default.

Definition seven : cloned_ptr class :=
  {| ptr_ := 1%N; cb_ := Some (control_block_impl DerivedType 1%N) |}.

Definition one_owner : state class :=
  {| heap := {[ 1%N := Obj (derived 7) ]};
     oracle := [];
     vars := {[ "a" := seven; "b" := empty_handle; "e" := empty_handle ]} |}.

(** [cloned_ptr<BaseType> dptr1(new DerivedType(7)), dptr2(new DerivedType(87));] *)
Definition two_owners_program : M class unit :=
  declare "dptr1" (make_cloned_ptr DerivedType [(DerivedType, 7%Z)]);;
  declare "dptr2" (make_cloned_ptr DerivedType [(DerivedType, 87%Z)]).

Definition dptr1 : cloned_ptr class :=
  {| ptr_ := 1%N; cb_ := Some (control_block_impl DerivedType 1%N) |}.

Definition dptr2 : cloned_ptr class :=
  {| ptr_ := 2%N; cb_ := Some (control_block_impl DerivedType 2%N) |}.

Definition two_owners : state class :=
  {| heap := {[ 1%N := Obj (derived 7); 2%N := Obj (derived 87) ]};
     oracle := [];
     vars := {[ "dptr1" := dptr1; "dptr2" := dptr2 ]} |}.

(** [IntermediateBaseA *u = new MultiplyDerived(7); cloned_ptr<Base> h(u);]:
    the pointer's static class is a proper base of the object's class. *)
Definition sliced_owner_program : M class unit :=
  u ← new_ (multiply_derived 7);
  declare "h" (cloned_ptr_from IntermediateBaseA u).

Definition sliced : cloned_ptr class :=
  {| ptr_ := 1%N; cb_ := Some (control_block_impl IntermediateBaseA 1%N) |}.

Definition sliced_owner : state class :=
  {| heap := {[ 1%N := Obj (multiply_derived 7) ]};
     oracle := [];
     vars := {[ "h" := sliced ]} |}.



(** [two_owners] after [dptr1 = std::move(dptr2);]. *)
Definition two_owners_moved : state class :=
  {| heap := {[ 2%N := Obj (derived 87) ]};
     oracle := [];
     vars := {[ "dptr1" := dptr2; "dptr2" := empty_handle ]} |}.

(** [one_owner] when the next allocation and the next constructor succeed
    and the allocation after them fails. *)
Definition block_allocation_fails : state class :=
  set_oracle [true; true; false] one_owner.

(** [block_allocation_fails] after the failed copy: the duplicate of the
    object is at address 2. *)
Definition after_failed_copy : state class :=
  {| heap := {[ 1%N := Obj (derived 7); 2%N := Obj (derived 7) ]};
     oracle := [];
     vars := vars one_owner |}.

(** [one_owner] after [a.release()]. *)
Definition released : cloned_ptr class :=
  {| ptr_ := nullptr; cb_ := Some (control_block_impl DerivedType nullptr) |}.

Definition one_owner_released : state class :=
  {| heap := {[ 1%N := Obj (derived 7) ]};
     oracle := [];
     vars := {[ "a" := released; "b" := empty_handle; "e" := empty_handle ]} |}.

(** [one_owner] after [cloned_ptr<BaseType> c(a);]. *)
Definition copied : cloned_ptr class :=
  {| ptr_ := 2%N; cb_ := Some (control_block_impl DerivedType 2%N) |}.

Definition one_owner_copied : state class :=
  {| heap := {[ 1%N := Obj (derived 7); 2%N := Obj (derived 7) ]};
     oracle := [];
     vars := {[ "a" := seven; "b" := empty_handle; "c" := copied;
                "e" := empty_handle ]} |}.

(** The free store of [allocate_polymorphic_value<BaseType, DerivedType>(
    std::allocator_arg, a, 7)], object at 1 and control block at 2, when
    the next allocation and constructor succeed and the allocation after
    them fails. *)
Definition allocated_block : isocpp_p0201.control_block class :=
  isocpp_p0201.allocated_pointer_control_block DerivedType 1%N 2%N.

Definition allocated_owner : state class :=
  {| heap := {[ 1%N := Obj (derived 7); 2%N := Block ]};
     oracle := [true; true; false];
     vars := ∅ |}.


(** [one_owner] when the next allocation fails. *)
Definition allocation_fails : state class :=
  set_oracle [false] one_owner.

(** [polymorphic_value<BaseType> v(new DerivedType(7)), w;] with the object
    at address 1. *)
Definition held_block : isocpp_p0201.control_block class :=
  isocpp_p0201.pointer_control_block DerivedType 1%N
    isocpp_p0201.default_copy isocpp_p0201.default_delete.

Definition held : isocpp_p0201.polymorphic_value class :=
  {| isocpp_p0201.ptr_ := 1%N; isocpp_p0201.cb_ := Some held_block |}.

Definition values : gmap var (isocpp_p0201.polymorphic_value class) :=
  {[ "v" := held; "w" := isocpp_p0201.empty_value ]}.

Definition one_value : state class :=
  {| heap := {[ 1%N := Obj (derived 7) ]};
     oracle := [];
     vars := ∅ |}.

End TestTypes.

(** * Properties *)

Section Properties.

Context {class : Type}.
Variable is_base_of : class -> class -> bool.

Implicit Types (s : state class) (h : cloned_ptr class).
Implicit Types (b c : control_block class) (o : object class).

#[local] Abbreviation M := (M class).

(** ** Running the primitives *)

Lemma run_bind {A B} (m : M A) (f : A -> M B) s :
  (m ≫= f) s =
  match m s with
  | (Ok a, s') => f a s'
  | (Throw e, s') => (Throw e, s')
  | (AssertionFailed, s') => (AssertionFailed, s')
  | (Undefined, s') => (Undefined, s')
  end.
Proof. reflexivity. Qed.

Lemma run_ret {A} (a : A) s : (mret a : M A) s = (Ok a, s).
Proof. reflexivity. Qed.

Lemma set_heap_id s : set_heap (heap s) s = s.
Proof. by destruct s. Qed.

(** ** Runs in which nothing fails *)

Lemma returns_try_catch {A} (m : M A) (hd : M unit) s a hp v :
  returns m s a hp v -> returns (try_catch_rethrow m hd) s a hp v.
Proof.
  intros (s1 & E & H1 & V1 & Q1). exists s1.
  unfold try_catch_rethrow. by rewrite E.
Qed.

Lemma returns_may_fail e s :
  quiet s -> returns (may_fail e) s () (heap s) (vars s).
Proof.
  unfold returns, quiet, may_fail. intros Q.
  destruct (oracle s) as [|[] o] eqn:E.
  - exists s. by rewrite E.
  - exists (set_oracle o s). repeat split. by inversion Q.
  - inversion Q. done.
Qed.

Lemma fresh_address_not_null (hp : gmap addr (cell class)) :
  fresh_address hp ≠ nullptr.
Proof.
  unfold fresh_address.
  pose proof (is_fresh ({[nullptr]} ∪ dom hp)) as F. set_solver.
Qed.

Lemma fresh_address_unused (hp : gmap addr (cell class)) :
  hp !! fresh_address hp = None.
Proof.
  unfold fresh_address.
  pose proof (is_fresh ({[nullptr]} ∪ dom hp)) as F.
  apply not_elem_of_dom. set_solver.
Qed.

Lemma returns_new o s :
  quiet s ->
  returns (new_ o) s (fresh_address (heap s))
    (<[fresh_address (heap s) := Obj o]> (heap s)) (vars s).
Proof.
  unfold returns, quiet, new_, allocate, construct, try_catch_rethrow.
  destruct s as [hp orc v]. simpl. intros Q.
  destruct orc as [|b1 [|b2 orc]].
  - eexists. split; [reflexivity|]. simpl.
    by rewrite insert_insert_eq.
  - inversion Q; subst. eexists. split; [reflexivity|]. simpl.
    by rewrite insert_insert_eq.
  - inversion Q as [|? ? ? Q']; subst. inversion Q'; subst.
    eexists. split; [reflexivity|]. simpl.
    by rewrite insert_insert_eq.
Qed.

Lemma deref_live p o s :
  p ≠ nullptr -> heap s !! p = Some (Obj o) -> deref p s = (Ok o, s).
Proof.
  intros N E. unfold deref. rewrite decide_False by done.
  rewrite run_bind. simpl. by rewrite E.
Qed.

Lemma delete_null s : delete_ nullptr s = (Ok (), s).
Proof. reflexivity. Qed.

Lemma try_catch_ok {A} (m : M A) (hd : M unit) s a s' :
  m s = (Ok a, s') -> try_catch_rethrow m hd s = (Ok a, s').
Proof. intros E. unfold try_catch_rethrow. by rewrite E. Qed.

(** ** Control blocks *)

Lemma destroy_target b s : destroy b s = delete_ (target b) s.
Proof.
  unfold target.
  induction b as [U p|d IH|d IH|T d IH p|d IH]; simpl; try done;
    destruct IH; simpl; done.
Qed.

Lemma reset_unique_target (u : option (control_block class)) s :
  reset_unique u s = delete_ (target_of u) s.
Proof. destruct u; simpl; [apply destroy_target | done]. Qed.

Lemma coherent_owned b : coherent b -> ∃ U, owned b = Some (U, target b).
Proof.
  clear is_base_of. unfold target.
  induction b as [U p|d IH|d IH|T d IH p|d IH]; simpl; intros C;
    first (by eexists);
    destruct IH as [b IH|]; simpl in *; try done; apply IH; tauto.
Qed.

Lemma coherent_ptr b :
  coherent b -> ptr b = Some (target b) ∨ ptr b = Some nullptr.
Proof.
  unfold target.
  induction b as [U p|d IH|d IH|T d IH p|d IH]; simpl; intros C;
    first (by left);
    destruct IH as [b IH|]; simpl in *; try done; try (apply IH; tauto).
  destruct C as [_ [->| ->]]; [by right | by left].
Qed.

Lemma owned_coherent_ptr b :
  coherent b -> ∀ a, ptr b = Some a -> a ≠ nullptr -> a = target b.
Proof.
  intros C a E N. destruct (coherent_ptr b C) as [E'|E']; congruence.
Qed.

(** [release()] hands out what [ptr()] returns and leaves a chain that
    deletes nothing. *)
Lemma release_coherent b :
  coherent b ->
  ∃ x b', ptr b = Some x ∧ release b = Some (x, b') ∧ target b' = nullptr.
Proof.
  unfold target.
  induction b as [U p|d IH|d IH|T d IH p|d IH]; simpl; intros C;
    first (by eexists _, _);
    destruct IH as [b IH|]; simpl in *; try done.
  - destruct (IH C) as (x & b' & E1 & E2 & E3). rewrite E1, E2.
    by eexists _, _.
  - destruct (IH C) as (x & b' & E1 & E2 & E3). rewrite E1, E2.
    by eexists _, _.
  - destruct C as [C _].
    destruct (IH C) as (x & b' & E1 & E2 & E3). rewrite E2.
    by eexists _, _.
  - destruct (IH C) as (x & b' & E1 & E2 & E3). rewrite E1, E2.
    by eexists _, _.
Qed.

Lemma dynamic_cast_null (T : class) s :
  dynamic_cast is_base_of T nullptr s = (Ok nullptr, s).
Proof. reflexivity. Qed.

Lemma dynamic_cast_live (T : class) p o s :
  p ≠ nullptr -> heap s !! p = Some (Obj o) ->
  dynamic_cast is_base_of T p s
  = (Ok (if is_base_of T (dyn o) then p else nullptr), s).
Proof.
  intros N E. unfold dynamic_cast. rewrite decide_False by done.
  by rewrite run_bind, deref_live with (o := o).
Qed.

Lemma returns_make_unique b s :
  quiet s -> returns (make_unique b) s b (heap s) (vars s).
Proof.
  intros Q. destruct (returns_may_fail bad_alloc s Q) as (s1 & E & H & V & Q1).
  exists s1. unfold make_unique. by rewrite run_bind, E.
Qed.

(** With no failure scheduled, cloning a chain whose bottom block holds a
    live object creates exactly one object, the copy made by the copy
    constructor of the class bound at the bottom, at a fresh address, and
    returns a coherent chain that holds it. *)
Lemma returns_clone b U a o s :
  quiet s -> owned b = Some (U, a) -> a ≠ nullptr ->
  heap s !! a = Some (Obj o) ->
  ∃ c,
    returns (clone is_base_of b) s c
      (<[fresh_address (heap s) := Obj (copy_as is_base_of U o)]> (heap s))
      (vars s)
    ∧ coherent c ∧ owned c = Some (U, fresh_address (heap s)).
Proof.
  intros Hq Hown Ha Hobj.
  induction b as [U0 p|d IH|d IH|T d IH p|d IH]; simpl in *.
  - injection Hown as -> ->.
    exists (control_block_impl U (fresh_address (heap s))).
    split; [|done].
    destruct (returns_new (copy_as is_base_of U o) s Hq)
      as (s1 & E1 & H1 & V1 & Q1).
    destruct (returns_make_unique
                (control_block_impl U (fresh_address (heap s))) s1 Q1)
      as (s2 & E2 & H2 & V2 & Q2).
    exists s2. unfold new_copy.
    rewrite run_bind, run_bind, deref_live with (o := o) by done.
    rewrite E1, E2. repeat split; congruence.
  - destruct IH as [b IH|]; [|done].
    destruct (IH Hown) as (c & (s1 & E & H1 & V1 & Q1) & C & O).
    exists (delegating_control_block (Some c)). split; [|done].
    destruct (returns_make_unique (delegating_control_block (Some c)) s1 Q1)
      as (s2 & E2 & H2 & V2 & Q2).
    exists s2. rewrite run_bind, E. unfold owning.
    erewrite try_catch_ok by exact E2. repeat split; congruence.
  - destruct IH as [b IH|]; [|done].
    destruct (IH Hown) as (c & (s1 & E & H1 & V1 & Q1) & C & O).
    exists (downcasting_delegating_control_block (Some c)). split; [|done].
    destruct (returns_make_unique
                (downcasting_delegating_control_block (Some c)) s1 Q1)
      as (s2 & E2 & H2 & V2 & Q2).
    exists s2. rewrite run_bind, E. unfold owning.
    erewrite try_catch_ok by exact E2. repeat split; congruence.
  - destruct IH as [b IH|]; [|done].
    destruct (IH Hown) as (c & (s1 & E & H1 & V1 & Q1) & C & O).
    assert (target c = fresh_address (heap s)) as Ht
      by (unfold target; by rewrite O).
    destruct (returns_may_fail bad_alloc s1 Q1) as (s2 & E2 & H2 & V2 & Q2).
    destruct (coherent_ptr c C) as [P|P].
    + exists (dynamic_casting_delegating_control_block T (Some c)
               (if is_base_of T U then fresh_address (heap s) else nullptr)).
      split.
      * exists s2. rewrite run_bind, E. unfold owning.
        erewrite try_catch_ok; [repeat split; congruence|].
        unfold make_unique_dynamic_casting.
        rewrite run_bind, E2, P, run_bind, Ht.
        rewrite dynamic_cast_live
          with (o := copy_as is_base_of U o);
          [reflexivity|apply fresh_address_not_null|].
        rewrite H2, H1. apply lookup_insert_eq.
      * simpl. split; [|done]. split; [done|].
        destruct (is_base_of T U); [right|left]; done.
    + exists (dynamic_casting_delegating_control_block T (Some c) nullptr).
      split.
      * exists s2. rewrite run_bind, E. unfold owning.
        erewrite try_catch_ok; [repeat split; congruence|].
        unfold make_unique_dynamic_casting.
        by rewrite run_bind, E2, P, run_bind, dynamic_cast_null.
      * simpl. split; [|done]. split; [done|]. by left.
  - destruct IH as [b IH|]; [|done].
    destruct (IH Hown) as (c & (s1 & E & H1 & V1 & Q1) & C & O).
    exists (const_casting_delegating_control_block (Some c)). split; [|done].
    destruct (returns_make_unique
                (const_casting_delegating_control_block (Some c)) s1 Q1)
      as (s2 & E2 & H2 & V2 & Q2).
    exists s2. rewrite run_bind, E. unfold owning.
    erewrite try_catch_ok by exact E2. repeat split; congruence.
Qed.


(** ** Running the handle primitives *)

Lemma delete_deletable a s :
  deletable s a ->
  delete_ a s = (Ok (), set_heap (without a (heap s)) s).
Proof.
  unfold without. intros [->|[o E]].
  - rewrite delete_null, decide_True by done. by rewrite set_heap_id.
  - unfold delete_. destruct (decide (a = nullptr)) as [->|N].
    + by rewrite run_ret, set_heap_id.
    + by rewrite run_bind; simpl; rewrite E.
Qed.

Lemma read_lookup x h s : vars s !! x = Some h -> read x s = (Ok h, s).
Proof. intros E. unfold read. by rewrite E. Qed.

Lemma set_ptr_lookup x a h s :
  vars s !! x = Some h ->
  set_ptr_ x a s
  = (Ok (), set_vars (<[x := {| ptr_ := a; cb_ := cb_ h |}]> (vars s)) s).
Proof. intros E. unfold set_ptr_. by rewrite run_bind, read_lookup with (h := h). Qed.

Lemma set_cb_lookup x u h s :
  vars s !! x = Some h ->
  set_cb_ x u s
  = (Ok (), set_vars (<[x := {| ptr_ := ptr_ h; cb_ := u |}]> (vars s)) s).
Proof. intros E. unfold set_cb_. by rewrite run_bind, read_lookup with (h := h). Qed.

Lemma assign_cb_lookup x u h s :
  vars s !! x = Some h ->
  deletable s (target_of (cb_ h)) ->
  assign_cb_ x u s
  = (Ok (),
     {| heap := without (target_of (cb_ h)) (heap s);
        oracle := oracle s;
        vars := <[x := {| ptr_ := ptr_ h; cb_ := u |}]> (vars s) |}).
Proof.
  intros E D. unfold assign_cb_.
  rewrite run_bind, read_lookup with (h := h) by done.
  rewrite run_bind, set_cb_lookup with (h := h) by done.
  rewrite reset_unique_target, delete_deletable by done.
  reflexivity.
Qed.

(** ** Copying *)

Lemma operator_bool_spec h : operator_bool h = true <-> ptr_ h ≠ nullptr.
Proof.
  unfold operator_bool. rewrite negb_true_iff, N.eqb_neq. done.
Qed.

Lemma operator_bool_true h : ptr_ h ≠ nullptr -> operator_bool h = true.
Proof. apply operator_bool_spec. Qed.

Lemma operator_bool_false h : ptr_ h = nullptr -> operator_bool h = false.
Proof. unfold operator_bool. intros ->. reflexivity. Qed.

Lemma handle_ok_owned h U :
  handle_ok h -> ptr_ h ≠ nullptr -> bound_class h = Some U ->
  ∃ b, cb_ h = Some b ∧ coherent b ∧ owned b = Some (U, ptr_ h).
Proof.
  intros Hok Hnn Hcls. destruct (Hok Hnn) as (b & Hb & C & P).
  exists b. repeat split; try done.
  destruct (coherent_owned b C) as [U' O].
  unfold bound_class in Hcls. rewrite Hb, O in Hcls. simpl in Hcls.
  injection Hcls as ->.
  by rewrite O, <- (owned_coherent_ptr b C _ P Hnn).
Qed.

Lemma cloned_ptr_copy_empty h s :
  ptr_ h = nullptr -> cloned_ptr_copy is_base_of h s = (Ok empty_handle, s).
Proof.
  intros E. unfold cloned_ptr_copy. by rewrite operator_bool_false.
Qed.

Lemma returns_clone_of_handle h U o s :
  quiet s -> handle_ok h -> ptr_ h ≠ nullptr ->
  bound_class h = Some U -> heap s !! ptr_ h = Some (Obj o) ->
  ∃ b c a',
    cb_ h = Some b
    ∧ returns (clone is_base_of b) s c
        (<[fresh_address (heap s) := Obj (copy_as is_base_of U o)]> (heap s))
        (vars s)
    ∧ coherent c ∧ ptr c = Some a'
    ∧ owned c = Some (U, fresh_address (heap s))
    ∧ (a' = fresh_address (heap s) ∨ a' = nullptr).
Proof.
  intros Hq Hok Hnn Hcls Hobj.
  destruct (handle_ok_owned h U Hok Hnn Hcls) as (b & Hb & C & O).
  destruct (returns_clone b U _ o s Hq O Hnn Hobj) as (c & E & Cc & Oc).
  assert (target c = fresh_address (heap s)) as Ht
    by (unfold target; by rewrite Oc).
  destruct (coherent_ptr c Cc) as [P|P];
    eexists b, c, _; repeat split; try done.
  - by left.
  - by right.
Qed.

Lemma returns_cloned_ptr_copy h U o s :
  quiet s -> handle_ok h -> ptr_ h ≠ nullptr ->
  bound_class h = Some U -> heap s !! ptr_ h = Some (Obj o) ->
  ∃ c a',
    returns (cloned_ptr_copy is_base_of h) s {| ptr_ := a'; cb_ := Some c |}
      (<[fresh_address (heap s) := Obj (copy_as is_base_of U o)]> (heap s))
      (vars s)
    ∧ coherent c ∧ ptr c = Some a'
    ∧ owned c = Some (U, fresh_address (heap s))
    ∧ (a' = fresh_address (heap s) ∨ a' = nullptr).
Proof.
  intros Hq Hok Hnn Hcls Hobj.
  destruct (returns_clone_of_handle h U o s Hq Hok Hnn Hcls Hobj)
    as (b & c & a' & Hb & (s1 & E & H1 & V1 & Q1) & C & P & Ht & Ha).
  exists c, a'. repeat split; try done.
  exists s1. unfold cloned_ptr_copy.
  rewrite operator_bool_true, Hb by done. simpl.
  by rewrite run_bind, E, P.
Qed.





(** ** Release *)

Lemma handle_eta h : {| ptr_ := ptr_ h; cb_ := cb_ h |} = h.
Proof. by destruct h. Qed.

(** C3.  [release()] on an empty handle returns null and changes nothing.
    On a non-empty handle it returns the observer held until then, leaves
    the handle empty (false as a boolean, [get()] null) and leaves the free
    store as it was, so the released object is alive; the descriptor that
    stays behind deletes nothing, so destroying the handle afterwards
    leaves the free store untouched as well.  This holds whatever failures
    are scheduled. *)
Theorem release_transfers_ownership (this : var) h s :
  vars s !! this = Some h ->
  (ptr_ h = nullptr -> cloned_ptr_release this s = (Ok nullptr, s))
  ∧ (ptr_ h ≠ nullptr -> handle_ok h ->
     ∃ b',
       let h' := {| ptr_ := nullptr; cb_ := Some b' |} in
       let s' := set_vars (<[this := h']> (vars s)) s in
       cloned_ptr_release this s = (Ok (ptr_ h), s')
       ∧ operator_bool h' = false ∧ get h' = nullptr
       ∧ heap s' = heap s
       ∧ destructor this s' = (Ok (), set_vars (delete this (vars s)) s)).
Proof.
  intros Hthis. split.
  - intros Hnull. unfold cloned_ptr_release.
    rewrite run_bind, read_lookup with (h := h) by done.
    by rewrite Hnull.
  - intros Hnn Hok. destruct (Hok Hnn) as (b & Hb & C & P).
    destruct (release_coherent b C) as (x & b' & P' & R & T).
    assert (x = ptr_ h) as -> by congruence.
    exists b'. simpl. repeat split.
    + unfold cloned_ptr_release.
      rewrite run_bind, read_lookup with (h := h) by done.
      apply N.eqb_neq in Hnn. rewrite Hnn.
      rewrite run_bind, set_ptr_lookup with (h := h) by done.
      rewrite Hb, R.
      erewrite run_bind, set_cb_lookup; [|simpl; apply lookup_insert_eq].
      rewrite run_ret. unfold set_vars. simpl. by rewrite insert_insert_eq.
    + unfold destructor.
      erewrite run_bind, read_lookup; [|simpl; apply lookup_insert_eq].
      simpl. rewrite run_bind, destroy_target, T, delete_null.
      unfold forget, set_vars. simpl. by rewrite delete_insert_eq.
Qed.

(** ** Moving *)




(** ** A small program logic for invariants *)

Lemma hoare_ret {A} (a : A) (P : state class -> Prop) Q E :
  (∀ s, P s -> Q a s) -> hoare P (mret a : M A) Q E.
Proof. intros H s Hs. by apply H. Qed.

Lemma hoare_undefined {A} (P : state class -> Prop) (Q : A -> _) E :
  hoare P undefined Q E.
Proof. by intros s Hs. Qed.

Lemma frames_ret {A} (a : A) (φ : A -> Prop) ε :
  φ a -> frames (mret a : M A) φ ε.
Proof. by intros H s. Qed.

Lemma frames_bind {A B} (m : M A) (f : A -> M B) φ ψ ε :
  frames m φ ε -> (∀ a, φ a -> frames (f a) ψ ε) -> frames (m ≫= f) ψ ε.
Proof.
  intros Hm Hf s. destruct (Hm s) as [Hv Hr]. rewrite run_bind.
  destruct (m s) as [[a|e| |] s1]; simpl in *; try done.
  destruct (Hf a Hr s1) as [Hv' Hr']. split; [congruence|done].
Qed.

Lemma frames_weaken {A} (m : M A) (φ ψ : A -> Prop) (ε ε' : Prop) :
  frames m φ ε -> (∀ a, φ a -> ψ a) -> (ε -> ε') -> frames m ψ ε'.
Proof.
  intros Hm H He s. destruct (Hm s) as [Hv Hr]. split; [done|].
  destruct ((m s).1); auto.
Qed.

Lemma frames_try_catch {A} (m : M A) (hd : M unit) φ :
  frames m φ True -> frames hd (fun _ => True) True ->
  frames (try_catch_rethrow m hd) φ True.
Proof.
  intros Hm Hh s. destruct (Hm s) as [Hv Hr]. unfold try_catch_rethrow.
  destruct (m s) as [[a|e| |] s1]; simpl in *; try done.
  destruct (Hh s1) as [Hv' _]. unfold bind.
  destruct (hd s1) as [[[]|e'| |] s2]; simpl in *; split; (congruence || done).
Qed.

Lemma frames_undefined {A} (φ : A -> Prop) ε : frames (undefined : M A) φ ε.
Proof. by intros s. Qed.

Lemma frames_get_heap ε : frames (get_heap (class := class)) (fun _ => True) ε.
Proof. by intros s. Qed.

Lemma frames_put_heap hp ε :
  frames (put_heap (class := class) hp) (fun _ => True) ε.
Proof. by intros s. Qed.

Lemma frames_may_fail e : frames (may_fail (class := class) e) (fun _ => True) True.
Proof. intros s. unfold may_fail. by destruct (oracle s) as [|[] ?]. Qed.

Lemma frames_make_unique b : frames (make_unique b) (fun c => c = b) True.
Proof.
  unfold make_unique. eapply frames_bind; [apply frames_may_fail|].
  intros _ _. by apply frames_ret.
Qed.

Lemma frames_deref p ε : frames (deref (class := class) p) (fun _ => True) ε.
Proof.
  unfold deref. case_decide; [apply frames_undefined|].
  eapply frames_bind; [apply frames_get_heap|]. intros hp _.
  destruct (hp !! p) as [[]|]; (apply frames_undefined || by apply frames_ret).
Qed.

Lemma frames_delete p : frames (delete_ (class := class) p) (fun _ => True) False.
Proof.
  unfold delete_. case_decide; [by apply frames_ret|].
  eapply frames_bind; [apply frames_get_heap|]. intros hp _.
  destruct (hp !! p) as [[]|];
    (apply frames_undefined || apply frames_put_heap).
Qed.

Lemma frames_new o : frames (new_ o) (fun _ => True) True.
Proof.
  unfold new_, allocate, construct, deallocate.
  eapply frames_bind.
  { eapply frames_bind; [apply frames_may_fail|]. intros _ _.
    eapply frames_bind; [apply frames_get_heap|]. intros hp _.
    eapply frames_bind; [apply frames_put_heap|]. intros _ _.
    by apply (frames_ret _ (fun _ => True)). }
  intros mem _. apply frames_try_catch.
  - eapply frames_bind.
    { eapply frames_bind; [apply frames_may_fail|]. intros _ _.
      eapply frames_bind; [apply frames_get_heap|]. intros hp _.
      apply frames_put_heap. }
    intros _ _. by apply frames_ret.
  - eapply frames_bind; [apply frames_get_heap|]. intros hp _.
    apply frames_put_heap.
Qed.

Lemma frames_new_copy (U : class) p :
  frames (new_copy is_base_of U p) (fun _ => True) True.
Proof.
  unfold new_copy. eapply frames_bind; [apply frames_deref|].
  intros o _. apply frames_new.
Qed.

Lemma frames_destroy b : frames (destroy b) (fun _ => True) False.
Proof.
  intros s. rewrite destroy_target. apply frames_delete.
Qed.

Lemma frames_reset_unique (u : option (control_block class)) :
  frames (reset_unique u) (fun _ => True) False.
Proof.
  destruct u; simpl; [apply frames_destroy|by apply frames_ret].
Qed.

Lemma frames_owning {A} (u : option (control_block class)) (m : M A) φ :
  frames m φ True -> frames (owning u m) φ True.
Proof.
  intros Hm. apply frames_try_catch; [done|].
  eapply frames_weaken; [apply frames_reset_unique|done|done].
Qed.

Lemma frames_dynamic_cast (T : class) p ε :
  frames (dynamic_cast is_base_of T p) (fun r => r = p ∨ r = nullptr) ε.
Proof.
  unfold dynamic_cast. case_decide; [apply frames_ret; by right|].
  eapply frames_bind; [apply frames_deref|]. intros o _.
  apply frames_ret. destruct (is_base_of T (dyn o)); [by left|by right].
Qed.

Lemma frames_clone b : frames (clone is_base_of b) coherent True.
Proof.
  induction b as [U p|d IH|d IH|T d IH p|d IH]; simpl.
  - eapply frames_bind; [apply frames_new_copy|]. intros a _.
    eapply frames_weaken; [apply frames_make_unique| |done]. by intros c ->.
  - destruct IH as [b IH|]; [|apply frames_undefined].
    eapply frames_bind; [apply IH|]. intros c C. apply frames_owning.
    eapply frames_weaken; [apply frames_make_unique| |done]. by intros ? ->.
  - destruct IH as [b IH|]; [|apply frames_undefined].
    eapply frames_bind; [apply IH|]. intros c C. apply frames_owning.
    eapply frames_weaken; [apply frames_make_unique| |done]. by intros ? ->.
  - destruct IH as [b IH|]; [|apply frames_undefined].
    eapply frames_bind; [apply IH|]. intros c C. apply frames_owning.
    unfold make_unique_dynamic_casting.
    eapply frames_bind; [apply frames_may_fail|]. intros _ _.
    destruct (coherent_ptr c C) as [P|P]; rewrite P.
    + eapply frames_bind; [apply frames_dynamic_cast|]. intros r Hr.
      apply frames_ret. simpl. split; [done|]. destruct Hr; auto.
    + eapply frames_bind; [apply frames_dynamic_cast|]. intros r Hr.
      apply frames_ret. simpl. split; [done|]. destruct Hr; auto.
  - destruct IH as [b IH|]; [|apply frames_undefined].
    eapply frames_bind; [apply IH|]. intros c C. apply frames_owning.
    eapply frames_weaken; [apply frames_make_unique| |done]. by intros ? ->.
Qed.

(** ** Handles built by constructors and casts satisfy the invariant *)

Lemma handle_ok_empty : handle_ok (class := class) empty_handle.
Proof. by intros N. Qed.

Lemma handle_ok_null (u : option (control_block class)) :
  handle_ok {| ptr_ := nullptr; cb_ := u |}.
Proof. by intros N. Qed.

Lemma handle_ok_intro a c :
  coherent c -> ptr c = Some a -> handle_ok {| ptr_ := a; cb_ := Some c |}.
Proof. intros C P _. by exists c. Qed.

Lemma handle_ok_delegating h :
  handle_ok h ->
  handle_ok {| ptr_ := ptr_ h; cb_ := Some (delegating_control_block (cb_ h)) |}.
Proof.
  intros Hok N. destruct (Hok N) as (c & -> & C & P). simpl. by eexists.
Qed.

Lemma handle_ok_downcasting h :
  handle_ok h ->
  handle_ok {| ptr_ := ptr_ h;
               cb_ := Some (downcasting_delegating_control_block (cb_ h)) |}.
Proof.
  intros Hok N. destruct (Hok N) as (c & -> & C & P). simpl. by eexists.
Qed.

Lemma handle_ok_const_casting h :
  handle_ok h ->
  handle_ok {| ptr_ := ptr_ h;
               cb_ := Some (const_casting_delegating_control_block (cb_ h)) |}.
Proof.
  intros Hok N. destruct (Hok N) as (c & -> & C & P). simpl. by eexists.
Qed.

Lemma frames_cloned_ptr_default :
  frames (cloned_ptr_default (class := class)) handle_ok True.
Proof. apply frames_ret, handle_ok_empty. Qed.

Lemma frames_cloned_ptr_from (U : class) u :
  frames (cloned_ptr_from U u) handle_ok True.
Proof.
  unfold cloned_ptr_from. case_decide; [apply frames_ret, handle_ok_empty|].
  eapply frames_bind; [apply frames_make_unique|]. intros c ->.
  apply frames_ret. by apply handle_ok_intro.
Qed.

Lemma frames_make_cloned_ptr (T : class) ms :
  frames (make_cloned_ptr T ms) handle_ok True.
Proof.
  unfold make_cloned_ptr. eapply frames_bind; [apply frames_new|].
  intros u _. apply frames_cloned_ptr_from.
Qed.

Lemma frames_cloned_ptr_copy h :
  frames (cloned_ptr_copy is_base_of h) handle_ok True.
Proof.
  unfold cloned_ptr_copy.
  destruct (operator_bool h); simpl; [|apply frames_ret, handle_ok_empty].
  destruct (cb_ h) as [b|]; [|apply frames_undefined].
  eapply frames_bind; [apply frames_clone|]. intros c C.
  destruct (ptr c) as [a|] eqn:P; [|apply frames_undefined].
  apply frames_ret. by apply handle_ok_intro.
Qed.

Lemma frames_cloned_ptr_convert_copy h :
  frames (cloned_ptr_convert_copy is_base_of h) handle_ok True.
Proof.
  unfold cloned_ptr_convert_copy.
  eapply frames_bind; [apply frames_cloned_ptr_copy|]. intros tmp Hok.
  apply frames_owning.
  eapply frames_bind; [apply frames_make_unique|]. intros c ->.
  apply frames_ret. by apply handle_ok_delegating.
Qed.

Lemma frames_static_pointer_cast h :
  frames (static_pointer_cast is_base_of h) handle_ok True.
Proof.
  unfold static_pointer_cast.
  eapply frames_bind; [apply frames_cloned_ptr_copy|]. intros tmp Hok.
  apply frames_owning.
  eapply frames_bind; [apply frames_make_unique|]. intros c ->.
  apply frames_ret. by apply handle_ok_downcasting.
Qed.

Lemma frames_const_pointer_cast h :
  frames (const_pointer_cast is_base_of h) handle_ok True.
Proof.
  unfold const_pointer_cast.
  eapply frames_bind; [apply frames_cloned_ptr_copy|]. intros tmp Hok.
  apply frames_owning.
  eapply frames_bind; [apply frames_make_unique|]. intros c ->.
  apply frames_ret. by apply handle_ok_const_casting.
Qed.

Lemma dynamic_cast_run (T : class) p s :
  ∃ r, dynamic_cast is_base_of T p s = (r, s)
       ∧ ∀ s2, heap s2 = heap s -> dynamic_cast is_base_of T p s2 = (r, s2).
Proof.
  unfold dynamic_cast, deref. case_decide; [by eexists|].
  destruct (heap s !! p) as [[]|] eqn:E;
    eexists; (split; [by rewrite !run_bind; simpl; rewrite E|]);
    intros s2 H2; rewrite !run_bind; simpl; by rewrite H2, E.
Qed.

Lemma may_fail_run e s :
  ∃ r s2, may_fail e s = (r, s2) ∧ heap s2 = heap s ∧ vars s2 = vars s.
Proof.
  unfold may_fail. destruct (oracle s) as [|[] ?]; by eexists _, _.
Qed.

Lemma frames_dynamic_adapter (T : class) tmp :
  handle_ok tmp ->
  frames
    (a' ← dynamic_cast is_base_of T (ptr_ tmp);
     cb ← make_unique_dynamic_casting is_base_of T (cb_ tmp);
     mret {| ptr_ := a'; cb_ := Some cb |})
    handle_ok True.
Proof.
  intros Hok s.
  destruct (dynamic_cast_run T (ptr_ tmp) s) as (r & E & Hdet).
  pose proof (frames_dynamic_cast T (ptr_ tmp) True s) as [_ Hr].
  rewrite run_bind, E. rewrite E in Hr. simpl in Hr.
  destruct r as [a'| | |]; try done.
  unfold make_unique_dynamic_casting.
  destruct (may_fail_run bad_alloc s) as (r1 & s2 & E1 & Hh & Hv).
  rewrite !run_bind, E1. destruct r1 as [[]| | |]; try done.
  destruct (cb_ tmp) as [c|] eqn:Hc; [|done].
  destruct (ptr c) as [x|] eqn:P; [|done].
  destruct (decide (ptr_ tmp = nullptr)) as [Hn|Hn].
  - assert (a' = nullptr) as -> by (destruct Hr; congruence).
    pose proof (frames_dynamic_cast T x True s2) as [Hv2 Hr2].
    rewrite run_bind.
    destruct (dynamic_cast is_base_of T x s2) as [[pc| | |] s3];
      simpl in *; (split; [congruence|]); try done.
    apply handle_ok_null.
  - destruct (Hok Hn) as (c' & Hc' & C & P').
    assert (c' = c) as -> by congruence.
    assert (x = ptr_ tmp) as -> by congruence.
    rewrite run_bind, (Hdet s2 Hh). simpl. split; [done|].
    intros Ha'. eexists. split; [done|]. simpl. split; [|done].
    split; [done|]. right.
    destruct Hr as [->| ->]; [|done].
    by apply owned_coherent_ptr.
Qed.

Lemma frames_dynamic_pointer_cast (T : class) h :
  frames (dynamic_pointer_cast is_base_of T h) handle_ok True.
Proof.
  unfold dynamic_pointer_cast.
  eapply frames_bind; [apply frames_dynamic_cast|]. intros a _.
  destruct (N.eqb a nullptr); [apply frames_cloned_ptr_default|].
  eapply frames_bind; [apply frames_cloned_ptr_copy|]. intros tmp Hok.
  apply frames_owning. by apply frames_dynamic_adapter.
Qed.

(** ** Symbolic execution of handle code *)

#[local] Abbreviation at_vars V := (fun s : state class => vars s = V).

Lemma hoare_tail {A} (m : M A) (P : state class -> Prop) Q E :
  hoare P (m ≫= mret) Q E -> hoare P m Q E.
Proof.
  intros H s Hs. specialize (H s Hs). rewrite run_bind in H.
  by destruct (m s) as [[a|e| |] s1].
Qed.

Lemma hoare_done {A} (a : A) V (Q : A -> state class -> Prop) E :
  (∀ s, vars s = V -> Q a s) -> hoare (at_vars V) (mret a : M A) Q E.
Proof. apply hoare_ret. Qed.

Lemma hoare_read_k {B} x V (f : cloned_ptr class -> M B) Q E :
  (∀ h, V !! x = Some h -> hoare (at_vars V) (f h) Q E) ->
  hoare (at_vars V) (read x ≫= f) Q E.
Proof.
  intros H s Hs. rewrite run_bind. unfold read. rewrite Hs.
  destruct (V !! x) as [h|] eqn:Hx; [|done]. by apply H.
Qed.

Lemma hoare_write_k {B} x h V (f : unit -> M B) Q E :
  hoare (at_vars (<[x := h]> V)) (f ()) Q E ->
  hoare (at_vars V) (write x h ≫= f) Q E.
Proof.
  intros H s Hs. rewrite run_bind. unfold write. apply H. simpl. by rewrite Hs.
Qed.

Lemma hoare_forget_k {B} x V (f : unit -> M B) Q E :
  hoare (at_vars (delete x V)) (f ()) Q E ->
  hoare (at_vars V) (forget x ≫= f) Q E.
Proof.
  intros H s Hs. rewrite run_bind. unfold forget. apply H. simpl. by rewrite Hs.
Qed.

Lemma hoare_frames_k {A B} (m : M A) φ (ε : Prop) V (f : A -> M B) Q
    (E : state class -> Prop) :
  frames m φ ε ->
  (ε -> ∀ s, vars s = V -> E s) ->
  (∀ a, φ a -> hoare (at_vars V) (f a) Q E) ->
  hoare (at_vars V) (m ≫= f) Q E.
Proof.
  intros Hm He Hf s Hs. destruct (Hm s) as [Hv Hr]. rewrite run_bind.
  destruct (m s) as [[a|e| |] s1]; simpl in *; try done.
  - apply Hf; [done|congruence].
  - apply He; [done|congruence].
Qed.

Lemma hoare_set_ptr_k {B} x a V (f : unit -> M B) Q E :
  (∀ h, V !! x = Some h ->
     hoare (at_vars (<[x := {| ptr_ := a; cb_ := cb_ h |}]> V)) (f ()) Q E) ->
  hoare (at_vars V) (set_ptr_ x a ≫= f) Q E.
Proof.
  intros H s Hs. rewrite run_bind. unfold set_ptr_. rewrite run_bind.
  unfold read. rewrite Hs. destruct (V !! x) as [h|] eqn:Hx; [|done].
  unfold write. apply (H h eq_refl). simpl. by rewrite Hs.
Qed.

Lemma hoare_set_cb_k {B} x u V (f : unit -> M B) Q E :
  (∀ h, V !! x = Some h ->
     hoare (at_vars (<[x := {| ptr_ := ptr_ h; cb_ := u |}]> V)) (f ()) Q E) ->
  hoare (at_vars V) (set_cb_ x u ≫= f) Q E.
Proof.
  intros H s Hs. rewrite run_bind. unfold set_cb_. rewrite run_bind.
  unfold read. rewrite Hs. destruct (V !! x) as [h|] eqn:Hx; [|done].
  unfold write. apply (H h eq_refl). simpl. by rewrite Hs.
Qed.

Lemma hoare_assign_cb_k {B} x u V (f : unit -> M B) Q E :
  (∀ h, V !! x = Some h ->
     hoare (at_vars (<[x := {| ptr_ := ptr_ h; cb_ := u |}]> V)) (f ()) Q E) ->
  hoare (at_vars V) (assign_cb_ x u ≫= f) Q E.
Proof.
  intros H. unfold assign_cb_.
  intros s Hs. rewrite !run_bind. unfold read. rewrite Hs.
  destruct (V !! x) as [h|] eqn:Hx; [|done].
  unfold set_cb_. rewrite !run_bind. unfold read. simpl. rewrite Hs, Hx.
  unfold write.
  match goal with |- context [reset_unique ?u ?s1] =>
    destruct (frames_reset_unique u s1) as [Hv Hr];
    destruct (reset_unique u s1) as [[[]|e| |] s2]
  end; simpl in *; try done.
  apply (H h eq_refl). by rewrite Hv, Hs.
Qed.

Lemma hoare_assoc {A B C} (m : M A) (f : A -> M B) (g : B -> M C)
    (P : state class -> Prop) Q E :
  hoare P (m ≫= (fun a => f a ≫= g)) Q E -> hoare P ((m ≫= f) ≫= g) Q E.
Proof.
  intros H s Hs. specialize (H s Hs). rewrite !run_bind in *.
  by destruct (m s) as [[a|e| |] s1].
Qed.

Lemma hoare_ret_k {A B} (a : A) (f : A -> M B) (P : state class -> Prop) Q E :
  hoare P (f a) Q E -> hoare P (mret a ≫= f) Q E.
Proof. intros H s Hs. by apply H. Qed.

Lemma hoare_undefined_k {A B} (f : A -> M B) (P : state class -> Prop) Q E :
  hoare P (undefined ≫= f) Q E.
Proof. by intros s Hs. Qed.


Create HintDb frames.

#[local] Hint Resolve frames_may_fail frames_make_unique frames_new
  frames_new_copy frames_clone frames_cloned_ptr_default
  frames_cloned_ptr_from frames_make_cloned_ptr frames_cloned_ptr_copy
  frames_cloned_ptr_convert_copy frames_static_pointer_cast
  frames_const_pointer_cast frames_dynamic_pointer_cast : frames.

#[local] Hint Resolve handle_ok_empty handle_ok_null handle_ok_intro
  handle_ok_delegating handle_ok_downcasting handle_ok_const_casting
  : frames.

Lemma handle_ok_fields h :
  handle_ok h -> handle_ok {| ptr_ := ptr_ h; cb_ := cb_ h |}.
Proof. by rewrite handle_eta. Qed.

#[local] Hint Resolve handle_ok_fields : frames.

Lemma frames_owning_make_unique (u : option (control_block class)) b :
  frames (owning u (make_unique b)) (fun c => c = b) True.
Proof. apply frames_owning, frames_make_unique. Qed.

#[local] Hint Resolve frames_owning_make_unique : frames.

(** One step of symbolic execution. *)
Ltac exec :=
  lazymatch goal with
  | |- hoare _ ((_ ≫= _) ≫= _) _ _ => apply hoare_assoc
  | |- hoare _ (mret _ ≫= _) _ _ => apply hoare_ret_k
  | |- hoare _ (undefined ≫= _) _ _ => apply hoare_undefined_k
  | |- hoare _ (read _ ≫= _) _ _ => apply hoare_read_k; intros ? ?
  | |- hoare _ (write _ _ ≫= _) _ _ => apply hoare_write_k
  | |- hoare _ (forget _ ≫= _) _ _ => apply hoare_forget_k
  | |- hoare _ (set_ptr_ _ _ ≫= _) _ _ => apply hoare_set_ptr_k; intros ? ?
  | |- hoare _ (set_cb_ _ _ ≫= _) _ _ => apply hoare_set_cb_k; intros ? ?
  | |- hoare _ (assign_cb_ _ _ ≫= _) _ _ =>
      apply hoare_assign_cb_k; intros ? ?
  | |- hoare _ (mret _) _ _ =>
      let Hv := fresh in
      apply hoare_done; intros ? Hv; unfold store_ok; cbv beta;
      rewrite Hv; clear Hv
  | |- hoare _ undefined _ _ => apply hoare_undefined
  | |- hoare _ (_ ≫= _) _ _ =>
      eapply hoare_frames_k;
      [solve [eauto with frames]
      |let Hv := fresh in
       intros _ ? Hv; unfold store_ok; cbv beta; rewrite Hv; clear Hv
      |let a := fresh "a" in
       let Ha := fresh "Ha" in
       intros a Ha; cbv beta in Ha; try subst a]
  | |- hoare _ _ _ _ => apply hoare_tail
  end.



Lemma reset_unique_frames_unit (u : option (control_block class)) :
  frames (reset_unique u) (fun _ => True) True.
Proof. eapply frames_weaken; [apply frames_reset_unique|done|done]. Qed.

#[local] Hint Resolve reset_unique_frames_unit : frames.


(** ** The invariant of handles *)

Lemma store_ok_no_handles s : vars s = ∅ -> store_ok s.
Proof. intros E. unfold store_ok. rewrite E. apply map_Forall_empty. Qed.


(** ** Strong exception safety of copy assignment *)

(** When copy assignment throws, every handle is as it was: the clone is
    made before the receiver is touched. *)
Lemma copy_assign_throw_keeps_handles (this p : var) s e s' :
  copy_assign is_base_of this p s = (Throw e, s') -> vars s' = vars s.
Proof.
  intros Hrun.
  assert (hoare (at_vars (vars s)) (copy_assign is_base_of this p)
            (fun _ _ => True) (at_vars (vars s))) as H.
  { unfold copy_assign.
    case_decide; [by apply hoare_done|].
    exec. destruct (operator_bool h); simpl; [|by repeat exec].
    destruct (cb_ h) as [b|]; [|exec].
    exec; [done|].
    destruct (ptr a) eqn:?; [|exec]. by repeat exec. }
  specialize (H s eq_refl). by rewrite Hrun in H.
Qed.

(** ** Assignment to oneself and reset to the owned address *)

(** C9.  Copy-assigning a handle to itself, move-assigning it to itself,
    and resetting it with the address it already observes all return at
    their guard: the whole state (so the owned address, the object's value
    and the number of live objects) is as before. *)
Theorem self_assignment_is_noop (this : var) h U s :
  vars s !! this = Some h ->
  copy_assign is_base_of this this s = (Ok (), s) ∧
  move_assign this this s = (Ok (), s) ∧
  reset this U (ptr_ h) s = (Ok (), s) ∧
  reset_derived this U (ptr_ h) s = (Ok (), s).
Proof.
  intros Hthis. repeat split.
  - unfold copy_assign. by rewrite decide_True.
  - unfold move_assign. by rewrite decide_True.
  - unfold reset, read. rewrite run_bind, Hthis. by rewrite decide_True.
  - unfold reset_derived, read. rewrite run_bind, Hthis. by rewrite decide_True.
Qed.

(** ** Checked downcast to an incompatible class *)



(** ** Access through an empty handle *)

(** C10, as the code has it.  On an empty [cloned_ptr], [operator*] fails
    its assertion (and, with [NDEBUG], dereferences the null pointer, which
    is undefined), whereas [operator->] carries no check and returns the
    null pointer.  On an empty [polymorphic_value], [operator*] and both
    overloads of [operator->] fail their assertion; with [NDEBUG] the
    arrows return the null pointer and [operator*] is undefined. *)
Theorem empty_handle_access (NDEBUG : bool) h
    (v : isocpp_p0201.polymorphic_value class) s :
  ptr_ h = nullptr ->
  isocpp_p0201.cb_ v = None ->
  isocpp_p0201.ptr_ v = nullptr ->
  operator_star NDEBUG h s
    = (if NDEBUG then Undefined else AssertionFailed, s) ∧
  operator_arrow h s = (Ok nullptr, s) ∧
  isocpp_p0201.operator_star NDEBUG v s
    = (if NDEBUG then Undefined else AssertionFailed, s) ∧
  isocpp_p0201.operator_arrow NDEBUG v s
    = (if NDEBUG then Ok nullptr else AssertionFailed, s) ∧
  isocpp_p0201.operator_arrow_const NDEBUG v s
    = (if NDEBUG then Ok nullptr else AssertionFailed, s).
Proof.
  intros Hh Hcb Hptr.
  unfold operator_star, operator_arrow, get, assert_,
    isocpp_p0201.operator_star, isocpp_p0201.operator_arrow,
    isocpp_p0201.operator_arrow_const, isocpp_p0201.assert_,
    isocpp_p0201.operator_bool.
  rewrite Hh, Hcb, Hptr.
  destruct NDEBUG; repeat split; reflexivity.
Qed.

End Properties.

(** * Properties of [polymorphic_value.h] *)

Module pv := isocpp_p0201.

Section Construction.

Context {class : Type} `{EqDecision class}.
Variable is_polymorphic : class -> bool.

Implicit Types (s : state class) (o : object class).

Lemma typeid_differs_live (U : class) u o s :
  u ≠ nullptr -> heap s !! u = Some (Obj o) ->
  pv.typeid_differs is_polymorphic U u s
  = (Ok (is_polymorphic U && negb (bool_decide (dyn o = U))), s).
Proof.
  intros Hu Hobj. unfold pv.typeid_differs.
  destruct (is_polymorphic U); [|done].
  by rewrite run_bind, deref_live with (o := o).
Qed.

Lemma returns_allocate_block s :
  quiet s ->
  returns (pv.allocate_object pv.construct_block) s
    (fresh_address (heap s))
    (<[fresh_address (heap s) := Block]> (heap s)) (vars s).
Proof.
  intros Q.
  destruct (returns_may_fail bad_alloc s Q) as (s1 & E & H1 & V1 & Q1).
  exists (set_heap (<[fresh_address (heap s) := Block]> (heap s)) s1).
  split; [|by repeat split].
  unfold pv.allocate_object, allocate, try_catch_rethrow, pv.construct_block.
  rewrite !run_bind, E. simpl. rewrite H1.
  unfold set_heap. simpl. by rewrite insert_insert_eq.
Qed.


(** [pv.allocate_object] gives the storage back when the constructor throws:
    if the constructor leaves the free store as it found it, the free store
    after the failed call is the one before the call. *)
Lemma allocate_object_rolls_back (construct_at : addr -> M class unit)
    s mem s1 e s2 :
  allocate s = (Ok mem, s1) ->
  construct_at mem s1 = (Throw e, s2) ->
  heap s2 = heap s1 ->
  ∃ s3, pv.allocate_object construct_at s = (Throw e, s3) ∧ heap s3 = heap s.
Proof.
  intros Ha Hc Hh. unfold pv.allocate_object.
  rewrite run_bind, Ha. unfold try_catch_rethrow.
  rewrite run_bind, Hc. unfold bind, deallocate. rewrite run_bind. simpl.
  eexists. split; [reflexivity|]. simpl. rewrite Hh.
  unfold allocate in Ha. rewrite run_bind in Ha.
  destruct (may_fail bad_alloc s) as [[[]|?| |] s0] eqn:E; try done.
  rewrite !run_bind in Ha. simpl in Ha. injection Ha as <- <-. simpl.
  rewrite delete_insert_id by apply fresh_address_unused.
  destruct (may_fail_run bad_alloc s) as (r & s' & E' & Hheap & _).
  congruence.
Qed.

End Construction.

(** * The scenarios of the test file *)

Section Scenarios.

Import TestTypes.

Lemma one_owner_reached : one_owner_program initial = (Ok (), one_owner).
Proof. vm_compute. reflexivity. Qed.

Lemma two_owners_reached : two_owners_program initial = (Ok (), two_owners).
Proof. vm_compute. reflexivity. Qed.

Lemma sliced_owner_reached :
  sliced_owner_program initial = (Ok (), sliced_owner).
Proof. vm_compute. reflexivity. Qed.

Lemma one_owner_ok : store_ok one_owner.
Proof.
  unfold store_ok, one_owner. simpl.
  repeat apply map_Forall_insert_2; try apply map_Forall_empty;
    try apply handle_ok_empty.
  by apply handle_ok_intro.
Qed.

(** ** Comparisons *)

(** C5 on the handles of the test file's comparison case.  The two handles
    own distinct objects, yet [==] holds and [!=] and [<] do not, because
    the operands are compared as booleans; the comparisons of the raw
    observers give the opposite answers.  So do [>=] and, with the operands
    exchanged, [>] and [<=]. *)
Theorem comparisons_compare_booleans :
  vars two_owners !! "dptr1" = Some dptr1
  ∧ vars two_owners !! "dptr2" = Some dptr2
  ∧ builtin_eq dptr1 dptr2 = true
  ∧ N.eqb (get dptr1) (get dptr2) = false
  ∧ builtin_ne dptr1 dptr2 = false
  ∧ negb (N.eqb (get dptr1) (get dptr2)) = true
  ∧ builtin_lt dptr1 dptr2 = false
  ∧ N.ltb (get dptr1) (get dptr2) = true
  ∧ builtin_ge dptr1 dptr2 = true
  ∧ N.leb (get dptr2) (get dptr1) = false
  ∧ builtin_gt dptr2 dptr1 = false
  ∧ N.ltb (get dptr1) (get dptr2) = true
  ∧ builtin_le dptr2 dptr1 = true
  ∧ N.leb (get dptr2) (get dptr1) = false.
Proof. repeat split. Qed.


(** ** Failure of the allocation of a control block *)

(** C8 at its failing input.  Handle [a] owns the only object and nothing
    is leaked.  The copy of the object is allocated and constructed, then
    the allocation of the control block for it fails.  Copy construction
    and copy assignment both throw [bad_alloc] and leave every handle as it
    was, but the copy stays in the free store at address 2 and no handle
    owns it. *)
Theorem block_allocation_failure_leaks_the_copy :
  leaked block_allocation_fails = ∅
  ∧ copy_construct is_base_of "c" "a" block_allocation_fails
    = (Throw bad_alloc, after_failed_copy)
  ∧ copy_assign is_base_of "b" "a" block_allocation_fails
    = (Throw bad_alloc, after_failed_copy)
  ∧ vars after_failed_copy = vars block_allocation_fails
  ∧ heap block_allocation_fails !! 2%N = None
  ∧ heap after_failed_copy !! 2%N = Some (Obj (derived 7))
  ∧ leaked after_failed_copy = {[ 2%N ]}.
Proof. repeat split; by vm_compute. Qed.

(** The same schedule in [polymorphic_value.h]: [clone()] of an
    [allocated_pointer_control_block] catches the failure, destroys and
    deallocates the copy, and rethrows; the free store is as before. *)
Lemma allocated_clone_rolls_back :
  pv.allocate_polymorphic_value DerivedType [(DerivedType, 7%Z)] initial
    = (Ok {| pv.ptr_ := 1%N; pv.cb_ := Some allocated_block |},
       set_oracle [] allocated_owner)
  ∧ ∃ s',
      pv.clone is_base_of false allocated_block allocated_owner
        = (Throw bad_alloc, s')
      ∧ heap s' = heap allocated_owner.
Proof.
  split; [vm_compute; reflexivity|].
  eexists. split; vm_compute; reflexivity.
Qed.

(** ** Inputs on which the specification's wording fails *)






(** Against C10.  [operator->] on a default-constructed handle returns
    the null pointer. *)
Lemma arrow_on_empty_handle_returns_null :
  ptr_ (empty_handle (class := class)) = nullptr
  ∧ operator_arrow empty_handle initial = (Ok nullptr, initial).
Proof. split; reflexivity. Qed.

(** ** Cases of [TestCloningPtr.cpp] *)

(** "A cloning_ptr copied from a pointer-constructed cloning_ptr": two
    objects, distinct observers, same value. *)
Example test_copy_constructor :
  run is_base_of (Copy "c" "a") one_owner = (Ok (), one_owner_copied)
  ∧ get copied ≠ get seven
  ∧ size (heap one_owner_copied) = 2
  ∧ heap one_owner_copied !! get copied = heap one_owner_copied !! get seven.
Proof. repeat split; try (vm_compute; reflexivity). discriminate. Qed.

(** "A non-empty cloning_ptr ... release is called": the object survives
    the handle. *)
Example test_release :
  cloned_ptr_release "a" one_owner = (Ok 1%N, one_owner_released)
  ∧ size (heap one_owner_released) = 1
  ∧ (_ ← cloned_ptr_release "a"; destructor "a") one_owner
    = (Ok (), set_vars (delete "a" (vars one_owner)) one_owner)
  ∧ destructor "a" one_owner
    = (Ok (),
       {| heap := ∅; oracle := []; vars := delete "a" (vars one_owner) |}).
Proof. repeat split; vm_compute; reflexivity. Qed.

(** "dynamic_pointer_cast to the wrong derived type is called": null
    result, object count unchanged; to the derived type: a distinct
    duplicate. *)
Example test_dynamic_pointer_cast :
  dynamic_pointer_cast is_base_of AlternativeDerivedType seven one_owner
    = (Ok empty_handle, one_owner)
  ∧ dynamic_pointer_cast is_base_of DerivedType seven one_owner
    = (Ok {| ptr_ := 2%N;
             cb_ := Some (dynamic_casting_delegating_control_block
                            DerivedType
                            (Some (control_block_impl DerivedType 2%N))
                            2%N) |},
       set_heap (heap one_owner_copied) one_owner).
Proof. repeat split; vm_compute; reflexivity. Qed.

(** "A pointer-constructed cloning_ptr move-assigned to a
    pointer-constructed cloning_ptr": one object left, the source null. *)
Example test_move_assignment :
  move_assign "dptr1" "dptr2" two_owners = (Ok (), two_owners_moved)
  ∧ vars two_owners_moved !! "dptr2" = Some empty_handle
  ∧ vars two_owners_moved !! "dptr1" = Some dptr2.
Proof. repeat split; vm_compute; reflexivity. Qed.

(** ** Instances of the general theorems on the scenarios *)



Lemma release_transfers_ownership_witness :
  vars one_owner !! "a" = Some seven
  ∧ handle_ok seven
  ∧ ptr_ seven ≠ nullptr
  ∧ ∃ b',
      cloned_ptr_release "a" one_owner
      = (Ok (ptr_ seven),
         set_vars (<["a" := {| ptr_ := nullptr; cb_ := Some b' |}]>
                     (vars one_owner)) one_owner).
Proof.
  assert (handle_ok seven) as Hok.
  { intros _. exists (control_block_impl DerivedType 1%N). repeat split. }
  assert (ptr_ seven ≠ nullptr) as Hnn by discriminate.
  destruct (proj2 (release_transfers_ownership "a" seven one_owner eq_refl)
              Hnn Hok)
    as (b' & E' & _).
  split; [reflexivity|]. split; [exact Hok|]. split; [exact Hnn|].
  exists b'. exact E'.
Defined.




Lemma self_assignment_is_noop_witness :
  vars one_owner !! "a" = Some seven
  ∧ copy_assign is_base_of "a" "a" one_owner = (Ok (), one_owner)
  ∧ move_assign "a" "a" one_owner = (Ok (), one_owner)
  ∧ reset "a" DerivedType (ptr_ seven) one_owner = (Ok (), one_owner)
  ∧ reset_derived "a" DerivedType (ptr_ seven) one_owner
    = (Ok (), one_owner).
Proof.
  split; [reflexivity|].
  apply (self_assignment_is_noop is_base_of "a" seven DerivedType one_owner).
  reflexivity.
Defined.

Lemma empty_handle_access_witness :
  ptr_ (empty_handle (class := class)) = nullptr
  ∧ pv.cb_ (pv.empty_value (class := class)) = None
  ∧ pv.ptr_ (pv.empty_value (class := class)) = nullptr
  ∧ operator_star false empty_handle initial = (AssertionFailed, initial)
  ∧ operator_arrow empty_handle initial = (Ok nullptr, initial)
  ∧ pv.operator_star false pv.empty_value initial
    = (AssertionFailed, initial).
Proof.
  destruct (empty_handle_access false empty_handle pv.empty_value initial
              eq_refl eq_refl eq_refl)
    as (E1 & E2 & E3 & _).
  split; [reflexivity|]. split; [reflexivity|]. split; [reflexivity|].
  split; [exact E1|]. split; [exact E2|exact E3].
Defined.

End Scenarios.

(** * Lifetimes of the objects that handles own *)

Section Lifetime.

Context {class : Type}.
Variable is_base_of : class -> class -> bool.

Implicit Types (s : state class) (h : cloned_ptr class).
Implicit Types (b c : control_block class) (o : object class).

#[local] Abbreviation M := (M class).

(** ** Every outcome of the primitives *)

Lemma may_fail_inv e s r s' :
  may_fail e s = (r, s') ->
  heap s' = heap s ∧ vars s' = vars s ∧ (r = Ok () ∨ r = Throw e).
Proof.
  unfold may_fail. destruct (oracle s) as [|[] orc];
    intros [= <- <-]; auto.
Qed.

Lemma may_fail_head e s orc :
  oracle s = false :: orc -> may_fail e s = (Throw e, set_oracle orc s).
Proof. intros E. unfold may_fail. by rewrite E. Qed.

Lemma deref_inv p s r s' :
  deref p s = (r, s') ->
  s' = s
  ∧ match r with
    | Ok o => p ≠ nullptr ∧ heap s !! p = Some (Obj o)
    | Undefined => True
    | Throw _ | AssertionFailed => False
    end.
Proof.
  unfold deref. case_decide; [by intros [= <- <-]|].
  rewrite run_bind. simpl.
  destruct (heap s !! p) as [[]|] eqn:E; intros [= <- <-]; auto.
Qed.

Lemma new_inv o s r s' :
  new_ o s = (r, s') ->
  vars s' = vars s
  ∧ match r with
    | Ok a => a = fresh_address (heap s) ∧ heap s' = <[a := Obj o]> (heap s)
    | Throw _ => heap s' = heap s
    | AssertionFailed | Undefined => False
    end.
Proof.
  unfold new_, allocate, construct, deallocate, try_catch_rethrow.
  destruct s as [hp orc v]. unfold may_fail, bind, mbind, M_bind, bind. simpl.
  destruct orc as [|[] [|[] orc]]; simpl; intros [= <- <-]; simpl;
    rewrite ?insert_insert_eq,
      ?(delete_insert_id _ _ _ (fresh_address_unused hp)); auto.
Qed.

Lemma make_unique_inv b s r s' :
  make_unique b s = (r, s') ->
  heap s' = heap s ∧ vars s' = vars s ∧ (r = Ok b ∨ r = Throw bad_alloc).
Proof.
  unfold make_unique. rewrite run_bind.
  destruct (may_fail bad_alloc s) as [r1 s1] eqn:E.
  destruct (may_fail_inv _ _ _ _ E) as (Hh & Hv & [-> | ->]);
    intros [= <- <-]; auto.
Qed.

Lemma without_fresh (hp : gmap addr (cell class)) a x :
  a ≠ nullptr -> hp !! a = None -> without a (<[a := x]> hp) = hp.
Proof.
  intros N E. unfold without. rewrite decide_False by done.
  by apply delete_insert_id.
Qed.

Lemma delete_inv a s r s' :
  delete_ a s = (r, s') ->
  vars s' = vars s
  ∧ match r with
    | Ok _ => deletable s a ∧ heap s' = without a (heap s)
    | Undefined => ¬ deletable s a
    | Throw _ | AssertionFailed => False
    end.
Proof.
  unfold delete_, without, deletable.
  case_decide; [intros [= <- <-]; auto|].
  rewrite run_bind. simpl.
  destruct (heap s !! a) as [[]|] eqn:E; intros [= <- <-]; simpl;
    (split; [done|]);
    first [by intros [?|[? ?]]; congruence | split; [right; eauto|done]].
Qed.

(** Code that runs while a local [unique_ptr] owns the chain [u]: when the
    allocation of the block around it fails, what [u] owns is deleted. *)
Lemma owning_make_unique_inv (u : option (control_block class)) b s r s' :
  deletable s (target_of u) ->
  owning u (make_unique b) s = (r, s') ->
  vars s' = vars s
  ∧ ((r = Ok b ∧ heap s' = heap s)
     ∨ (r = Throw bad_alloc ∧ heap s' = without (target_of u) (heap s))).
Proof.
  intros D. unfold owning, try_catch_rethrow.
  destruct (make_unique b s) as [r1 s1] eqn:E.
  destruct (make_unique_inv _ _ _ _ E) as (Hh & Hv & [-> | ->]).
  - intros [= <- <-]. auto.
  - unfold bind. rewrite reset_unique_target, delete_deletable.
    + intros [= <- <-]. simpl. rewrite Hh. auto.
    + destruct D as [D|[o D]]; [by left|right]. exists o. by rewrite Hh.
Qed.

Lemma dynamic_cast_inv (T : class) p s r s' :
  dynamic_cast is_base_of T p s = (r, s') ->
  s' = s
  ∧ match r with
    | Ok a =>
        (p = nullptr ∧ a = nullptr)
        ∨ (p ≠ nullptr
           ∧ ∃ o, heap s !! p = Some (Obj o)
                  ∧ a = if is_base_of T (dyn o) then p else nullptr)
    | Undefined => True
    | Throw _ | AssertionFailed => False
    end.
Proof.
  unfold dynamic_cast. case_decide; [intros [= <- <-]; auto|].
  rewrite run_bind. destruct (deref p s) as [r1 s1] eqn:E.
  destruct (deref_inv _ _ _ _ E) as [-> Hr].
  destruct r1 as [o| | |]; try done; intros [= <- <-]; (split; [done|]);
    try done.
  right. split; [done|]. exists o. by destruct Hr.
Qed.

(** Every outcome of [clone()] on a chain that holds a live object: it
    returns a coherent chain around the copy, at an address not in use
    before, or it throws; in neither case is an existing object touched. *)
Lemma clone_inv b U a o s r s' :
  owned b = Some (U, a) -> a ≠ nullptr ->
  heap s !! a = Some (Obj o) ->
  clone is_base_of b s = (r, s') ->
  let a' := fresh_address (heap s) in
  let grown := <[a' := Obj (copy_as is_base_of U o)]> (heap s) in
  vars s' = vars s
  ∧ match r with
    | Ok c =>
        coherent c ∧ owned c = Some (U, a') ∧ heap s' = grown
        ∧ adapters c = adapters b
    | Throw _ => heap s' = heap s ∨ heap s' = grown
    | AssertionFailed | Undefined => False
    end.
Proof.
  intros Hown Ha Hobj. revert r s'.
  assert (∀ c s1, owned c = Some (U, fresh_address (heap s)) ->
            heap s1 = <[fresh_address (heap s) :=
                          Obj (copy_as is_base_of U o)]> (heap s) ->
            deletable s1 (target_of (Some c))
            ∧ without (target_of (Some c)) (heap s1) = heap s) as Hroll.
  { intros c s1 Oc H1. simpl. unfold target. rewrite Oc. split.
    - right. eexists. rewrite H1. apply lookup_insert_eq.
    - rewrite H1. apply without_fresh;
        [apply fresh_address_not_null|apply fresh_address_unused]. }
  induction b as [U0 p|d IH|d IH|T d IH p|d IH]; simpl in *; intros r s'.
  - injection Hown as -> ->. unfold new_copy.
    rewrite run_bind, run_bind, deref_live with (o := o) by done.
    destruct (new_ (copy_as is_base_of U o) s) as [r1 s1] eqn:E1.
    destruct (new_inv _ _ _ _ E1) as [V1 Hr1].
    destruct r1 as [x| | |]; try done.
    + destruct Hr1 as [-> H1].
      destruct (make_unique (control_block_impl U (fresh_address (heap s))) s1)
        as [r2 s2] eqn:E2.
      destruct (make_unique_inv _ _ _ _ E2) as (H2 & V2 & [-> | ->]);
        intros [= <- <-]; (split; [congruence|]).
      * repeat split; congruence.
      * right. congruence.
    + intros [= <- <-]. split; [done|]. by left.
  - destruct IH as [b IH|]; [|done]. rewrite run_bind.
    destruct (clone is_base_of b s) as [r1 s1] eqn:E1.
    destruct (IH Hown _ _ eq_refl) as [V1 Hr1].
    destruct r1 as [c| | |]; try done; [|intros [= <- <-]; auto].
    destruct Hr1 as (C & Oc & H1 & Ad).
    destruct (Hroll c s1 Oc H1) as [D W]. intros E2.
    destruct (owning_make_unique_inv (Some c) _ _ _ _ D E2)
      as [V2 [[-> H2]|[-> H2]]]; (split; [congruence|]).
    + simpl. repeat split; (done || congruence).
    + left. rewrite H2. exact W.
  - destruct IH as [b IH|]; [|done]. rewrite run_bind.
    destruct (clone is_base_of b s) as [r1 s1] eqn:E1.
    destruct (IH Hown _ _ eq_refl) as [V1 Hr1].
    destruct r1 as [c| | |]; try done; [|intros [= <- <-]; auto].
    destruct Hr1 as (C & Oc & H1 & Ad).
    destruct (Hroll c s1 Oc H1) as [D W]. intros E2.
    destruct (owning_make_unique_inv (Some c) _ _ _ _ D E2)
      as [V2 [[-> H2]|[-> H2]]]; (split; [congruence|]).
    + simpl. repeat split; (done || congruence).
    + left. rewrite H2. exact W.
  - destruct IH as [b IH|]; [|done]. rewrite run_bind.
    destruct (clone is_base_of b s) as [r1 s1] eqn:E1.
    destruct (IH Hown _ _ eq_refl) as [V1 Hr1].
    destruct r1 as [c| | |]; try done; [|intros [= <- <-]; auto].
    destruct Hr1 as (C & Oc & H1 & Ad).
    destruct (Hroll c s1 Oc H1) as [D W].
    assert (target c = fresh_address (heap s)) as Ht
      by (unfold target; by rewrite Oc).
    unfold owning, try_catch_rethrow, make_unique_dynamic_casting.
    rewrite run_bind.
    destruct (may_fail bad_alloc s1) as [r2 s2] eqn:E2.
    destruct (may_fail_inv _ _ _ _ E2) as (H2 & V2 & [-> | ->]).
    + assert (heap s2 !! fresh_address (heap s)
              = Some (Obj (copy_as is_base_of U o))) as Hlive
        by (rewrite H2, H1; apply lookup_insert_eq).
      destruct (coherent_ptr c C) as [P|P]; rewrite P, run_bind.
      * rewrite Ht, dynamic_cast_live with (o := copy_as is_base_of U o);
          [|apply fresh_address_not_null|done].
        intros [= <- <-]. split; [congruence|]. simpl.
        repeat split; try (done || congruence).
        destruct (is_base_of T U); [by right|by left].
      * rewrite dynamic_cast_null. intros [= <- <-].
        split; [congruence|]. simpl.
        repeat split; try (done || congruence). by left.
    + unfold bind. rewrite reset_unique_target, delete_deletable.
      * intros [= <- <-]. simpl. split; [congruence|]. left.
        rewrite H2. exact W.
      * destruct D as [D|[o' D]]; [by left|right]. exists o'. by rewrite H2.
  - destruct IH as [b IH|]; [|done]. rewrite run_bind.
    destruct (clone is_base_of b s) as [r1 s1] eqn:E1.
    destruct (IH Hown _ _ eq_refl) as [V1 Hr1].
    destruct r1 as [c| | |]; try done; [|intros [= <- <-]; auto].
    destruct Hr1 as (C & Oc & H1 & Ad).
    destruct (Hroll c s1 Oc H1) as [D W]. intros E2.
    destruct (owning_make_unique_inv (Some c) _ _ _ _ D E2)
      as [V2 [[-> H2]|[-> H2]]]; (split; [congruence|]).
    + simpl. repeat split; (done || congruence).
    + left. rewrite H2. exact W.
Qed.

Lemma set_vars_id s : set_vars (vars s) s = s.
Proof. by destruct s. Qed.

Lemma deletable_same_heap s s' a :
  heap s' = heap s -> deletable s a -> deletable s' a.
Proof. unfold deletable. by intros ->. Qed.

(** ** [swap] *)

Lemma swap_spec (this p : var) ht hp s :
  vars s !! this = Some ht -> vars s !! p = Some hp ->
  swap this p s = (Ok (), set_vars (<[p := ht]> (<[this := hp]> (vars s))) s).
Proof.
  intros Ht Hp. unfold swap.
  rewrite run_bind, read_lookup with (h := ht) by done.
  rewrite run_bind, read_lookup with (h := hp) by done.
  rewrite run_bind, set_ptr_lookup with (h := ht) by done.
  destruct (decide (this = p)) as [->|N].
  - assert (ht = hp) as -> by congruence.
    erewrite run_bind, set_ptr_lookup; [|simpl; apply lookup_insert_eq].
    erewrite run_bind, set_cb_lookup; [|simpl; apply lookup_insert_eq].
    erewrite set_cb_lookup; [|simpl; apply lookup_insert_eq].
    unfold set_vars. simpl. rewrite !insert_insert_eq.
    by rewrite handle_eta.
  - erewrite run_bind, set_ptr_lookup;
      [|simpl; rewrite lookup_insert_ne by done; exact Hp].
    erewrite run_bind, set_cb_lookup;
      [|simpl; rewrite lookup_insert_ne by done; apply lookup_insert_eq].
    erewrite set_cb_lookup;
      [|simpl; rewrite lookup_insert_ne by done; apply lookup_insert_eq].
    unfold set_vars. simpl. do 2 f_equal.
    apply map_eq. intros k. rewrite !lookup_insert.
    repeat case_decide; simplify_eq; by rewrite ?handle_eta.
Qed.

(** [swap] exchanges what the two handles hold, observer and descriptor,
    and touches neither the free store nor any other handle; it cannot
    fail.  Swapping twice gives back the state one started from; swapping a
    handle with itself changes nothing. *)
Theorem swap_exchanges_handles (this p : var) ht hp s :
  vars s !! this = Some ht -> vars s !! p = Some hp ->
  swap this p s
  = (Ok (), set_vars (<[p := ht]> (<[this := hp]> (vars s))) s)
  ∧ (this ≠ p ->
     <[p := ht]> (<[this := hp]> (vars s)) !! this = Some hp)
  ∧ <[p := ht]> (<[this := hp]> (vars s)) !! p = Some ht
  ∧ (∀ x, x ≠ this -> x ≠ p ->
       <[p := ht]> (<[this := hp]> (vars s)) !! x = vars s !! x)
  ∧ (this = p -> swap this p s = (Ok (), s))
  ∧ (_ ← swap this p; swap this p) s = (Ok (), s).
Proof.
  intros Ht Hp.
  assert (<[p := hp]> (<[this := ht]> (<[p := ht]> (<[this := hp]> (vars s))))
          = vars s) as Hback.
  { apply map_eq. intros k. rewrite !lookup_insert.
    repeat case_decide; simplify_eq; done. }
  split; [by apply swap_spec|]. split; [|split; [|split; [|split]]].
  - intros N. rewrite lookup_insert_ne by done. apply lookup_insert_eq.
  - apply lookup_insert_eq.
  - intros x N1 N2. by rewrite !lookup_insert_ne.
  - intros ->. assert (ht = hp) as -> by congruence.
    rewrite swap_spec with (ht := hp) (hp := hp) by done.
    rewrite insert_insert_eq, insert_id by done. by rewrite set_vars_id.
  - rewrite run_bind, swap_spec with (ht := ht) (hp := hp) by done.
    destruct (decide (this = p)) as [->|N].
    + assert (ht = hp) as -> by congruence.
      erewrite swap_spec; [|simpl; apply lookup_insert_eq..].
      unfold set_vars. simpl. rewrite !insert_insert_eq.
      rewrite insert_id by done. by destruct s.
    + erewrite swap_spec;
        [|simpl; rewrite lookup_insert_ne by done; apply lookup_insert_eq
         |simpl; apply lookup_insert_eq].
      unfold set_vars. simpl. rewrite Hback. by destruct s.
Qed.

(** ** [reset] *)

(** [reset(u)] with a pointer [u] other than the one the handle holds.
    The handle first adopts [u] in a local handle, then takes it over and
    deletes the object it owned.  Resetting to null never fails and leaves
    the handle empty.  Resetting to an object returns, when no failure is
    scheduled, with the handle observing [u] through a fresh
    [control_block_impl] bound to the static class [U].  When the
    allocation of that block fails, [bad_alloc] propagates and nothing has
    changed: the handle keeps its object, and [u] has not been deleted. *)
Theorem reset_replaces_owned_object (this : var) (U : class) u h s :
  vars s !! this = Some h ->
  u ≠ ptr_ h ->
  deletable s (target_of (cb_ h)) ->
  let rest := without (target_of (cb_ h)) (heap s) in
  (u = nullptr ->
   reset this U u s
   = (Ok (),
      {| heap := rest; oracle := oracle s;
         vars := <[this := empty_handle]> (vars s) |}))
  ∧ (u ≠ nullptr -> quiet s ->
     returns (reset this U u) s () rest
       (<[this := {| ptr_ := u; cb_ := Some (control_block_impl U u) |}]>
          (vars s)))
  ∧ (u ≠ nullptr -> ∀ orc, oracle s = false :: orc ->
     reset this U u s = (Throw bad_alloc, set_oracle orc s))
  ∧ (∀ a, a ≠ target_of (cb_ h) -> rest !! a = heap s !! a).
Proof.
  intros Hthis Hne Hdel rest. split; [|split; [|split]].
  - intros ->. unfold reset.
    rewrite run_bind, read_lookup with (h := h) by done.
    rewrite decide_False by done. unfold cloned_ptr_from.
    rewrite decide_True by done.
    rewrite run_bind, run_ret. simpl.
    rewrite run_bind, assign_cb_lookup with (h := h) by done.
    erewrite set_ptr_lookup; [|simpl; apply lookup_insert_eq].
    unfold set_vars. simpl. by rewrite insert_insert_eq.
  - intros Hu Q. unfold reset.
    destruct (returns_make_unique (control_block_impl U u) s Q)
      as (s1 & E1 & H1 & V1 & Q1).
    eexists. split.
    + rewrite run_bind, read_lookup with (h := h) by done.
      rewrite decide_False by done. unfold cloned_ptr_from.
      rewrite decide_False by done.
      rewrite run_bind, run_bind, E1, run_ret. simpl.
      rewrite run_bind, assign_cb_lookup with (h := h);
        [|by rewrite V1|by apply (deletable_same_heap s)].
      erewrite set_ptr_lookup; [|simpl; apply lookup_insert_eq].
      reflexivity.
    + simpl. rewrite insert_insert_eq, H1, V1. done.
  - intros Hu orc Horc. unfold reset.
    rewrite run_bind, read_lookup with (h := h) by done.
    rewrite decide_False by done. unfold cloned_ptr_from, make_unique.
    rewrite decide_False by done.
    by rewrite !run_bind, may_fail_head with (orc := orc).
  - intros a Ha. unfold rest, without. case_decide; [done|].
    by rewrite lookup_delete_ne.
Qed.

(** ** Converting moves *)

(** The converting move constructor and the converting move assignment take
    the descriptor of [p] behind a [delegating_control_block], which is
    allocated before [p] is touched.  When no failure is scheduled the
    destination observes what [p] observed and owns what [p] owned, [p] is
    empty, and no object is created; assignment also deletes what the
    destination owned.  When the allocation fails, [bad_alloc] propagates
    and every handle and object is as before. *)
Theorem converting_move_wraps_descriptor (this p : var) hp s :
  vars s !! p = Some hp ->
  let moved :=
    {| ptr_ := ptr_ hp; cb_ := Some (delegating_control_block (cb_ hp)) |} in
  target_of (cb_ moved) = target_of (cb_ hp)
  ∧ (handle_ok hp -> handle_ok moved)
  ∧ (quiet s ->
     returns (convert_move_construct this p) s () (heap s)
       (<[this := moved]> (<[p := empty_handle]> (vars s))))
  ∧ (∀ ht, this ≠ p -> vars s !! this = Some ht ->
       deletable s (target_of (cb_ ht)) -> quiet s ->
       returns (convert_move_assign this p) s ()
         (without (target_of (cb_ ht)) (heap s))
         (<[p := empty_handle]> (<[this := moved]> (vars s))))
  ∧ (∀ orc, oracle s = false :: orc ->
       convert_move_construct this p s = (Throw bad_alloc, set_oracle orc s)
       ∧ convert_move_assign this p s = (Throw bad_alloc, set_oracle orc s)).
Proof.
  intros Hp moved.
  split; [unfold moved, target; simpl; by destruct (cb_ hp)|].
  split; [apply handle_ok_delegating|].
  split; [|split].
  - intros Q.
    destruct (returns_make_unique (delegating_control_block (cb_ hp)) s Q)
      as (s1 & E1 & H1 & V1 & Q1).
    eexists. split.
    + unfold convert_move_construct.
      rewrite run_bind, read_lookup with (h := hp) by done.
      rewrite run_bind, E1.
      rewrite run_bind, set_cb_lookup with (h := hp) by (by rewrite V1).
      erewrite run_bind, set_ptr_lookup; [|simpl; apply lookup_insert_eq].
      reflexivity.
    + simpl. rewrite insert_insert_eq, H1, V1. done.
  - intros ht Hne Hthis Hdel Q.
    destruct (returns_make_unique (delegating_control_block (cb_ hp)) s Q)
      as (s1 & E1 & H1 & V1 & Q1).
    eexists. split.
    + unfold convert_move_assign.
      rewrite run_bind, read_lookup with (h := hp) by done.
      rewrite run_bind, E1.
      rewrite run_bind, set_cb_lookup with (h := hp) by (by rewrite V1).
      erewrite run_bind, assign_cb_lookup with (h := ht);
        [|simpl; rewrite lookup_insert_ne by done; by rewrite V1
         |by apply (deletable_same_heap s)].
      erewrite run_bind, set_ptr_lookup; [|simpl; apply lookup_insert_eq].
      erewrite set_ptr_lookup;
        [|simpl; rewrite lookup_insert_ne by done;
          rewrite lookup_insert_ne by done; apply lookup_insert_eq].
      reflexivity.
    + simpl. rewrite H1, V1. repeat split; try done.
      apply map_eq. intros k. rewrite !lookup_insert.
      repeat case_decide; simplify_eq; done.
  - intros orc Horc. unfold convert_move_construct, convert_move_assign.
    rewrite !run_bind, read_lookup with (h := hp) by done.
    unfold make_unique.
    by rewrite !run_bind, may_fail_head with (orc := orc).
Qed.

(** ** A copy lives and dies on its own *)

Lemma handle_ok_bound h :
  handle_ok h -> ptr_ h ≠ nullptr ->
  ∃ U, bound_class h = Some U.
Proof.
  intros Hok Hnn. destruct (Hok Hnn) as (b & Hb & C & P).
  destruct (coherent_owned b C) as [U O].
  exists U. unfold bound_class. by rewrite Hb, O.
Qed.

Lemma destructor_spec (this : var) h s :
  vars s !! this = Some h ->
  deletable s (target_of (cb_ h)) ->
  destructor this s
  = (Ok (),
     {| heap := without (target_of (cb_ h)) (heap s);
        oracle := oracle s;
        vars := delete this (vars s) |}).
Proof.
  intros Hthis Hdel. unfold destructor.
  rewrite run_bind, read_lookup with (h := h) by done.
  by rewrite run_bind, reset_unique_target, delete_deletable.
Qed.

(** Copy-constructing a handle [c] from [p] and then destroying [c] gives
    back the free store and the handles one started from: the copy owns an
    object of its own (one more object is alive in between, and the one
    [p] observes is untouched), and its destructor deletes that object and
    nothing else. *)
Theorem copy_then_destroy_restores_state (c p : var) hp s :
  quiet s ->
  vars s !! p = Some hp -> vars s !! c = None ->
  handle_ok hp ->
  (ptr_ hp ≠ nullptr -> ∃ o, heap s !! ptr_ hp = Some (Obj o)) ->
  ∃ h' s1,
    copy_construct is_base_of c p s = (Ok (), s1)
    ∧ vars s1 = <[c := h']> (vars s)
    ∧ (ptr_ hp ≠ nullptr ->
       size (heap s1) = S (size (heap s))
       ∧ heap s1 !! ptr_ hp = heap s !! ptr_ hp
       ∧ target_of (cb_ h') ≠ ptr_ hp)
    ∧ (ptr_ hp = nullptr -> heap s1 = heap s ∧ h' = empty_handle)
    ∧ returns (destructor c) s1 () (heap s) (vars s).
Proof.
  intros Q Hp Hc Hok Hlive.
  destruct (decide (ptr_ hp = nullptr)) as [Hn|Hn].
  - exists empty_handle, (set_vars (<[c := empty_handle]> (vars s)) s).
    split; [|split; [done|split; [done|split; [done|]]]].
    + unfold copy_construct, declare.
      rewrite run_bind, read_lookup with (h := hp) by done.
      by rewrite run_bind, cloned_ptr_copy_empty.
    + eexists. split.
      * apply destructor_spec with (h := empty_handle);
          [simpl; apply lookup_insert_eq|by left].
      * simpl. by rewrite delete_insert_id.
  - destruct (Hlive Hn) as [o Hobj].
    destruct (handle_ok_bound hp Hok Hn) as [U HU].
    destruct (returns_cloned_ptr_copy is_base_of hp U o s Q Hok Hn HU Hobj)
      as (c' & a' & (s0 & E & H0 & V0 & Q0) & C & P & O & Ha').
    assert (target c' = fresh_address (heap s)) as Ht
      by (unfold target; by rewrite O).
    exists {| ptr_ := a'; cb_ := Some c' |},
      (set_vars (<[c := {| ptr_ := a'; cb_ := Some c' |}]> (vars s0)) s0).
    split; [|split; [|split; [|split]]].
    + unfold copy_construct, declare.
      rewrite run_bind, read_lookup with (h := hp) by done.
      by rewrite run_bind, E.
    + simpl. by rewrite V0.
    + intros _. simpl. rewrite H0. split; [|split].
      * apply map_size_insert_None, fresh_address_unused.
      * apply lookup_insert_ne. intros Heq.
        rewrite <- Heq, fresh_address_unused in Hobj. done.
      * rewrite Ht. intros Heq.
        rewrite <- Heq, fresh_address_unused in Hobj. done.
    + done.
    + eexists. split.
      * apply destructor_spec with (h := {| ptr_ := a'; cb_ := Some c' |});
          [simpl; apply lookup_insert_eq|].
        right. simpl. rewrite Ht, H0. eexists. apply lookup_insert_eq.
      * simpl. rewrite Ht, H0, V0. repeat split; try done.
        -- apply without_fresh;
             [apply fresh_address_not_null|apply fresh_address_unused].
        -- by rewrite delete_insert_id.
Qed.

(** ** [make_cloned_ptr] *)

(** [make_cloned_ptr<T>(ts...)] creates the object at an address not in use
    and adopts it with its own class as the bound class, so that copies of
    the handle are never sliced; [operator*] gives the object back, and
    destroying the descriptor restores the free store.  Whatever failures
    are scheduled, the call returns that handle or throws; when it throws
    the free store is unchanged, except when the failure is the allocation
    of the control block, which leaves the new object alive. *)
Theorem make_cloned_ptr_owns_its_object (NDEBUG : bool) (T : class) ms s :
  let a := fresh_address (heap s) in
  let o := {| dyn := T; members := ms |} in
  let h := {| ptr_ := a; cb_ := Some (control_block_impl T a) |} in
  let grown := <[a := Obj o]> (heap s) in
  (quiet s -> returns (make_cloned_ptr T ms) s h grown (vars s))
  ∧ a ≠ nullptr ∧ heap s !! a = None
  ∧ handle_ok h ∧ bound_class h = Some (dyn o)
  ∧ (∀ s1, heap s1 = grown ->
       operator_star NDEBUG h s1 = (Ok o, s1)
       ∧ ∃ s2, reset_unique (cb_ h) s1 = (Ok (), s2) ∧ heap s2 = heap s)
  ∧ (∀ r s', make_cloned_ptr T ms s = (r, s') ->
       vars s' = vars s
       ∧ match r with
         | Ok h' => h' = h ∧ heap s' = grown
         | Throw e => heap s' = heap s ∨ (e = bad_alloc ∧ heap s' = grown)
         | AssertionFailed | Undefined => False
         end).
Proof.
  intros a o h grown.
  assert (a ≠ nullptr) as Hn by apply fresh_address_not_null.
  assert (heap s !! a = None) as Hf by apply fresh_address_unused.
  split; [|split; [done|split; [done|split; [|split; [|split]]]]].
  - intros Q. destruct (returns_new o s Q) as (s1 & E1 & H1 & V1 & Q1).
    destruct (returns_make_unique (control_block_impl T a) s1 Q1)
      as (s2 & E2 & H2 & V2 & Q2).
    exists s2.
    change (make_cloned_ptr T ms) with (new_ o ≫= cloned_ptr_from T).
    unfold cloned_ptr_from.
    rewrite run_bind, E1. fold a. rewrite decide_False by done.
    rewrite run_bind, E2. split; [done|]. split; [by rewrite H2, H1|].
    split; [congruence|done].
  - by apply handle_ok_intro.
  - done.
  - intros s1 H1.
    assert (heap s1 !! a = Some (Obj o)) as Hobj
      by (rewrite H1; apply lookup_insert_eq).
    split.
    + unfold operator_star, assert_, get. simpl.
      apply N.eqb_neq in Hn as Hb. rewrite Hb. simpl.
      destruct NDEBUG; by rewrite run_bind, run_ret, deref_live with (o := o).
    + simpl. rewrite delete_deletable by (right; by exists o).
      eexists. split; [done|]. simpl. rewrite H1.
      by apply without_fresh.
  - intros r s'. unfold make_cloned_ptr. rewrite run_bind.
    destruct (new_ _ s) as [r1 s1] eqn:E1.
    destruct (new_inv _ _ _ _ E1) as [V1 Hr1].
    destruct r1 as [x| | |]; try done.
    + destruct Hr1 as [-> H1]. unfold cloned_ptr_from.
      rewrite decide_False by done. rewrite run_bind.
      destruct (make_unique _ s1) as [r2 s2] eqn:E2.
      destruct (make_unique_inv _ _ _ _ E2) as (H2 & V2 & [-> | ->]);
        intros [= <- <-]; (split; [congruence|]).
      * split; [done|]. by rewrite H2.
      * right. split; [done|]. by rewrite H2.
    + intros [= <- <-]. split; [done|]. by left.
Qed.

(** ** Copies behind an adapter *)

Lemma cloned_ptr_copy_inv h U o s r s' :
  handle_ok h -> ptr_ h ≠ nullptr ->
  bound_class h = Some U -> heap s !! ptr_ h = Some (Obj o) ->
  cloned_ptr_copy is_base_of h s = (r, s') ->
  let a' := fresh_address (heap s) in
  let grown := <[a' := Obj (copy_as is_base_of U o)]> (heap s) in
  vars s' = vars s
  ∧ match r with
    | Ok tmp =>
        ∃ c x, tmp = {| ptr_ := x; cb_ := Some c |}
               ∧ coherent c ∧ ptr c = Some x ∧ owned c = Some (U, a')
               ∧ (x = a' ∨ x = nullptr)
               ∧ heap s' = grown
    | Throw _ => heap s' = heap s ∨ heap s' = grown
    | AssertionFailed | Undefined => False
    end.
Proof.
  intros Hok Hnn Hcls Hobj.
  destruct (handle_ok_owned h U Hok Hnn Hcls) as (b & Hb & C & O).
  unfold cloned_ptr_copy. rewrite operator_bool_true, Hb by done. simpl.
  rewrite run_bind. destruct (clone is_base_of b s) as [r1 s1] eqn:E.
  destruct (clone_inv b U _ o s _ _ O Hnn Hobj E) as [V1 Hr1].
  destruct r1 as [c| | |]; try done; [|intros [= <- <-]; auto].
  destruct Hr1 as (Cc & Oc & H1 & _).
  assert (target c = fresh_address (heap s)) as Ht
    by (unfold target; by rewrite Oc).
  destruct (coherent_ptr c Cc) as [P|P]; rewrite P;
    intros [= <- <-]; (split; [done|]); eexists c, _;
    repeat split; try done.
  - left. congruence.
  - by right.
Qed.

Lemma adapter_inv (u : option (control_block class)) b
    (g : control_block class -> cloned_ptr class) s r s' :
  deletable s (target_of u) ->
  owning u (cb ← make_unique b; mret (g cb)) s = (r, s') ->
  vars s' = vars s
  ∧ ((r = Ok (g b) ∧ heap s' = heap s)
     ∨ (r = Throw bad_alloc ∧ heap s' = without (target_of u) (heap s))).
Proof.
  intros D. unfold owning, try_catch_rethrow. rewrite run_bind.
  destruct (make_unique b s) as [r1 s1] eqn:E.
  destruct (make_unique_inv _ _ _ _ E) as (Hh & Hv & [-> | ->]).
  - intros [= <- <-]. auto.
  - unfold bind. rewrite reset_unique_target, delete_deletable.
    + intros [= <- <-]. simpl. rewrite Hh. auto.
    + by apply (deletable_same_heap s).
Qed.

Lemma adapter_fails (u : option (control_block class)) b
    (g : control_block class -> cloned_ptr class) s orc :
  deletable s (target_of u) ->
  oracle s = false :: orc ->
  owning u (cb ← make_unique b; mret (g cb)) s
  = (Throw bad_alloc,
     {| heap := without (target_of u) (heap s); oracle := orc;
        vars := vars s |}).
Proof.
  intros D Horc. unfold owning, try_catch_rethrow, make_unique.
  rewrite !run_bind, may_fail_head with (orc := orc) by done.
  unfold bind. rewrite reset_unique_target, delete_deletable; [done|].
  by apply (deletable_same_heap s).
Qed.

Lemma adapter_returns (u : option (control_block class)) b
    (g : control_block class -> cloned_ptr class) s :
  quiet s ->
  returns (owning u (cb ← make_unique b; mret (g cb))) s (g b)
    (heap s) (vars s).
Proof.
  intros Q. destruct (returns_make_unique b s Q) as (s1 & E & H1 & V1 & Q1).
  exists s1. unfold owning. erewrite try_catch_ok; [done|].
  by rewrite run_bind, E.
Qed.

(** The converting copy constructor, [static_pointer_cast] and
    [const_pointer_cast] on a handle that observes a live object.  Each
    makes a copy of the object first, exactly as the copy constructor does,
    and puts the copy's descriptor behind its adapter; the source and its
    object are untouched.  When no failure is scheduled the result observes
    and owns the copy.  When the copy has been made and the allocation of
    the adapter fails, the copy is deleted again: [bad_alloc] propagates
    with the free store and the handles as they were. *)
Theorem casts_copy_behind_an_adapter hp U o s :
  handle_ok hp -> ptr_ hp ≠ nullptr ->
  bound_class hp = Some U -> heap s !! ptr_ hp = Some (Obj o) ->
  let a' := fresh_address (heap s) in
  let grown := <[a' := Obj (copy_as is_base_of U o)]> (heap s) in
  (quiet s ->
   ∃ c x,
     coherent c ∧ ptr c = Some x ∧ target c = a' ∧ a' ≠ ptr_ hp
     ∧ returns (cloned_ptr_copy is_base_of hp) s
         {| ptr_ := x; cb_ := Some c |} grown (vars s)
     ∧ returns (cloned_ptr_convert_copy is_base_of hp) s
         {| ptr_ := x; cb_ := Some (delegating_control_block (Some c)) |}
         grown (vars s)
     ∧ returns (static_pointer_cast is_base_of hp) s
         {| ptr_ := x;
            cb_ := Some (downcasting_delegating_control_block (Some c)) |}
         grown (vars s)
     ∧ returns (const_pointer_cast is_base_of hp) s
         {| ptr_ := x;
            cb_ := Some (const_casting_delegating_control_block (Some c)) |}
         grown (vars s))
  ∧ (∀ tmp s1 orc,
       cloned_ptr_copy is_base_of hp s = (Ok tmp, s1) ->
       oracle s1 = false :: orc ->
       let back := {| heap := heap s; oracle := orc; vars := vars s |} in
       heap s1 = grown
       ∧ cloned_ptr_convert_copy is_base_of hp s = (Throw bad_alloc, back)
       ∧ static_pointer_cast is_base_of hp s = (Throw bad_alloc, back)
       ∧ const_pointer_cast is_base_of hp s = (Throw bad_alloc, back)).
Proof.
  intros Hok Hnn Hcls Hobj a' grown.
  assert (a' ≠ ptr_ hp) as Hne.
  { intros Heq. unfold a' in Heq.
    rewrite <- Heq, fresh_address_unused in Hobj. done. }
  split.
  - intros Q.
    destruct (returns_cloned_ptr_copy is_base_of hp U o s Q Hok Hnn Hcls Hobj)
      as (c & x & (s1 & E & H1 & V1 & Q1) & C & P & O & Hx).
    exists c, x. split; [done|]. split; [done|].
    split; [unfold target; by rewrite O|]. split; [done|].
    split; [by exists s1|].
    repeat split.
    + destruct (adapter_returns (Some c) (delegating_control_block (Some c))
                  (fun cb => {| ptr_ := x; cb_ := Some cb |}) s1 Q1)
        as (s2 & E2 & H2 & V2 & Q2).
      exists s2. unfold cloned_ptr_convert_copy. rewrite run_bind, E. simpl.
      rewrite E2. unfold grown, a'. repeat split; (done || congruence).
    + destruct (adapter_returns (Some c)
                  (downcasting_delegating_control_block (Some c))
                  (fun cb => {| ptr_ := x; cb_ := Some cb |}) s1 Q1)
        as (s2 & E2 & H2 & V2 & Q2).
      exists s2. unfold static_pointer_cast. rewrite run_bind, E. simpl.
      rewrite E2. unfold grown, a'. repeat split; (done || congruence).
    + destruct (adapter_returns (Some c)
                  (const_casting_delegating_control_block (Some c))
                  (fun cb => {| ptr_ := x; cb_ := Some cb |}) s1 Q1)
        as (s2 & E2 & H2 & V2 & Q2).
      exists s2. unfold const_pointer_cast. rewrite run_bind, E. simpl.
      rewrite E2. unfold grown, a'. repeat split; (done || congruence).
  - intros tmp s1 orc E Horc back.
    destruct (cloned_ptr_copy_inv hp U o s _ _ Hok Hnn Hcls Hobj E)
      as (V1 & c & x & -> & C & P & O & Hx & H1).
    assert (target c = a') as Ht by (unfold target; by rewrite O).
    assert (deletable s1 (target_of (Some c))) as D.
    { right. simpl. rewrite Ht, H1. eexists. apply lookup_insert_eq. }
    assert (without (target_of (Some c)) (heap s1) = heap s) as W.
    { simpl. rewrite Ht, H1. apply without_fresh;
        [apply fresh_address_not_null|apply fresh_address_unused]. }
    split; [done|].
    unfold cloned_ptr_convert_copy, static_pointer_cast, const_pointer_cast.
    rewrite !run_bind, E. simpl.
    rewrite !(adapter_fails (Some c)) with (orc := orc) by done.
    unfold back. rewrite W, V1. done.
Qed.

(** ** [dynamic_pointer_cast] to a class of the object *)

(** When the object a handle observes is of a class derived from [T],
    [dynamic_pointer_cast<T>] copies the object as the copy constructor
    does and casts the copy's pointer again.  The result owns the copy
    behind a [dynamic_casting_delegating_control_block] and observes what
    that second cast yields: the copy, when the class [U] bound at adoption
    derives from [T], and null otherwise (the copy is a [U]). *)
Theorem dynamic_pointer_cast_copies (T : class) hp U o s :
  quiet s ->
  handle_ok hp -> ptr_ hp ≠ nullptr ->
  bound_class hp = Some U -> heap s !! ptr_ hp = Some (Obj o) ->
  is_base_of T (dyn o) = true ->
  let a' := fresh_address (heap s) in
  let grown := <[a' := Obj (copy_as is_base_of U o)]> (heap s) in
  ∃ c x y,
    returns (cloned_ptr_copy is_base_of hp) s
      {| ptr_ := x; cb_ := Some c |} grown (vars s)
    ∧ returns (dynamic_pointer_cast is_base_of T hp) s
        {| ptr_ := y;
           cb_ := Some (dynamic_casting_delegating_control_block
                          T (Some c) y) |}
        grown (vars s)
    ∧ coherent c ∧ target c = a' ∧ a' ≠ ptr_ hp
    ∧ (x = a' ∧ y = (if is_base_of T U then a' else nullptr)
       ∨ x = nullptr ∧ y = nullptr).
Proof.
  intros Q Hok Hnn Hcls Hobj Hbase a' grown.
  destruct (returns_cloned_ptr_copy is_base_of hp U o s Q Hok Hnn Hcls Hobj)
    as (c & x & (s1 & E & H1 & V1 & Q1) & C & P & O & Hx).
  destruct (returns_may_fail bad_alloc s1 Q1) as (s2 & E2 & H2 & V2 & Q2).
  assert (heap s1 !! a' = Some (Obj (copy_as is_base_of U o))) as Hlive
    by (rewrite H1; apply lookup_insert_eq).
  assert (a' ≠ nullptr) as Hn' by apply fresh_address_not_null.
  set (y := if decide (x = nullptr) then nullptr
            else if is_base_of T U then a' else nullptr).
  assert (∀ s0, heap s0 = heap s1 ->
            dynamic_cast is_base_of T x s0 = (Ok y, s0)) as Hcast.
  { intros s0 H0. unfold y. destruct Hx as [->| ->].
    - rewrite decide_False by done.
      rewrite dynamic_cast_live with (o := copy_as is_base_of U o);
        [done|done|by rewrite H0].
    - by rewrite decide_True. }
  exists c, x, y. split; [by exists s1|]. split.
  - exists s2. unfold dynamic_pointer_cast, get.
    rewrite run_bind, dynamic_cast_live with (o := o) by done.
    rewrite Hbase. apply N.eqb_neq in Hnn as Hb. rewrite Hb.
    rewrite run_bind, E. simpl. unfold owning.
    erewrite try_catch_ok;
      [unfold grown, a'; repeat split; (done || congruence)|].
    rewrite run_bind, Hcast by done.
    unfold make_unique_dynamic_casting.
    rewrite !run_bind, E2, P, run_bind, Hcast by done. done.
  - split; [done|]. split; [unfold target; by rewrite O|]. split.
    + intros Heq. unfold a' in Heq.
      rewrite <- Heq, fresh_address_unused in Hobj. done.
    + unfold y. destruct Hx as [->| ->].
      * left. by rewrite decide_False.
      * right. by rewrite decide_True.
Qed.

(** ** Casts of an empty handle *)

(** [dynamic_pointer_cast] of an empty handle returns the empty handle and
    allocates nothing.  The converting copy constructor,
    [static_pointer_cast] and [const_pointer_cast] still allocate their
    adapter around the empty descriptor: the result is false as a boolean
    and destroying it deletes nothing, but it has a descriptor, and the
    call throws [bad_alloc] when that allocation fails. *)
Theorem casts_of_an_empty_handle (T : class) he s :
  ptr_ he = nullptr ->
  let around (b : control_block class) := {| ptr_ := nullptr; cb_ := Some b |} in
  dynamic_pointer_cast is_base_of T he s = (Ok empty_handle, s)
  ∧ (quiet s ->
     returns (cloned_ptr_convert_copy is_base_of he) s
       (around (delegating_control_block None)) (heap s) (vars s)
     ∧ returns (static_pointer_cast is_base_of he) s
         (around (downcasting_delegating_control_block None))
         (heap s) (vars s)
     ∧ returns (const_pointer_cast is_base_of he) s
         (around (const_casting_delegating_control_block None))
         (heap s) (vars s))
  ∧ (∀ orc, oracle s = false :: orc ->
       cloned_ptr_convert_copy is_base_of he s
       = (Throw bad_alloc, set_oracle orc s)
       ∧ static_pointer_cast is_base_of he s
         = (Throw bad_alloc, set_oracle orc s)
       ∧ const_pointer_cast is_base_of he s
         = (Throw bad_alloc, set_oracle orc s))
  ∧ (∀ b, operator_bool (around b) = false)
  ∧ (∀ s0, reset_unique (Some (delegating_control_block None)) s0 = (Ok (), s0)
           ∧ reset_unique (Some (downcasting_delegating_control_block None)) s0
             = (Ok (), s0)
           ∧ reset_unique (Some (const_casting_delegating_control_block None)) s0
             = (Ok (), s0)).
Proof.
  intros Hn around. split; [|split; [|split; [|split]]].
  - unfold dynamic_pointer_cast, get. rewrite Hn.
    by rewrite run_bind, dynamic_cast_null.
  - intros Q.
    unfold cloned_ptr_convert_copy, static_pointer_cast, const_pointer_cast.
    repeat split.
    + destruct (adapter_returns None (delegating_control_block None)
                  (fun cb => {| ptr_ := nullptr; cb_ := Some cb |}) s Q)
        as (s2 & E2 & H2 & V2 & Q2).
      exists s2. rewrite run_bind, cloned_ptr_copy_empty by done. simpl.
      by rewrite E2.
    + destruct (adapter_returns None (downcasting_delegating_control_block None)
                  (fun cb => {| ptr_ := nullptr; cb_ := Some cb |}) s Q)
        as (s2 & E2 & H2 & V2 & Q2).
      exists s2. rewrite run_bind, cloned_ptr_copy_empty by done. simpl.
      by rewrite E2.
    + destruct (adapter_returns None
                  (const_casting_delegating_control_block None)
                  (fun cb => {| ptr_ := nullptr; cb_ := Some cb |}) s Q)
        as (s2 & E2 & H2 & V2 & Q2).
      exists s2. rewrite run_bind, cloned_ptr_copy_empty by done. simpl.
      by rewrite E2.
  - intros orc Horc.
    unfold cloned_ptr_convert_copy, static_pointer_cast, const_pointer_cast.
    rewrite !run_bind, cloned_ptr_copy_empty by done. simpl.
    rewrite !(adapter_fails None) with (orc := orc) by (done || by left).
    simpl. by destruct s.
  - done.
  - done.
Qed.

(** ** Ownership is an invariant of the public operations *)

#[local] Abbreviation owns_at H V :=
  (∀ s : state class, heap s = H -> vars s = V -> owns_ok s).

#[local] Abbreviation live_or_null H a :=
  (a = nullptr ∨ ∃ o : object class, (H : gmap addr (cell class)) !! a = Some (Obj o)).

Lemma owns_at_intro s : owns_ok s -> owns_at (heap s) (vars s).
Proof.
  unfold owns_ok, store_ok, deletable.
  intros (H1 & H2 & H3) s' Hh Hv. rewrite Hh, Hv. done.
Qed.

Lemma owns_at_lookup H V x h :
  owns_at H V -> V !! x = Some h ->
  handle_ok h ∧ live_or_null H (target_of (cb_ h)).
Proof.
  intros Hown Hx.
  destruct (Hown {| heap := H; oracle := []; vars := V |} eq_refl eq_refl)
    as (H1 & H2 & H3).
  split; [exact (map_Forall_lookup_1 _ _ _ _ H1 Hx)|exact (H2 x h Hx)].
Qed.

Lemma owns_at_distinct H V x y hx hy :
  owns_at H V -> x ≠ y -> V !! x = Some hx -> V !! y = Some hy ->
  target_of (cb_ hx) = target_of (cb_ hy) -> target_of (cb_ hx) = nullptr.
Proof.
  intros Hown.
  destruct (Hown {| heap := H; oracle := []; vars := V |} eq_refl eq_refl)
    as (H1 & H2 & H3).
  apply H3.
Qed.

Lemma owns_at_make H V :
  (∀ x h, V !! x = Some h ->
     handle_ok h ∧ live_or_null H (target_of (cb_ h))) ->
  (∀ x y hx hy, x ≠ y -> V !! x = Some hx -> V !! y = Some hy ->
     target_of (cb_ hx) = target_of (cb_ hy) ->
     target_of (cb_ hx) = nullptr) ->
  owns_at H V.
Proof.
  intros H1 H2 s Hh Hv. unfold owns_ok, store_ok, deletable.
  rewrite Hh, Hv. split; [|split; [|done]].
  - apply map_Forall_lookup_2. intros x h Hx. by apply (H1 x h).
  - intros x h Hx. by apply (H1 x h).
Qed.

(** New cells in the free store do not disturb ownership. *)
Lemma owns_at_grow H H' V : owns_at H V -> H ⊆ H' -> owns_at H' V.
Proof.
  intros Hown Hsub. apply owns_at_make.
  - intros x h Hx. destruct (owns_at_lookup H V x h Hown Hx) as [Hok Hl].
    split; [done|]. destruct Hl as [?|[o Ho]]; [by left|right].
    exists o. by apply (lookup_weaken H).
  - intros x y hx hy. by apply (owns_at_distinct H V).
Qed.

(** A variable takes a handle that owns nothing, or something no other
    handle owns. *)
Lemma owns_at_write H V x h :
  owns_at H V -> handle_ok h -> live_or_null H (target_of (cb_ h)) ->
  (∀ y hy, y ≠ x -> V !! y = Some hy ->
     target_of (cb_ hy) = target_of (cb_ h) ->
     target_of (cb_ h) = nullptr) ->
  owns_at H (<[x := h]> V).
Proof.
  intros Hown Hok Hl Hothers. apply owns_at_make.
  - intros y hy. rewrite lookup_insert. case_decide.
    + intros [= <-]. done.
    + by apply owns_at_lookup.
  - intros y z hy hz Hne. rewrite !lookup_insert.
    repeat case_decide; simplify_eq.
    + intros [= <-] Hz Heq. by apply (Hothers z hz).
    + intros Hy [= <-] Heq. rewrite Heq. by apply (Hothers y hy).
    + by apply (owns_at_distinct H V).
Qed.

Lemma owns_at_forget H V x : owns_at H V -> owns_at H (delete x V).
Proof.
  intros Hown. apply owns_at_make.
  - intros y hy. rewrite lookup_delete. case_decide; [done|].
    by apply owns_at_lookup.
  - intros y z hy hz Hne. rewrite !lookup_delete.
    repeat case_decide; try done. by apply (owns_at_distinct H V).
Qed.

(** An object that no handle owns is deleted. *)
Lemma owns_at_delete H V a :
  owns_at H V ->
  (∀ y hy, V !! y = Some hy -> target_of (cb_ hy) = a -> a = nullptr) ->
  owns_at (without a H) V.
Proof.
  intros Hown Hun. apply owns_at_make.
  - intros x h Hx. destruct (owns_at_lookup H V x h Hown Hx) as [Hok Hl].
    split; [done|]. destruct Hl as [?|[o Ho]]; [by left|right].
    exists o. unfold without. case_decide; [done|].
    rewrite lookup_delete_ne; [done|].
    intros Heq. by specialize (Hun x h Hx (eq_sym Heq)).
  - intros x y hx hy. by apply (owns_at_distinct H V).
Qed.

(** An owned address other than null is a live object, and it is what the
    handle observes when it observes anything. *)
Lemma owns_at_observed H V x h :
  owns_at H V -> V !! x = Some h -> ptr_ h ≠ nullptr ->
  ∃ b U o, cb_ h = Some b ∧ coherent b ∧ owned b = Some (U, ptr_ h)
           ∧ ptr b = Some (ptr_ h) ∧ target_of (cb_ h) = ptr_ h
           ∧ H !! ptr_ h = Some (Obj o).
Proof.
  intros Hown Hx Hnn.
  destruct (owns_at_lookup H V x h Hown Hx) as [Hok Hl].
  destruct (Hok Hnn) as (b & Hb & C & P).
  destruct (coherent_owned b C) as [U O].
  pose proof (owned_coherent_ptr b C _ P Hnn) as Ht.
  rewrite Hb in Hl. simpl in Hl. rewrite <- Ht in Hl.
  destruct Hl as [?|[o Ho]]; [done|].
  exists b, U, o. rewrite Hb. simpl. rewrite <- Ht.
  repeat split; try done. by rewrite O, <- Ht.
Qed.

(** *** Rules of total correctness *)

#[local] Abbreviation at_ H V :=
  (fun s : state class => heap s = H ∧ vars s = V).

Lemma safe_bind {A B} (m : M A) (f : A -> M B) P R Q E :
  safe P m R E -> (∀ a, safe (R a) (f a) Q E) -> safe P (m ≫= f) Q E.
Proof.
  intros Hm Hf s Hs. specialize (Hm s Hs). rewrite run_bind.
  destruct (m s) as [[a|e| |] s1]; try done. by apply Hf.
Qed.

Lemma safe_conseq {A} (m : M A) (P P' : state class -> Prop)
    (Q Q' : A -> state class -> Prop) (E E' : state class -> Prop) :
  safe P' m Q' E' ->
  (∀ s, P s -> P' s) -> (∀ a s, Q' a s -> Q a s) -> (∀ s, E' s -> E s) ->
  safe P m Q E.
Proof.
  intros Hm HP HQ HE s Hs. specialize (Hm s (HP s Hs)).
  destruct (m s) as [[a|e| |] s1]; auto.
Qed.

Lemma safe_ret {A} (a : A) (P : state class -> Prop) Q E :
  (∀ s, P s -> Q a s) -> safe P (mret a : M A) Q E.
Proof. intros H s Hs. by apply H. Qed.

Lemma safe_tail {A} (m : M A) (P : state class -> Prop) Q E :
  safe P (m ≫= mret) Q E -> safe P m Q E.
Proof.
  intros H s Hs. specialize (H s Hs). rewrite run_bind in H.
  by destruct (m s) as [[a|e| |] s1].
Qed.

Lemma safe_assoc {A B C} (m : M A) (f : A -> M B) (g : B -> M C)
    (P : state class -> Prop) Q E :
  safe P (m ≫= (fun a => f a ≫= g)) Q E -> safe P ((m ≫= f) ≫= g) Q E.
Proof.
  intros H s Hs. specialize (H s Hs). rewrite !run_bind in *.
  by destruct (m s) as [[a|e| |] s1].
Qed.

Lemma safe_ret_k {A B} (a : A) (f : A -> M B) (P : state class -> Prop) Q E :
  safe P (f a) Q E -> safe P (mret a ≫= f) Q E.
Proof. intros H s Hs. by apply H. Qed.

(** [try { m } catch (...) { hd; throw; }] when the handler returns. *)
Lemma safe_try_catch {A} (m : M A) (hd : M unit) P Q (E1 E : state class -> Prop) :
  safe P m Q E1 -> safe E1 hd (fun _ => E) E ->
  safe P (try_catch_rethrow m hd) Q E.
Proof.
  intros Hm Hh s Hs. specialize (Hm s Hs). unfold try_catch_rethrow.
  destruct (m s) as [[a|e| |] s1]; try done.
  specialize (Hh s1 Hm). unfold bind.
  by destruct (hd s1) as [[[]|e'| |] s2].
Qed.

Lemma safe_read_k {B} x h H V (f : cloned_ptr class -> M B) Q E :
  V !! x = Some h -> safe (at_ H V) (f h) Q E ->
  safe (at_ H V) (read x ≫= f) Q E.
Proof.
  intros Hx Hf s [Hh Hv]. rewrite run_bind, read_lookup with (h := h);
    [by apply Hf|by rewrite Hv].
Qed.

Lemma safe_write_k {B} x h H V (f : unit -> M B) Q E :
  safe (at_ H (<[x := h]> V)) (f ()) Q E ->
  safe (at_ H V) (write x h ≫= f) Q E.
Proof.
  intros Hf s [Hh Hv]. rewrite run_bind. unfold write. apply Hf.
  simpl. by rewrite Hv.
Qed.

Lemma safe_forget_k {B} x H V (f : unit -> M B) Q E :
  safe (at_ H (delete x V)) (f ()) Q E ->
  safe (at_ H V) (forget x ≫= f) Q E.
Proof.
  intros Hf s [Hh Hv]. rewrite run_bind. unfold forget. apply Hf.
  simpl. by rewrite Hv.
Qed.

Lemma safe_set_ptr_k {B} x a h H V (f : unit -> M B) Q E :
  V !! x = Some h ->
  safe (at_ H (<[x := {| ptr_ := a; cb_ := cb_ h |}]> V)) (f ()) Q E ->
  safe (at_ H V) (set_ptr_ x a ≫= f) Q E.
Proof.
  intros Hx Hf s [Hh Hv].
  rewrite run_bind, set_ptr_lookup with (h := h) by (by rewrite Hv).
  apply Hf. simpl. by rewrite Hv.
Qed.

Lemma safe_set_cb_k {B} x u h H V (f : unit -> M B) Q E :
  V !! x = Some h ->
  safe (at_ H (<[x := {| ptr_ := ptr_ h; cb_ := u |}]> V)) (f ()) Q E ->
  safe (at_ H V) (set_cb_ x u ≫= f) Q E.
Proof.
  intros Hx Hf s [Hh Hv].
  rewrite run_bind, set_cb_lookup with (h := h) by (by rewrite Hv).
  apply Hf. simpl. by rewrite Hv.
Qed.

Lemma safe_reset_unique_k {B} (u : option (control_block class)) H V
    (f : unit -> M B) Q E :
  live_or_null H (target_of u) ->
  safe (at_ (without (target_of u) H) V) (f ()) Q E ->
  safe (at_ H V) (reset_unique u ≫= f) Q E.
Proof.
  intros Hl Hf s [Hh Hv].
  rewrite run_bind, reset_unique_target, delete_deletable
    by (unfold deletable; by rewrite Hh).
  apply Hf. simpl. by rewrite Hh.
Qed.

Lemma safe_assign_cb_k {B} x u h H V (f : unit -> M B) Q E :
  V !! x = Some h ->
  live_or_null H (target_of (cb_ h)) ->
  safe (at_ (without (target_of (cb_ h)) H)
          (<[x := {| ptr_ := ptr_ h; cb_ := u |}]> V)) (f ()) Q E ->
  safe (at_ H V) (assign_cb_ x u ≫= f) Q E.
Proof.
  intros Hx Hl Hf s [Hh Hv].
  rewrite run_bind, assign_cb_lookup with (h := h);
    [|by rewrite Hv|unfold deletable; by rewrite Hh].
  apply Hf. simpl. by rewrite Hh, Hv.
Qed.

Lemma safe_may_fail_k {B} e H V (f : unit -> M B) Q (E : state class -> Prop) :
  (∀ s, at_ H V s -> E s) ->
  safe (at_ H V) (f ()) Q E ->
  safe (at_ H V) (may_fail e ≫= f) Q E.
Proof.
  intros He Hf s [Hh Hv]. rewrite run_bind.
  destruct (may_fail e s) as [r1 s1] eqn:E1.
  destruct (may_fail_inv _ _ _ _ E1) as (H1 & V1 & [-> | ->]).
  - apply Hf. split; congruence.
  - apply He. split; congruence.
Qed.

Lemma safe_make_unique_k {B} b H V (f : control_block class -> M B) Q
    (E : state class -> Prop) :
  (∀ s, at_ H V s -> E s) ->
  safe (at_ H V) (f b) Q E ->
  safe (at_ H V) (make_unique b ≫= f) Q E.
Proof.
  intros He Hf. unfold make_unique. apply safe_assoc.
  apply safe_may_fail_k; [done|]. by apply safe_ret_k.
Qed.

Lemma safe_new_k {B} o H V (f : addr -> M B) Q (E : state class -> Prop) :
  (∀ s, at_ H V s -> E s) ->
  safe (at_ (<[fresh_address H := Obj o]> H) V) (f (fresh_address H)) Q E ->
  safe (at_ H V) (new_ o ≫= f) Q E.
Proof.
  intros He Hf s [Hh Hv]. rewrite run_bind.
  destruct (new_ o s) as [r1 s1] eqn:E1.
  destruct (new_inv _ _ _ _ E1) as [V1 Hr1].
  destruct r1 as [a| | |]; try done.
  - destruct Hr1 as [-> H1]. rewrite Hh. apply Hf. split; congruence.
  - apply He. split; congruence.
Qed.

Lemma safe_clone_k {B} b U a o H V (f : control_block class -> M B) Q
    (E : state class -> Prop) :
  owned b = Some (U, a) -> a ≠ nullptr -> H !! a = Some (Obj o) ->
  let grown := <[fresh_address H := Obj (copy_as is_base_of U o)]> H in
  (∀ s, at_ H V s -> E s) ->
  (∀ s, at_ grown V s -> E s) ->
  (∀ c, coherent c -> owned c = Some (U, fresh_address H) ->
     safe (at_ grown V) (f c) Q E) ->
  safe (at_ H V) (clone is_base_of b ≫= f) Q E.
Proof.
  intros Hown Hn Hobj grown He He' Hf s [Hh Hv]. rewrite run_bind.
  destruct (clone is_base_of b s) as [r1 s1] eqn:E1.
  rewrite <- Hh in Hobj.
  destruct (clone_inv b U a o s _ _ Hown Hn Hobj E1) as [V1 Hr1].
  rewrite Hh in Hr1.
  destruct r1 as [c| | |]; try done.
  - destruct Hr1 as (C & O & H1 & _). apply Hf; [done|done|].
    split; [exact H1|congruence].
  - destruct Hr1 as [H1|H1]; [apply He|apply He'];
      (split; [exact H1 || congruence|congruence]).
Qed.

(** Code that runs while a local [unique_ptr] owns [u] and can only throw
    with the free store and the handles as it found them. *)
Lemma safe_owning_k {A B} (u : option (control_block class)) (m : M A) H V
    (f : A -> M B) R Q (E : state class -> Prop) :
  live_or_null H (target_of u) ->
  safe (at_ H V) m R (at_ H V) ->
  (∀ s, at_ (without (target_of u) H) V s -> E s) ->
  (∀ a, safe (R a) (f a) Q E) ->
  safe (at_ H V) (owning u m ≫= f) Q E.
Proof.
  intros Hl Hm He Hf. eapply safe_bind; [|exact Hf].
  unfold owning. eapply safe_try_catch; [exact Hm|].
  apply safe_tail, safe_reset_unique_k; [done|].
  apply safe_ret. intros s Hs. by apply He.
Qed.

Lemma safe_dynamic_cast_k {B} (T : class) p H V (f : addr -> M B) Q E :
  live_or_null H p ->
  (∀ y, y = nullptr
        ∨ (y = p ∧ p ≠ nullptr
           ∧ ∃ o, H !! p = Some (Obj o) ∧ is_base_of T (dyn o) = true) ->
        safe (at_ H V) (f y) Q E) ->
  safe (at_ H V) (dynamic_cast is_base_of T p ≫= f) Q E.
Proof.
  intros Hl Hf s [Hh Hv]. rewrite run_bind.
  destruct Hl as [->|[o Ho]].
  - rewrite dynamic_cast_null. apply Hf; [by left|done].
  - destruct (decide (p = nullptr)) as [->|Hn].
    + rewrite dynamic_cast_null. apply Hf; [by left|done].
    + rewrite dynamic_cast_live with (o := o) by (done || by rewrite Hh).
      apply Hf; [|done].
      destruct (is_base_of T (dyn o)) eqn:Hb; [right|by left].
      split; [done|]. split; [done|]. by exists o.
Qed.

(** *** Handles that own a fresh copy *)

(** What [cloned_ptr_copy] produces from the free store [H]: the empty
    handle, or a handle around a new object at the next fresh address. *)
#[local] Abbreviation fresh_copy H H' tmp :=
  ((tmp = empty_handle ∧ H' = H)
   ∨ ∃ (obj : object class) c x,
       H' = <[fresh_address H := Obj obj]> H
       ∧ tmp = {| ptr_ := x; cb_ := Some c |}
       ∧ coherent c ∧ ptr c = Some x ∧ target c = fresh_address H).

Lemma fresh_copy_facts (H H' : gmap addr (cell class)) tmp :
  fresh_copy H H' tmp ->
  H ⊆ H' ∧ handle_ok tmp
  ∧ live_or_null H' (target_of (cb_ tmp))
  ∧ without (target_of (cb_ tmp)) H' = H
  ∧ (target_of (cb_ tmp) = nullptr ∨ H !! target_of (cb_ tmp) = None)
  ∧ (ptr_ tmp ≠ nullptr -> ptr_ tmp = target_of (cb_ tmp)).
Proof.
  intros [[-> ->]|(obj & c & x & -> & -> & C & P & Ht)]; simpl.
  - split; [done|]. split; [apply handle_ok_empty|]. split; [by left|].
    split; [done|]. split; [by left|done].
  - rewrite Ht. split; [apply insert_subseteq, fresh_address_unused|].
    split; [by apply handle_ok_intro|].
    split; [right; eexists; apply lookup_insert_eq|].
    split; [apply without_fresh;
              [apply fresh_address_not_null|apply fresh_address_unused]|].
    split; [right; apply fresh_address_unused|].
    intros Hx. rewrite <- Ht. by apply owned_coherent_ptr.
Qed.

Lemma owns_at_E H V :
  owns_at H V -> ∀ s : state class, at_ H V s -> owns_ok s.
Proof. intros Hown s [Hh Hv]. by apply Hown. Qed.

(** A variable takes a handle that owns nothing or an object that did not
    exist in [H]. *)
Lemma owns_at_adopt_fresh H H' V x h :
  owns_at H V -> H ⊆ H' -> handle_ok h ->
  live_or_null H' (target_of (cb_ h)) ->
  (target_of (cb_ h) = nullptr ∨ H !! target_of (cb_ h) = None) ->
  owns_at H' (<[x := h]> V).
Proof.
  intros Hown Hsub Hok Hl Hfresh.
  apply owns_at_write; [by apply (owns_at_grow H)|done|done|].
  intros y hy Hne Hy Heq. destruct Hfresh as [|Hnone]; [done|].
  destruct (owns_at_lookup H V y hy Hown Hy) as [_ [Hz|[o Ho]]];
    congruence.
Qed.

Lemma safe_copy_k {B} hp H V (f : cloned_ptr class -> M B) Q
    (E : state class -> Prop) :
  handle_ok hp ->
  (ptr_ hp ≠ nullptr -> ∃ o, H !! ptr_ hp = Some (Obj o)) ->
  (∀ H', H ⊆ H' -> ∀ s, at_ H' V s -> E s) ->
  (∀ H' tmp, fresh_copy H H' tmp -> safe (at_ H' V) (f tmp) Q E) ->
  safe (at_ H V) (cloned_ptr_copy is_base_of hp ≫= f) Q E.
Proof.
  intros Hok Hlive He Hf.
  destruct (decide (ptr_ hp = nullptr)) as [Hn|Hn].
  - intros s Hs. rewrite run_bind, cloned_ptr_copy_empty by done.
    apply (Hf H empty_handle); [by left|done].
  - destruct (Hlive Hn) as [o Hobj].
    destruct (handle_ok_bound hp Hok Hn) as [U HU].
    destruct (handle_ok_owned hp U Hok Hn HU) as (b & Hb & C & O).
    unfold cloned_ptr_copy. rewrite operator_bool_true, Hb by done. simpl.
    apply safe_assoc. eapply safe_clone_k; [exact O|done|exact Hobj|..].
    + by apply He.
    + apply He, insert_subseteq, fresh_address_unused.
    + intros c Cc Oc.
      assert (target c = fresh_address H) as Ht
        by (unfold target; by rewrite Oc).
      destruct (coherent_ptr c Cc) as [P|P]; rewrite P;
        apply safe_ret_k, Hf; right; eexists _, c, _; repeat split; done.
Qed.

(** The adapters of the converting copy and of the static and const casts:
    the handle [g b] around the adapter [b] owns what [tmp] owned. *)
Lemma safe_adapter_k {B} tmp b (g : control_block class -> cloned_ptr class)
    H H' V (f : cloned_ptr class -> M B) Q (E : state class -> Prop) :
  fresh_copy H H' tmp ->
  (∀ s, at_ H V s -> E s) ->
  safe (at_ H' V) (f (g b)) Q E ->
  safe (at_ H' V)
    (owning (cb_ tmp) (cb ← make_unique b; mret (g cb)) ≫= f) Q E.
Proof.
  intros Hfc He Hf.
  destruct (fresh_copy_facts H H' tmp Hfc) as (Hsub & Hok & Hl & Hw & Hfr & _).
  eapply safe_owning_k with (R := fun a s => a = g b ∧ at_ H' V s);
    [done| |by rewrite Hw|].
  - apply safe_make_unique_k; [done|]. by apply safe_ret.
  - intros a s [-> Hs]. by apply Hf.
Qed.

Lemma target_delegating (u : option (control_block class)) :
  target (delegating_control_block u) = target_of u.
Proof. unfold target. simpl. by destruct u. Qed.

Lemma target_downcasting (u : option (control_block class)) :
  target (downcasting_delegating_control_block u) = target_of u.
Proof. unfold target. simpl. by destruct u. Qed.

Lemma target_const_casting (u : option (control_block class)) :
  target (const_casting_delegating_control_block u) = target_of u.
Proof. unfold target. simpl. by destruct u. Qed.

Lemma target_dynamic_casting (T : class) (u : option (control_block class)) x :
  target (dynamic_casting_delegating_control_block T u x) = target_of u.
Proof. unfold target. simpl. by destruct u. Qed.

(** The handle [h'] takes over what [p] owned, and [p] is left empty. *)
Lemma owns_at_move H V (this p : var) hp h' :
  owns_at H V -> V !! p = Some hp ->
  handle_ok h' -> target_of (cb_ h') = target_of (cb_ hp) ->
  owns_at H (<[this := h']> (<[p := empty_handle]> V)).
Proof.
  intros Hown Hp Hok Ht.
  destruct (owns_at_lookup H V p hp Hown Hp) as [_ Hl].
  apply owns_at_write; [|done|by rewrite Ht|].
  - apply owns_at_write; [done|apply handle_ok_empty|by left|done].
  - intros y hy Hne. rewrite lookup_insert. case_decide.
    + intros [= <-] Heq. by rewrite <- Heq.
    + intros Hy Heq. rewrite Ht in Heq |- *. rewrite <- Heq.
      by apply (owns_at_distinct H V y p hy hp).
Qed.

(** Nothing that a handle owns is at an address the free store does not
    use. *)
Lemma fresh_unowned H V a :
  owns_at H V -> a = nullptr ∨ H !! a = None ->
  ∀ y hy, V !! y = Some hy -> target_of (cb_ hy) = a -> a = nullptr.
Proof.
  intros Hown [->|Hnone] y hy Hy Heq; [done|].
  destruct (owns_at_lookup H V y hy Hown Hy) as [_ [Hz|[o Ho]]]; congruence.
Qed.

(** The handle [this] gives up what it owns, which is deleted, for a handle
    [h'] whose object no variable owns. *)
Lemma owns_at_assign H V (this : var) ht h' :
  owns_at H V -> V !! this = Some ht ->
  handle_ok h' -> live_or_null H (target_of (cb_ h')) ->
  (∀ y hy, V !! y = Some hy -> target_of (cb_ hy) = target_of (cb_ h') ->
     target_of (cb_ h') = nullptr) ->
  owns_at (without (target_of (cb_ ht)) H) (<[this := h']> V).
Proof.
  intros Hown Hthis Hok Hl Hun. apply owns_at_delete.
  - apply owns_at_write; [done|done|done|].
    intros y hy _. apply Hun.
  - intros y hy. rewrite lookup_insert. case_decide.
    + intros [= <-] Heq. rewrite <- Heq. by apply (Hun this ht).
    + intros Hy Heq. rewrite <- Heq.
      by apply (owns_at_distinct H V y this hy ht).
Qed.

Lemma safe_owning_make_unique_k {B} tmp b H H' V
    (f : control_block class -> M B) Q (E : state class -> Prop) :
  fresh_copy H H' tmp ->
  (∀ s, at_ H V s -> E s) ->
  safe (at_ H' V) (f b) Q E ->
  safe (at_ H' V) (owning (cb_ tmp) (make_unique b) ≫= f) Q E.
Proof.
  intros Hfc He Hf.
  destruct (fresh_copy_facts H H' tmp Hfc) as (Hsub & Hok & Hl & Hw & Hfr & _).
  eapply safe_owning_k with (R := fun a s => a = b ∧ at_ H' V s);
    [done| |by rewrite Hw|].
  - apply safe_tail, safe_make_unique_k; [done|]. by apply safe_ret.
  - intros a s [-> Hs]. by apply Hf.
Qed.

Lemma safe_pure_pre {A} (φ : Prop) (P : state class -> Prop) (m : M A) Q E :
  (φ -> safe P m Q E) -> safe (fun s => φ ∧ P s) m Q E.
Proof. intros Hm s [Hφ Hs]. by apply Hm. Qed.

(** The allocation of a block while a local [unique_ptr] owns [u]. *)
Lemma safe_owned_make_unique_k {B} (u : option (control_block class)) b H V
    (f : control_block class -> M B) Q (E : state class -> Prop) :
  live_or_null H (target_of u) ->
  (∀ s, at_ (without (target_of u) H) V s -> E s) ->
  safe (at_ H V) (f b) Q E ->
  safe (at_ H V) (owning u (make_unique b) ≫= f) Q E.
Proof.
  intros Hl He Hf.
  eapply safe_owning_k with (R := fun a s => a = b ∧ at_ H V s);
    [done| |done|].
  - apply safe_tail, safe_make_unique_k; [done|]. by apply safe_ret.
  - intros a. apply safe_pure_pre. by intros ->.
Qed.

Lemma owns_at_swap H V (this p : var) ht hp :
  owns_at H V -> V !! this = Some ht -> V !! p = Some hp ->
  owns_at H (<[p := ht]> (<[this := hp]> V)).
Proof.
  intros Hown Hthis Hp. apply owns_at_make.
  - intros x h. rewrite !lookup_insert. repeat case_decide; simplify_eq;
      intros; simplify_eq; by eapply owns_at_lookup.
  - intros x y hx hy Hne. rewrite !lookup_insert.
    repeat case_decide; simplify_eq; intros; simplify_eq; try done;
      match goal with
      | Hx : V !! ?a = Some ?ha, Hy : V !! ?b = Some ?hb,
        Heq : target_of (cb_ ?ha) = target_of (cb_ ?hb)
        |- target_of (cb_ ?ha) = nullptr =>
          apply (owns_at_distinct H V a b ha hb Hown);
            [congruence|done|done|done]
      end.
Qed.

(** The copy that [cloned_ptr_copy] makes of a handle that observes a live
    object. *)
Lemma safe_copy_live_k {B} hp H V (f : cloned_ptr class -> M B) Q
    (E : state class -> Prop) :
  handle_ok hp -> ptr_ hp ≠ nullptr ->
  (∃ o, H !! ptr_ hp = Some (Obj o)) ->
  (∀ H', H ⊆ H' -> ∀ s, at_ H' V s -> E s) ->
  (∀ obj c x,
     coherent c -> ptr c = Some x -> target c = fresh_address H ->
     x = fresh_address H ∨ x = nullptr ->
     safe (at_ (<[fresh_address H := Obj obj]> H) V)
       (f {| ptr_ := x; cb_ := Some c |}) Q E) ->
  safe (at_ H V) (cloned_ptr_copy is_base_of hp ≫= f) Q E.
Proof.
  intros Hok Hn [o Hobj] He Hf.
  destruct (handle_ok_bound hp Hok Hn) as [U HU].
  destruct (handle_ok_owned hp U Hok Hn HU) as (b & Hb & C & O).
  unfold cloned_ptr_copy. rewrite operator_bool_true, Hb by done. simpl.
  apply safe_assoc. eapply safe_clone_k; [exact O|done|exact Hobj|..].
  - by apply He.
  - apply He, insert_subseteq, fresh_address_unused.
  - intros c Cc Oc.
    assert (target c = fresh_address H) as Ht
      by (unfold target; by rewrite Oc).
    destruct (coherent_ptr c Cc) as [P|P]; rewrite P;
      apply safe_ret_k, Hf; try done; [left|right]; congruence.
Qed.

(** The adapter of [dynamic_pointer_cast] around a fresh copy. *)
Lemma safe_dynamic_adapter (T : class) obj c x H V :
  coherent c -> ptr c = Some x ->
  H !! target c = Some (Obj obj) -> target c ≠ nullptr ->
  x = target c ∨ x = nullptr ->
  safe (at_ H V)
    (a' ← dynamic_cast is_base_of T x;
     cb ← make_unique_dynamic_casting is_base_of T (Some c);
     mret {| ptr_ := a'; cb_ := Some cb |})
    (fun h s => at_ H V s ∧ handle_ok h
                ∧ target_of (cb_ h) = target c)
    (at_ H V).
Proof.
  intros C P Hobj Hn Hx s [Hh Hv].
  set (y := if decide (x = nullptr) then nullptr
            else if is_base_of T (dyn obj) then x else nullptr).
  assert (∀ s0, heap s0 = H -> dynamic_cast is_base_of T x s0 = (Ok y, s0))
    as Hcast.
  { intros s0 H0. unfold y. destruct Hx as [->| ->].
    - rewrite decide_False by done.
      by rewrite dynamic_cast_live with (o := obj) by (done || by rewrite H0).
    - by rewrite decide_True. }
  rewrite run_bind, Hcast by done.
  unfold make_unique_dynamic_casting. rewrite !run_bind.
  destruct (may_fail bad_alloc s) as [r1 s1] eqn:E1.
  destruct (may_fail_inv _ _ _ _ E1) as (H1 & V1 & [-> | ->]);
    [|split; congruence].
  rewrite P, run_bind, Hcast by congruence. simpl.
  split; [split; congruence|]. split; [|apply target_dynamic_casting].
  intros Hy. simpl in Hy. eexists. split; [done|]. split; [|done].
  simpl. split; [done|]. right. unfold y in *.
  destruct Hx as [->| ->]; [|by rewrite decide_True in Hy].
  rewrite decide_False in Hy |- * by done.
  by destruct (is_base_of T (dyn obj)).
Qed.

(** *** Every operation *)

Ltac lookup_var :=
  simpl; repeat (rewrite lookup_insert_ne by done);
  first [eassumption | apply lookup_insert_eq].

Ltac step :=
  lazymatch goal with
  | |- safe _ ((_ ≫= _) ≫= _) _ _ => apply safe_assoc
  | |- safe _ (mret _ ≫= _) _ _ => apply safe_ret_k
  | |- safe _ (read _ ≫= _) _ _ => eapply safe_read_k; [lookup_var|]
  | |- safe _ (write _ _ ≫= _) _ _ => apply safe_write_k
  | |- safe _ (forget _ ≫= _) _ _ => apply safe_forget_k
  | |- safe _ (set_ptr_ _ _ ≫= _) _ _ => eapply safe_set_ptr_k; [lookup_var|]
  | |- safe _ (set_cb_ _ _ ≫= _) _ _ => eapply safe_set_cb_k; [lookup_var|]
  | |- safe _ (make_unique _ ≫= _) _ _ =>
      apply safe_make_unique_k; [apply owns_at_E; try assumption|]
  | |- safe _ (new_ _ ≫= _) _ _ =>
      apply safe_new_k; [apply owns_at_E; try assumption|]
  | |- safe _ (mret _) _ _ => apply safe_ret, owns_at_E
  | |- safe _ (_ ≫= _) _ _ => fail
  | |- safe _ _ _ _ => apply safe_tail
  end.

Lemma run_safe (o : operation class) s0 :
  owns_ok s0 -> admissible o s0 ->
  safe (at_ (heap s0) (vars s0)) (run is_base_of o)
    (fun _ => owns_ok) owns_ok.
Proof.
  intros Hown0 Hadm.
  pose proof (owns_at_intro s0 Hown0) as Hown.
  assert (∃ H V, H = heap s0 ∧ V = vars s0) as (H & V & EH & EV)
    by by eexists _, _.
  rewrite <- EH, <- EV in Hown |- *.
  assert (match o with
          | Default _ | Make _ _ _ => True
          | FromPointer _ _ u =>
              u = nullptr
              ∨ (∃ x, H !! u = Some (Obj x))
                ∧ ∀ y hy, V !! y = Some hy -> target_of (cb_ hy) ≠ u
          | Copy _ p | ConvertCopy _ p | Move _ p | ConvertMove _ p
          | StaticPointerCast _ p | DynamicPointerCast _ _ p
          | ConstPointerCast _ p => ∃ hp, V !! p = Some hp
          | Destructor this | Release this => ∃ ht, V !! this = Some ht
          | CopyAssign this p | ConvertCopyAssign this p | MoveAssign this p
          | ConvertMoveAssign this p | Swap this p =>
              (∃ ht, V !! this = Some ht) ∧ ∃ hp, V !! p = Some hp
          | Reset this _ u | ResetDerived this _ u =>
              ∃ h, V !! this = Some h
                   ∧ (u = ptr_ h
                      ∨ u = nullptr
                      ∨ (∃ x, H !! u = Some (Obj x))
                        ∧ ∀ y hy, V !! y = Some hy -> target_of (cb_ hy) ≠ u)
          end) as Hadm'.
  { subst H V. destruct o; exact Hadm. }
  clear Hadm Hown0 EH EV s0. rename Hadm' into Hadm.
  destruct o; simpl in Hadm |- *;
    unfold copy_construct, convert_copy_construct, declare.
  - (* Default *)
    unfold cloned_ptr_default. repeat step.
    apply owns_at_write; [done|apply handle_ok_empty|by left|done].
  - (* FromPointer *)
    unfold cloned_ptr_from. case_decide.
    + repeat step.
      apply owns_at_write; [done|apply handle_ok_empty|by left|done].
    + destruct Hadm as [?|[Hlive Hun]]; [done|].
      repeat step.
      apply owns_at_write; [done|by apply handle_ok_intro|by right|].
      intros y hy _ Hy Heq. by destruct (Hun y hy Hy).
  - (* Make *)
    assert (H ⊆ <[fresh_address H := Obj {| dyn := T; members := ms |}]> H)
      as Hsub by apply insert_subseteq, fresh_address_unused.
    unfold make_cloned_ptr, cloned_ptr_from. repeat step.
    rewrite decide_False by apply fresh_address_not_null.
    repeat step.
    + by apply (owns_at_grow H).
    + apply (owns_at_adopt_fresh H);
        [done|done|by apply handle_ok_intro
        |right; eexists; apply lookup_insert_eq
        |right; apply fresh_address_unused].
  - (* Copy *)
    destruct Hadm as [hp Hp].
    destruct (owns_at_lookup H V p hp Hown Hp) as [Hok Hl].
    repeat step. apply safe_copy_k; [done| | |].
    + intros Hn.
      destruct (owns_at_observed H V p hp Hown Hp Hn)
        as (b & U & o & _ & _ & _ & _ & _ & Hobj). by exists o.
    + intros H' Hsub. by apply owns_at_E, (owns_at_grow H).
    + intros H' tmp Hfc.
      destruct (fresh_copy_facts H H' tmp Hfc)
        as (Hsub & Hok' & Hl' & Hw & Hfr & _).
      repeat step. by apply (owns_at_adopt_fresh H).
  - (* ConvertCopy *)
    destruct Hadm as [hp Hp].
    destruct (owns_at_lookup H V p hp Hown Hp) as [Hok Hl].
    unfold cloned_ptr_convert_copy.
    repeat step. apply safe_copy_k; [done| | |].
    + intros Hn.
      destruct (owns_at_observed H V p hp Hown Hp Hn)
        as (b & U & o & _ & _ & _ & _ & _ & Hobj). by exists o.
    + intros H' Hsub. by apply owns_at_E, (owns_at_grow H).
    + intros H' tmp Hfc.
      destruct (fresh_copy_facts H H' tmp Hfc)
        as (Hsub & Hok' & Hl' & Hw & Hfr & _).
      repeat step.
      eapply safe_adapter_k; [exact Hfc|by apply owns_at_E|].
      repeat step.
      apply (owns_at_adopt_fresh H); simpl;
        rewrite ?target_delegating;
        [done|done|by apply handle_ok_delegating|done|done].
  - (* Move *)
    destruct Hadm as [hp Hp]. unfold move_construct.
    repeat step. rewrite insert_insert_eq.
    apply owns_at_move with (hp := hp); [done|done| |done].
    destruct (owns_at_lookup H V p hp Hown Hp) as [Hok _].
    by rewrite handle_eta.
  - (* ConvertMove *)
    destruct Hadm as [hp Hp]. unfold convert_move_construct.
    repeat step. rewrite insert_insert_eq.
    apply owns_at_move with (hp := hp);
      [done|done| |simpl; apply target_delegating].
    destruct (owns_at_lookup H V p hp Hown Hp) as [Hok _].
    by apply handle_ok_delegating.
  - (* Destructor *)
    destruct Hadm as [ht Hthis]. unfold destructor.
    destruct (owns_at_lookup H V this ht Hown Hthis) as [Hok Hl].
    repeat step. apply safe_reset_unique_k; [done|].
    repeat step.
    apply owns_at_delete; [by apply owns_at_forget|].
    intros y hy. rewrite lookup_delete. case_decide; [done|].
    intros Hy Heq. rewrite <- Heq.
    by apply (owns_at_distinct H V y this hy ht).
  - (* CopyAssign *)
    destruct Hadm as [[ht Hthis] [hp Hp]]. unfold copy_assign.
    case_decide as Hsame; [by repeat step|].
    destruct (owns_at_lookup H V this ht Hown Hthis) as [Hokt Hlt].
    repeat step. destruct (operator_bool hp) eqn:Hbool; simpl.
    + apply operator_bool_spec in Hbool.
      destruct (owns_at_observed H V p hp Hown Hp Hbool)
        as (b & U & o & Hcb & C & O & _ & _ & Hobj).
      rewrite Hcb.
      assert (H ⊆ <[fresh_address H := Obj (copy_as is_base_of U o)]> H)
        as Hsub by apply insert_subseteq, fresh_address_unused.
      repeat step.
      eapply safe_clone_k; [exact O|done|exact Hobj|..].
      { by apply owns_at_E. }
      { by apply owns_at_E, (owns_at_grow H). }
      intros c Cc Oc.
      assert (target c = fresh_address H) as Ht
        by (unfold target; by rewrite Oc).
      destruct (coherent_ptr c Cc) as [P|P]; rewrite P; repeat step;
        (eapply safe_assign_cb_k;
         [lookup_var
         |simpl; destruct Hlt as [?|[o' Ho']]; [by left|right];
          exists o'; by apply (lookup_weaken H)
         |]);
        repeat step; simpl; rewrite insert_insert_eq;
        (apply owns_at_assign with (ht := ht);
         [by apply (owns_at_grow H)|done|by apply handle_ok_intro
         |right; simpl; rewrite Ht; eexists; apply lookup_insert_eq
         |simpl; rewrite Ht;
          apply (fresh_unowned H); [done|right; apply fresh_address_unused]]).
    + repeat step. eapply safe_assign_cb_k; [lookup_var|done|].
      repeat step. simpl. rewrite insert_insert_eq.
      apply owns_at_assign with (ht := ht);
        [done|done|apply handle_ok_empty|by left|done].
  - (* ConvertCopyAssign *)
    destruct Hadm as [[ht Hthis] [hp Hp]]. unfold convert_copy_assign.
    destruct (owns_at_lookup H V this ht Hown Hthis) as [Hokt Hlt].
    destruct (owns_at_lookup H V p hp Hown Hp) as [Hok Hl].
    repeat step. apply safe_copy_k; [done| | |].
    + intros Hn.
      destruct (owns_at_observed H V p hp Hown Hp Hn)
        as (b & U & o & _ & _ & _ & _ & _ & Hobj). by exists o.
    + intros H' Hsub. by apply owns_at_E, (owns_at_grow H).
    + intros H' tmp Hfc.
      destruct (fresh_copy_facts H H' tmp Hfc)
        as (Hsub & Hok' & Hl' & Hw & Hfr & _).
      repeat step.
      eapply safe_owning_make_unique_k; [exact Hfc|by apply owns_at_E|].
      eapply safe_assign_cb_k;
        [lookup_var
        |destruct Hlt as [?|[o' Ho']]; [by left|right];
         exists o'; by apply (lookup_weaken H)
        |].
      repeat step. simpl. rewrite insert_insert_eq.
      apply owns_at_assign with (ht := ht); simpl;
        rewrite ?target_delegating;
        [by apply (owns_at_grow H)|done|by apply handle_ok_delegating|done
        |by apply (fresh_unowned H)].
  - (* MoveAssign *)
    destruct Hadm as [[ht Hthis] [hp Hp]]. unfold move_assign.
    case_decide as Hsame; [by repeat step|].
    assert (this ≠ p) as Hne by (intros ->; done).
    destruct (owns_at_lookup H V this ht Hown Hthis) as [Hokt Hlt].
    destruct (owns_at_lookup H V p hp Hown Hp) as [Hok Hl].
    repeat step. eapply safe_assign_cb_k; [lookup_var|done|].
    repeat step. simpl.
    match goal with |- owns_at _ ?V' =>
      assert (V' = <[this := hp]> (<[p := empty_handle]> V)) as ->
    end.
    { apply map_eq. intros k. rewrite !lookup_insert.
      repeat case_decide; simplify_eq; by rewrite ?handle_eta. }
    apply owns_at_assign with (ht := ht);
      [apply owns_at_write; [done|apply handle_ok_empty|by left|done]
      |by rewrite lookup_insert_ne|done|done|].
    intros y hy. rewrite lookup_insert. case_decide.
    + intros [= <-] Heq. by rewrite <- Heq.
    + intros Hy Heq. rewrite <- Heq.
      by apply (owns_at_distinct H V y p hy hp).
  - (* ConvertMoveAssign *)
    destruct Hadm as [[ht Hthis] [hp Hp]]. unfold convert_move_assign.
    destruct (owns_at_lookup H V this ht Hown Hthis) as [Hokt Hlt].
    destruct (owns_at_lookup H V p hp Hown Hp) as [Hok Hl].
    set (h' := {| ptr_ := ptr_ hp;
                  cb_ := Some (delegating_control_block (cb_ hp)) |}).
    assert (handle_ok h') as Hok' by by apply handle_ok_delegating.
    assert (target_of (cb_ h') = target_of (cb_ hp)) as Ht'
      by apply target_delegating.
    destruct (decide (this = p)) as [->|Hne].
    + assert (ht = hp) as -> by congruence.
      repeat step. eapply safe_assign_cb_k; [lookup_var|by left|].
      repeat step. simpl. rewrite !insert_insert_eq.
      apply owns_at_write;
        [done|apply handle_ok_null|simpl; by rewrite target_delegating|].
      intros y hy Hy Hyp Heq. simpl in *.
      rewrite target_delegating in Heq |- *. rewrite <- Heq.
      by apply (owns_at_distinct H V y p hy hp).
    + repeat step. eapply safe_assign_cb_k; [lookup_var|done|].
      repeat step. simpl.
      match goal with |- owns_at _ ?V' =>
        assert (V' = <[this := h']> (<[p := empty_handle]> V)) as ->
      end.
      { apply map_eq. intros k. rewrite !lookup_insert.
        repeat case_decide; simplify_eq; done. }
      apply owns_at_assign with (ht := ht);
        [apply owns_at_write; [done|apply handle_ok_empty|by left|done]
        |by rewrite lookup_insert_ne|done|by rewrite Ht'|].
      rewrite Ht'. intros y hy. rewrite lookup_insert. case_decide.
      * intros [= <-] Heq. by rewrite <- Heq.
      * intros Hy Heq. rewrite <- Heq.
        by apply (owns_at_distinct H V y p hy hp).
  - (* Release *)
    destruct Hadm as [ht Hthis]. unfold cloned_ptr_release.
    repeat step. destruct (N.eqb (ptr_ ht) nullptr) eqn:Hnull;
      [by repeat step|].
    apply N.eqb_neq in Hnull.
    destruct (owns_at_observed H V this ht Hown Hthis Hnull)
      as (b & U & o & Hcb & C & _).
    destruct (release_coherent b C) as (x & b' & _ & R & Ht).
    rewrite Hcb, R. repeat step. simpl. rewrite insert_insert_eq.
    apply owns_at_write; [done|apply handle_ok_null|by left|].
    simpl. by intros.
  - (* Reset *)
    destruct Hadm as (ht & Hthis & Hu). unfold reset.
    destruct (owns_at_lookup H V this ht Hown Hthis) as [Hokt Hlt].
    repeat step. case_decide as Hsame; [by repeat step|].
    destruct Hu as [?|Hu]; [done|].
    unfold cloned_ptr_from. case_decide as Hnull.
    + repeat step. eapply safe_assign_cb_k; [lookup_var|done|].
      repeat step. simpl. rewrite insert_insert_eq.
      apply owns_at_assign with (ht := ht);
        [done|done|apply handle_ok_empty|by left|done].
    + destruct Hu as [?|[Hlive Hun]]; [done|].
      repeat step. eapply safe_assign_cb_k; [lookup_var|done|].
      repeat step. simpl. rewrite insert_insert_eq.
      apply owns_at_assign with (ht := ht);
        [done|done|by apply handle_ok_intro|by right|].
      simpl. intros y hy Hy Heq. by destruct (Hun y hy Hy).
  - (* ResetDerived *)
    destruct Hadm as (ht & Hthis & Hu). unfold reset_derived.
    destruct (owns_at_lookup H V this ht Hown Hthis) as [Hokt Hlt].
    repeat step. case_decide as Hsame; [by repeat step|].
    destruct Hu as [?|Hu]; [done|].
    unfold cloned_ptr_from. case_decide as Hnull.
    + repeat step.
      apply safe_owned_make_unique_k; [by left|by apply owns_at_E|].
      repeat step. eapply safe_assign_cb_k; [lookup_var|done|].
      repeat step. simpl. rewrite insert_insert_eq.
      apply owns_at_assign with (ht := ht);
        [done|done|apply handle_ok_null|by left|done].
    + destruct Hu as [?|[Hlive Hun]]; [done|].
      repeat step.
      apply safe_owned_make_unique_k; [by right| |].
      { apply owns_at_E, owns_at_delete; [done|].
        simpl. intros y hy Hy Heq. by destruct (Hun y hy Hy). }
      repeat step. eapply safe_assign_cb_k; [lookup_var|done|].
      repeat step. simpl. rewrite insert_insert_eq.
      apply owns_at_assign with (ht := ht);
        [done|done|by apply handle_ok_intro|by right|].
      simpl. intros y hy Hy Heq. by destruct (Hun y hy Hy).
  - (* Swap *)
    destruct Hadm as [[ht Hthis] [hp Hp]].
    intros s [Hh Hv].
    rewrite swap_spec with (ht := ht) (hp := hp) by (by rewrite Hv).
    apply (owns_at_swap H V this p ht hp Hown Hthis Hp); simpl; congruence.
  - (* StaticPointerCast *)
    destruct Hadm as [hp Hp].
    destruct (owns_at_lookup H V p hp Hown Hp) as [Hok Hl].
    unfold static_pointer_cast.
    repeat step. apply safe_copy_k; [done| | |].
    + intros Hn.
      destruct (owns_at_observed H V p hp Hown Hp Hn)
        as (b & U & o & _ & _ & _ & _ & _ & Hobj). by exists o.
    + intros H' Hsub. by apply owns_at_E, (owns_at_grow H).
    + intros H' tmp Hfc.
      destruct (fresh_copy_facts H H' tmp Hfc)
        as (Hsub & Hok' & Hl' & Hw & Hfr & _).
      repeat step.
      eapply safe_adapter_k; [exact Hfc|by apply owns_at_E|].
      repeat step.
      apply (owns_at_adopt_fresh H); simpl;
        rewrite ?target_downcasting;
        [done|done|by apply handle_ok_downcasting|done|done].
  - (* DynamicPointerCast *)
    destruct Hadm as [hp Hp].
    destruct (owns_at_lookup H V p hp Hown Hp) as [Hok Hl].
    unfold dynamic_pointer_cast, get.
    assert (ptr_ hp ≠ nullptr -> ∃ o, H !! ptr_ hp = Some (Obj o)) as Hlive.
    { intros Hn.
      destruct (owns_at_observed H V p hp Hown Hp Hn)
        as (b & U & o & _ & _ & _ & _ & _ & Hobj). by exists o. }
    repeat step. apply safe_dynamic_cast_k.
    { destruct (decide (ptr_ hp = nullptr)); [by left|right; auto]. }
    intros y [->|(-> & Hn & _)].
    + simpl. unfold cloned_ptr_default. repeat step.
      apply owns_at_write; [done|apply handle_ok_empty|by left|done].
    + apply N.eqb_neq in Hn as Hb. rewrite Hb. apply N.eqb_neq in Hb.
      repeat step. apply safe_copy_live_k; [done|done|by apply Hlive| |].
      * intros H' Hsub. by apply owns_at_E, (owns_at_grow H).
      * intros obj c x C P Ht Hx.
        assert (H ⊆ <[fresh_address H := Obj obj]> H) as Hsub
          by apply insert_subseteq, fresh_address_unused.
        eapply safe_owning_k; simpl.
        -- right. rewrite Ht. eexists. apply lookup_insert_eq.
        -- apply (safe_dynamic_adapter T obj c x);
             [done|done|rewrite Ht; apply lookup_insert_eq
             |rewrite Ht; apply fresh_address_not_null
             |by rewrite Ht].
        -- rewrite Ht, without_fresh
             by (apply fresh_address_not_null || apply fresh_address_unused).
           by apply owns_at_E.
        -- intros h'. intros s (Hs & Hok' & Ht').
           revert s Hs.
           change (safe (at_ (<[fresh_address H := Obj obj]> H) V)
                     (write this h' ≫= mret) (fun _ => owns_ok) owns_ok).
           repeat step.
           apply (owns_at_adopt_fresh H);
             [done|done|done
             |right; rewrite Ht', Ht; eexists; apply lookup_insert_eq
             |right; rewrite Ht', Ht; apply fresh_address_unused].
  - (* ConstPointerCast *)
    destruct Hadm as [hp Hp].
    destruct (owns_at_lookup H V p hp Hown Hp) as [Hok Hl].
    unfold const_pointer_cast.
    repeat step. apply safe_copy_k; [done| | |].
    + intros Hn.
      destruct (owns_at_observed H V p hp Hown Hp Hn)
        as (b & U & o & _ & _ & _ & _ & _ & Hobj). by exists o.
    + intros H' Hsub. by apply owns_at_E, (owns_at_grow H).
    + intros H' tmp Hfc.
      destruct (fresh_copy_facts H H' tmp Hfc)
        as (Hsub & Hok' & Hl' & Hw & Hfr & _).
      repeat step.
      eapply safe_adapter_k; [exact Hfc|by apply owns_at_E|].
      repeat step.
      apply (owns_at_adopt_fresh H); simpl;
        rewrite ?target_const_casting;
        [done|done|by apply handle_ok_const_casting|done|done].
Qed.

(** Memory safety of [cloned_ptr].  In a state where every handle
    satisfies its invariant and owns nothing or a live object, and no two
    handles own the same object, every public operation on handles of the
    state (adopting only null or a live object that no handle owns) returns
    or throws, whatever failures are scheduled: it never deletes an object
    twice, never deletes or reads an object that is gone, and never calls
    through a null control block.  The state it leaves satisfies the same
    three conditions again, also when it throws. *)
Theorem operations_keep_ownership (o : operation class) s :
  owns_ok s -> admissible o s ->
  ∃ r s',
    run is_base_of o s = (r, s') ∧ completes r ∧ owns_ok s'.
Proof.
  intros Hown Hadm.
  pose proof (run_safe o s Hown Hadm s (conj eq_refl eq_refl)) as Hs.
  destruct (run is_base_of o s) as [[[]|e| |] s'] eqn:E; try done;
    eexists _, _; (split; [reflexivity|]); split; done.
Qed.

(** ** [clone()] through the adapters *)

(** [clone()] on a chain of control blocks that holds a live object, under
    every schedule of failures.  It returns or throws.  When it returns,
    the new chain has the adapters of the old one, is coherent, binds the
    same class and holds the copy made by that class's copy constructor at
    an address not in use before; destroying it gives the free store back.
    When it throws, the free store is as before or holds the copy besides.
    No cell that existed is changed.  When the chain inside an adapter has
    been cloned and the allocation of the adapter's own block fails, the
    clone is destroyed: [bad_alloc] leaves with the free store as it
    was. *)
Theorem clone_outcomes b U a o s :
  owned b = Some (U, a) -> a ≠ nullptr ->
  heap s !! a = Some (Obj o) ->
  let a' := fresh_address (heap s) in
  let grown := <[a' := Obj (copy_as is_base_of U o)]> (heap s) in
  heap s ⊆ grown
  ∧ (∃ r s',
       clone is_base_of b s = (r, s') ∧ vars s' = vars s
       ∧ match r with
         | Ok c =>
             coherent c ∧ owned c = Some (U, a') ∧ adapters c = adapters b
             ∧ heap s' = grown
             ∧ destroy c s' = (Ok (), set_heap (heap s) s')
         | Throw _ => heap s' = heap s ∨ heap s' = grown
         | AssertionFailed | Undefined => False
         end)
  ∧ (∀ c s1 orc,
       clone is_base_of b s = (Ok c, s1) -> oracle s1 = false :: orc ->
       let back := {| heap := heap s; oracle := orc; vars := vars s |} in
       clone is_base_of (delegating_control_block (Some b)) s
       = (Throw bad_alloc, back)
       ∧ clone is_base_of (downcasting_delegating_control_block (Some b)) s
         = (Throw bad_alloc, back)
       ∧ clone is_base_of (const_casting_delegating_control_block (Some b)) s
         = (Throw bad_alloc, back)
       ∧ ∀ T x,
           clone is_base_of
             (dynamic_casting_delegating_control_block T (Some b) x) s
           = (Throw bad_alloc, back)).
Proof.
  intros Hown Hn Hobj a' grown.
  assert (heap s !! a' = None) as Hf by apply fresh_address_unused.
  assert (a' ≠ nullptr) as Hn' by apply fresh_address_not_null.
  split; [by apply insert_subseteq|]. split.
  - destruct (clone is_base_of b s) as [r s'] eqn:E.
    destruct (clone_inv b U a o s r s' Hown Hn Hobj E) as [V' Hr].
    exists r, s'. split; [done|]. split; [done|].
    destruct r as [c| | |]; try done.
    destruct Hr as (C & O & H' & Ad). do 4 (split; [done|]).
    rewrite destroy_target. unfold target. rewrite O.
    rewrite delete_deletable.
    + fold a'. rewrite H'. unfold grown. by rewrite without_fresh.
    + right. rewrite H'. eexists. apply lookup_insert_eq.
  - intros c s1 orc E Horc back.
    destruct (clone_inv b U a o s _ _ Hown Hn Hobj E)
      as (V1 & C & O & H1 & _).
    assert (target c = a') as Ht by (unfold target; by rewrite O).
    assert (deletable (set_oracle orc s1) (target c)) as D.
    { right. simpl. rewrite Ht, H1. eexists. apply lookup_insert_eq. }
    assert (∀ X, owning (Some c) (make_unique X) s1 = (Throw bad_alloc, back))
      as Hroll.
    { intros X. unfold owning, try_catch_rethrow, make_unique.
      rewrite run_bind, may_fail_head with (orc := orc) by done.
      unfold bind. rewrite reset_unique_target. simpl.
      rewrite delete_deletable by done. simpl.
      rewrite Ht, H1. unfold back. fold a'.
      rewrite without_fresh by done. unfold throw, set_heap. simpl.
      by rewrite V1. }
    simpl. rewrite !run_bind, E, !Hroll. do 3 (split; [done|]).
    intros T x. rewrite run_bind, E.
    unfold owning, try_catch_rethrow, make_unique_dynamic_casting.
    rewrite run_bind, may_fail_head with (orc := orc) by done.
    unfold bind. rewrite reset_unique_target. simpl.
    rewrite delete_deletable by done. simpl.
    rewrite Ht, H1. unfold back. fold a'.
    rewrite without_fresh by done. unfold throw, set_heap. simpl.
    by rewrite V1.
Qed.

End Lifetime.

(** * Lifetimes of the objects that a [polymorphic_value] owns *)

Section Values.

Context {class : Type} `{EqDecision class}.
Variable is_base_of : class -> class -> bool.
Variable NDEBUG : bool.
Variable is_polymorphic : class -> bool.

Implicit Types (s : state class) (o : object class).
Implicit Types (b c : @pv.control_block class).
Implicit Types (v : @pv.polymorphic_value class).

#[local] Abbreviation M := (M class).

(** ** Every outcome of the allocation helpers *)

Lemma allocate_inv s r s' :
  allocate s = (r, s') ->
  vars s' = vars s
  ∧ match r with
    | Ok a => a = fresh_address (heap s) ∧ heap s' = <[a := Raw]> (heap s)
    | Throw e => e = bad_alloc ∧ heap s' = heap s
    | AssertionFailed | Undefined => False
    end.
Proof.
  unfold allocate. rewrite run_bind.
  destruct (may_fail bad_alloc s) as [r1 s1] eqn:E.
  destruct (may_fail_inv _ _ _ _ E) as (Hh & Hv & [-> | ->]).
  - rewrite !run_bind. simpl. intros [= <- <-]. simpl.
    rewrite Hh. auto.
  - intros [= <- <-]. auto.
Qed.

Lemma allocate_object_block_inv s r s' :
  pv.allocate_object pv.construct_block s = (r, s') ->
  vars s' = vars s
  ∧ match r with
    | Ok a => a = fresh_address (heap s) ∧ heap s' = <[a := Block]> (heap s)
    | Throw e => e = bad_alloc ∧ heap s' = heap s
    | AssertionFailed | Undefined => False
    end.
Proof.
  unfold pv.allocate_object. rewrite run_bind.
  destruct (allocate s) as [r1 s1] eqn:E.
  destruct (allocate_inv _ _ _ E) as [V1 Hr1].
  destruct r1 as [a| | |]; try done; [|intros [= <- <-]; auto].
  destruct Hr1 as [-> H1].
  unfold try_catch_rethrow, pv.construct_block. rewrite !run_bind. simpl.
  intros [= <- <-]. simpl. rewrite H1, insert_insert_eq. auto.
Qed.

Lemma allocate_object_copy_inv (U : class) src s r s' :
  pv.allocate_object (pv.construct_copy is_base_of U src) s = (r, s') ->
  vars s' = vars s
  ∧ match r with
    | Ok a =>
        a = fresh_address (heap s) ∧ src ≠ nullptr
        ∧ ∃ o, heap s !! src = Some (Obj o)
               ∧ heap s' = <[a := Obj (copy_as is_base_of U o)]> (heap s)
    | Throw _ => heap s' = heap s
    | AssertionFailed => False
    | Undefined => src = nullptr ∨ ∀ o, heap s !! src ≠ Some (Obj o)
    end.
Proof.
  unfold pv.allocate_object. rewrite run_bind.
  destruct (allocate s) as [r1 s1] eqn:E.
  destruct (allocate_inv _ _ _ E) as [V1 Hr1].
  destruct r1 as [a| | |]; try done; [|intros [= <- <-]; by destruct Hr1].
  destruct Hr1 as [-> H1].
  assert (∀ o, heap s1 !! src = Some (Obj o) -> heap s !! src = Some (Obj o))
    as Hsrc.
  { intros o. rewrite H1, lookup_insert. by case_decide. }
  unfold try_catch_rethrow, pv.construct_copy. rewrite !run_bind.
  destruct (deref src s1) as [r2 s2] eqn:E2.
  destruct (deref_inv _ _ _ _ E2) as [-> Hr2].
  destruct r2 as [o| | |]; try done.
  - destruct Hr2 as [Hn Hobj]. unfold construct. rewrite !run_bind.
    destruct (may_fail constructor_exception s1) as [r3 s3] eqn:E3.
    destruct (may_fail_inv _ _ _ _ E3) as (H3 & V3 & [-> | ->]).
    + simpl. intros [= <- <-]. simpl. split; [congruence|].
      split; [done|]. split; [done|]. exists o. split; [by apply Hsrc|].
      by rewrite H3, H1, insert_insert_eq.
    + unfold bind, deallocate. rewrite run_bind. simpl.
      intros [= <- <-]. simpl. split; [congruence|].
      rewrite H3, H1. apply delete_insert_id, fresh_address_unused.
  - intros [= <- <-]. split; [done|].
    destruct (decide (src = nullptr)) as [|Hn]; [by left|right].
    intros o Hobj. unfold deref in E2. rewrite decide_False in E2 by done.
    rewrite run_bind in E2. simpl in E2.
    rewrite H1, lookup_insert in E2. case_decide.
    + subst. by rewrite fresh_address_unused in Hobj.
    + by rewrite Hobj in E2.
Qed.

Lemma deallocate_object_live p o s :
  p ≠ nullptr -> heap s !! p = Some (Obj o) ->
  pv.deallocate_object pv.destroy_object p s
  = (Ok (), set_heap (delete p (heap s)) s).
Proof.
  intros Hn Hobj. unfold pv.deallocate_object, pv.destroy_object, deallocate.
  rewrite !run_bind, deref_live with (o := o) by done. simpl.
  rewrite run_bind. simpl. unfold set_heap. simpl.
  by rewrite delete_insert_eq.
Qed.

Lemma assert_inv (cond : bool) s r s' :
  pv.assert_ NDEBUG cond s = (r, s') ->
  s' = s ∧ (r = Ok () ∨ r = AssertionFailed ∧ cond = false ∧ NDEBUG = false).
Proof.
  unfold pv.assert_. destruct NDEBUG, cond; intros [= <- <-]; auto.
Qed.

Lemma copy_with_inv (g : object class -> object class) p s r s' :
  (o ← deref p; new_ (g o)) s = (r, s') ->
  vars s' = vars s
  ∧ match r with
    | Ok a =>
        a = fresh_address (heap s) ∧ p ≠ nullptr
        ∧ ∃ o, heap s !! p = Some (Obj o)
               ∧ heap s' = <[a := Obj (g o)]> (heap s)
    | Throw _ => heap s' = heap s
    | AssertionFailed => False
    | Undefined => True
    end.
Proof.
  rewrite run_bind. destruct (deref p s) as [r1 s1] eqn:E1.
  destruct (deref_inv _ _ _ _ E1) as [-> Hr1].
  destruct r1 as [o| | |]; try done; [|by intros [= <- <-]].
  destruct Hr1 as [Hn Hobj]. intros E2.
  destruct (new_inv _ _ _ _ E2) as [V2 Hr2]. split; [done|].
  destruct r as [a| | |]; try done.
  destruct Hr2 as [-> H2]. split; [done|]. split; [done|]. by exists o.
Qed.

(** Every outcome of [clone()] in [polymorphic_value.h]. *)
Lemma value_clone_inv b s r s' :
  pv.clone is_base_of NDEBUG b s = (r, s') ->
  vars s' = vars s
  ∧ match r with
    | Ok c =>
        ∃ a f o,
          pv.copied_by is_base_of b = Some (a, f)
          ∧ a ≠ nullptr ∧ heap s !! a = Some (Obj o)
          ∧ pv.copied_by is_base_of c = Some (fresh_address (heap s), f)
          ∧ pv.ptr c = Some (fresh_address (heap s))
          ∧ heap s' !! fresh_address (heap s) = Some (Obj (f o))
          ∧ heap s ⊆ heap s'
          ∧ (∀ x y, heap s' !! x = Some y ->
               heap s !! x = Some y ∨ x = fresh_address (heap s) ∨ y = Block)
          ∧ foldr delete (heap s') (pv.storage c) = heap s
    | Throw _ => heap s' = heap s
    | AssertionFailed | Undefined => True
    end.
Proof.
  assert (∀ (hp : gmap addr (cell class)) x,
            hp ⊆ <[fresh_address hp := x]> hp) as Hsub.
  { intros hp x. apply insert_subseteq, fresh_address_unused. }
  assert (∀ (hp : gmap addr (cell class)) z x y,
            <[fresh_address hp := z]> hp !! x = Some y ->
            hp !! x = Some y ∨ x = fresh_address hp ∨ y = Block) as Hnew.
  { intros hp z x y. rewrite lookup_insert. case_decide; auto. }
  revert s r s'.
  induction b as [U u|U p cp d|d IH|U p this]; simpl; intros s r s'.
  - rewrite run_bind.
    destruct (new_copy is_base_of U u s) as [r1 s1] eqn:E1.
    destruct (copy_with_inv _ _ _ _ _ E1) as [V1 Hr1].
    destruct r1 as [a| | |]; intros [= <- <-]; (split; [done|]); try done.
    destruct Hr1 as (-> & Hn & o & Hobj & H1).
    exists u, (copy_as is_base_of U), o. rewrite H1.
    do 5 (split; [done|]). split; [apply lookup_insert_eq|].
    split; [apply Hsub|]. split; [apply Hnew|].
    simpl. apply delete_insert_id, fresh_address_unused.
  - rewrite run_bind.
    destruct (pv.assert_ NDEBUG (negb (p =? nullptr)%N) s) as [r0 s0] eqn:E0.
    destruct (assert_inv _ _ _ _ E0) as [-> [-> |(-> & _)]];
      [|by intros [= <- <-]].
    rewrite run_bind.
    destruct (may_fail bad_alloc s) as [r1 s1] eqn:E1.
    destruct (may_fail_inv _ _ _ _ E1) as (H1 & V1 & [-> | ->]);
      [|by intros [= <- <-]].
    rewrite run_bind.
    destruct (pv.call_copier is_base_of cp U p s1) as [r2 s2] eqn:E2.
    assert (∃ f, pv.copied_by is_base_of (pv.pointer_control_block U p cp d)
                 = Some (p, f)
                 ∧ pv.call_copier is_base_of cp U p
                   = (o ← deref p; new_ (f o))) as (f & Hf & Hcall)
      by (destruct cp; eexists; split; reflexivity).
    rewrite Hcall in E2.
    destruct (copy_with_inv _ _ _ _ _ E2) as [V2 Hr2].
    destruct r2 as [a| | |]; intros [= <- <-]; (split; [congruence|]);
      try done; [|congruence].
    destruct Hr2 as (-> & Hn & o & Hobj & H2).
    exists p, f, o. rewrite H2, H1 in *.
    split; [exact Hf|]. do 2 (split; [done|]).
    split; [by destruct cp; injection Hf as <-|]. split; [done|].
    split; [apply lookup_insert_eq|]. split; [apply Hsub|].
    split; [apply Hnew|].
    simpl. apply delete_insert_id, fresh_address_unused.
  - destruct IH as [b IH|]; [|by intros [= <- <-]].
    rewrite run_bind.
    destruct (may_fail bad_alloc s) as [r1 s1] eqn:E1.
    destruct (may_fail_inv _ _ _ _ E1) as (H1 & V1 & [-> | ->]);
      [|by intros [= <- <-]].
    rewrite run_bind.
    destruct (pv.clone is_base_of NDEBUG b s1) as [r2 s2] eqn:E2.
    destruct (IH _ _ _ E2) as [V2 Hr2].
    destruct r2 as [c| | |]; intros [= <- <-]; (split; [congruence|]);
      try done; [|congruence].
    rewrite H1 in Hr2. exact Hr2.
  - rewrite run_bind.
    destruct (pv.assert_ NDEBUG (negb (p =? nullptr)%N) s) as [r0 s0] eqn:E0.
    destruct (assert_inv _ _ _ _ E0) as [-> [-> |(-> & _)]];
      [|by intros [= <- <-]].
    rewrite run_bind.
    destruct (pv.allocate_object (pv.construct_copy is_base_of U p) s)
      as [r1 s1] eqn:E1.
    destruct (allocate_object_copy_inv _ _ _ _ _ E1) as [V1 Hr1].
    destruct r1 as [a| | |]; try done; try (by intros [= <- <-]).
    destruct Hr1 as (-> & Hn & o & Hobj & H1).
    unfold try_catch_rethrow. rewrite run_bind.
    destruct (pv.allocate_object pv.construct_block s1) as [r2 s2] eqn:E2.
    destruct (allocate_object_block_inv _ _ _ E2) as [V2 Hr2].
    destruct r2 as [blk| | |]; try done.
    + destruct Hr2 as [-> H2]. intros [= <- <-]. split; [congruence|].
      exists p, (copy_as is_base_of U), o.
      assert (fresh_address (heap s1) ≠ fresh_address (heap s)) as Hne.
      { intros Heq. pose proof (fresh_address_unused (heap s1)) as F.
        by rewrite Heq, H1, lookup_insert_eq in F. }
      rewrite H2. do 5 (split; [done|]). split; [|split; [|split]].
      * rewrite lookup_insert_ne by done. rewrite H1. apply lookup_insert_eq.
      * trans (heap s1); [rewrite H1|]; apply Hsub.
      * intros x y. rewrite lookup_insert.
        case_decide; [intros [= <-]; auto|]. rewrite H1. apply Hnew.
      * simpl. rewrite delete_insert_id by apply fresh_address_unused.
        rewrite H1. apply delete_insert_id, fresh_address_unused.
    + destruct Hr2 as [-> H2]. unfold bind.
      rewrite deallocate_object_live with (o := copy_as is_base_of U o);
        [|apply fresh_address_not_null
         |rewrite H2, H1; apply lookup_insert_eq].
      intros [= <- <-]. simpl. split; [congruence|].
      rewrite H2, H1. apply delete_insert_id, fresh_address_unused.
Qed.

Lemma destroy_allocated (U : class) obj blk o s :
  obj ≠ nullptr -> heap s !! obj = Some (Obj o) ->
  pv.destroy (pv.allocated_pointer_control_block U obj blk) s
  = (Ok (), set_heap (delete blk (delete obj (heap s))) s).
Proof.
  intros Hn Hobj. simpl.
  unfold pv.deallocate_object at 1. unfold pv.destroy_block.
  rewrite !run_bind, deallocate_object_live with (o := o) by done.
  simpl. unfold deallocate. rewrite run_bind. simpl.
  unfold set_heap. simpl. by rewrite delete_insert_eq.
Qed.

Lemma value_destroy_spec b a f o s :
  pv.copied_by is_base_of b = Some (a, f) ->
  a ≠ nullptr -> heap s !! a = Some (Obj o) ->
  pv.destroy b s
  = (Ok (), set_heap (foldr delete (heap s) (pv.storage b)) s).
Proof.
  intros Hb Hn Hobj.
  induction b as [U u|U p cp d|d IH|U p this]; simpl in Hb.
  - injection Hb as -> <-. simpl.
    rewrite delete_deletable by (right; by exists o).
    unfold without. by rewrite decide_False.
  - injection Hb as -> <-. simpl.
    rewrite delete_deletable by (right; by exists o).
    unfold without. by rewrite decide_False.
  - destruct IH as [b IH|]; [by apply IH|done].
  - injection Hb as -> <-.
    rewrite (destroy_allocated U a this o) by done.
    simpl. by rewrite delete_delete.
Qed.

(** ** Copies *)

Lemma quiet_same_oracle s s' : oracle s' = oracle s -> quiet s -> quiet s'.
Proof. unfold quiet. by intros ->. Qed.

Lemma returns_allocate_object_block s :
  quiet s ->
  returns (pv.allocate_object pv.construct_block) s
    (fresh_address (heap s)) (<[fresh_address (heap s) := Block]> (heap s))
    (vars s).
Proof.
  intros Q. destruct (returns_may_fail bad_alloc s Q) as (s1 & E & H1 & V1 & Q1).
  eexists. split.
  - unfold pv.allocate_object, allocate, pv.construct_block,
      try_catch_rethrow.
    rewrite !run_bind, E. simpl. rewrite H1. reflexivity.
  - simpl. by rewrite V1, insert_insert_eq.
Qed.

Lemma returns_allocate_object_copy (U : class) p o s :
  quiet s -> p ≠ nullptr -> heap s !! p = Some (Obj o) ->
  returns (pv.allocate_object (pv.construct_copy is_base_of U p)) s
    (fresh_address (heap s))
    (<[fresh_address (heap s) := Obj (copy_as is_base_of U o)]> (heap s))
    (vars s).
Proof.
  intros Q Hn Hobj.
  destruct (returns_may_fail bad_alloc s Q) as (s1 & E & H1 & V1 & Q1).
  destruct (returns_may_fail constructor_exception
              (set_heap (<[fresh_address (heap s) := Raw]> (heap s)) s1))
    as (s2 & E2 & H2 & V2 & Q2); [done|].
  assert (fresh_address (heap s) ≠ p) as Hne.
  { intros Heq. rewrite <- Heq, fresh_address_unused in Hobj. done. }
  eexists. split.
  - unfold pv.allocate_object, allocate, pv.construct_copy, construct,
      try_catch_rethrow.
    rewrite !run_bind, E. simpl. rewrite !run_bind, H1.
    rewrite deref_live with (o := o);
      [|done|simpl; rewrite lookup_insert_ne; done].
    rewrite !run_bind, E2. simpl. reflexivity.
  - simpl in *. by rewrite H2, V2, V1, insert_insert_eq.
Qed.

(** With no failure scheduled, [clone()] returns. *)
Lemma returns_value_clone b a f o s :
  quiet s ->
  pv.copied_by is_base_of b = Some (a, f) ->
  a ≠ nullptr -> heap s !! a = Some (Obj o) ->
  ∃ c s', pv.clone is_base_of NDEBUG b s = (Ok c, s') ∧ quiet s'.
Proof.
  intros Q Hb Hn Hobj. revert s Q Hobj.
  assert (∀ cond s, cond = true -> pv.assert_ NDEBUG cond s = (Ok (), s))
    as Hassert.
  { intros cond s ->. unfold pv.assert_. by destruct NDEBUG. }
  assert ((a =? nullptr)%N = false) as Hb' by by apply N.eqb_neq.
  induction b as [U u|U p cp d|d IH|U p this]; simpl in *; intros s Q Hobj.
  - injection Hb as -> <-.
    destruct (returns_new (copy_as is_base_of U o) s Q)
      as (s1 & E1 & H1 & V1 & Q1).
    unfold new_copy.
    rewrite !run_bind, deref_live with (o := o), E1 by done. by eexists _, _.
  - injection Hb as -> <-. rewrite run_bind, Hassert by by rewrite Hb'.
    destruct (returns_may_fail bad_alloc s Q) as (s1 & E1 & H1 & V1 & Q1).
    rewrite run_bind, E1.
    destruct (returns_new
                (match cp with
                 | pv.default_copy => copy_as is_base_of U
                 | pv.custom_copy g => g
                 end o) s1 Q1) as (s2 & E2 & H2 & V2 & Q2).
    unfold pv.call_copier, new_copy.
    destruct cp; rewrite !run_bind, deref_live with (o := o), E2
      by (done || by rewrite H1); by eexists _, _.
  - destruct IH as [b IH|]; [|done].
    destruct (returns_may_fail bad_alloc s Q) as (s1 & E1 & H1 & V1 & Q1).
    destruct (IH Hb s1 Q1) as (c & s2 & E2 & Q2); [by rewrite H1|].
    rewrite !run_bind, E1, run_bind, E2. by eexists _, _.
  - injection Hb as -> <-. rewrite run_bind, Hassert by by rewrite Hb'.
    destruct (returns_allocate_object_copy U a o s Q Hn Hobj)
      as (s1 & E1 & H1 & V1 & Q1).
    destruct (returns_allocate_object_block s1 Q1)
      as (s2 & E2 & H2 & V2 & Q2).
    rewrite run_bind, E1. unfold try_catch_rethrow.
    rewrite run_bind, E2. by eexists _, _.
Qed.

(** Copying a [polymorphic_value] that holds a live object, with no
    failure scheduled: [clone()] returns a chain of blocks that holds a new
    object at an address not in use before, the result of the copy
    constructor of the bound class or of the user's copier on the object
    held, and that copies in the same way; every cell of the free store is
    as before, and besides the new object only control blocks of an
    allocator have appeared.  The copy constructor of the value observes
    the new object.  Destroying the new chain gives the free store back. *)
Theorem value_copy_is_deep v b a f o s :
  quiet s ->
  pv.cb_ v = Some b ->
  pv.copied_by is_base_of b = Some (a, f) ->
  a ≠ nullptr -> heap s !! a = Some (Obj o) ->
  let a' := fresh_address (heap s) in
  ∃ c s',
    pv.clone is_base_of NDEBUG b s = (Ok c, s')
    ∧ pv.polymorphic_value_copy is_base_of NDEBUG v s
      = (Ok {| pv.ptr_ := a'; pv.cb_ := Some c |}, s')
    ∧ quiet s' ∧ vars s' = vars s
    ∧ pv.copied_by is_base_of c = Some (a', f)
    ∧ pv.ptr c = Some a'
    ∧ a' ≠ a ∧ a' ≠ nullptr ∧ heap s !! a' = None
    ∧ heap s' !! a' = Some (Obj (f o))
    ∧ heap s' !! a = Some (Obj o)
    ∧ heap s ⊆ heap s'
    ∧ (∀ x y, heap s' !! x = Some y ->
         heap s !! x = Some y ∨ x = a' ∨ y = Block)
    ∧ pv.destroy c s' = (Ok (), set_heap (heap s) s').
Proof.
  intros Q Hcb Hb Hn Hobj a'.
  destruct (returns_value_clone b a f o s Q Hb Hn Hobj) as (c & s' & E & Q').
  destruct (value_clone_inv b s _ _ E)
    as (V' & a0 & f0 & o0 & Hb0 & _ & Hobj0 & Hc & P & Hnew & Hsub & Hrest
        & Hback).
  assert (a0 = a ∧ f0 = f) as [-> ->] by (split; congruence).
  assert (o0 = o) as -> by congruence.
  exists c, s'. split; [done|]. split.
  { unfold pv.polymorphic_value_copy, pv.operator_bool. rewrite Hcb. simpl.
    by rewrite run_bind, E, P. }
  do 4 (split; [done|]). split.
  { intros Heq. unfold a' in Heq.
    rewrite <- Heq, fresh_address_unused in Hobj. done. }
  split; [apply fresh_address_not_null|].
  split; [apply fresh_address_unused|]. split; [done|].
  split; [by apply (lookup_weaken (heap s))|]. split; [done|].
  split; [done|].
  rewrite (value_destroy_spec c a' f (f o)), Hback;
    [done|done|apply fresh_address_not_null|done].
Qed.

(** When [clone()] throws, in any of the four kinds of control block and
    through any number of delegating blocks, the free store and the handles
    are as they were: the copy that had been made is destroyed and its
    storage given back before the exception leaves.  The same holds for
    the copy constructor of the value. *)
Theorem value_clone_failure_restores_store v b s e s' :
  pv.clone is_base_of NDEBUG b s = (Throw e, s') ->
  heap s' = heap s ∧ vars s' = vars s
  ∧ (pv.cb_ v = Some b ->
     pv.polymorphic_value_copy is_base_of NDEBUG v s = (Throw e, s')).
Proof.
  intros E. destruct (value_clone_inv b s _ _ E) as [V' H'].
  split; [done|]. split; [done|].
  intros Hcb. unfold pv.polymorphic_value_copy, pv.operator_bool.
  rewrite Hcb. simpl. by rewrite run_bind, E.
Qed.

(** ** Construction *)

(** The allocation of the control block fails while a constructor adopts a
    pointer [u] to a live object of the pointer's static class.  The
    pointer constructor of [polymorphic_value] holds [u] in a local
    [unique_ptr], whose deleter releases the object before [bad_alloc]
    leaves; the allocator constructor and [cloned_ptr(U *u)] have no such
    guard, and the object stays alive, owned by nobody. *)
Theorem construction_failure_and_the_adopted_object
    (NO_RTTI : bool) (U : class) u o cp d orc s :
  u ≠ nullptr -> heap s !! u = Some (Obj o) -> dyn o = U ->
  oracle s = false :: orc ->
  pv.polymorphic_value_from NO_RTTI is_polymorphic U u cp d s
  = (Throw bad_alloc,
     {| heap := delete u (heap s); oracle := orc; vars := vars s |})
  ∧ delete u (heap s) !! u = None
  ∧ pv.polymorphic_value_from_allocated NO_RTTI is_polymorphic U u s
    = (Throw bad_alloc, set_oracle orc s)
  ∧ cloned_ptr_from U u s = (Throw bad_alloc, set_oracle orc s)
  ∧ heap (set_oracle orc s) !! u = Some (Obj o).
Proof.
  intros Hn Hobj Hdyn Horc. split; [|split; [|split; [|split]]].
  - unfold pv.polymorphic_value_from. rewrite decide_False by done.
    rewrite run_bind.
    match goal with |- (let (_, _) := ?m s in _) = _ =>
      assert (m s = (Ok (), s)) as -> end.
    { destruct NO_RTTI; [done|].
      destruct (pv.is_default_delete d && pv.is_default_copy cp); [|done].
      rewrite run_bind, typeid_differs_live with (o := o) by done.
      rewrite bool_decide_eq_true_2 by done. by rewrite andb_false_r. }
    unfold try_catch_rethrow.
    rewrite run_bind, may_fail_head with (orc := orc) by done.
    unfold bind. rewrite delete_deletable by (right; by exists o).
    simpl. unfold without. by rewrite decide_False.
  - apply lookup_delete_eq.
  - unfold pv.polymorphic_value_from_allocated. rewrite decide_False by done.
    rewrite run_bind.
    match goal with |- (let (_, _) := ?m s in _) = _ =>
      assert (m s = (Ok (), s)) as -> end.
    { destruct NO_RTTI; [done|].
      rewrite run_bind, typeid_differs_live with (o := o) by done.
      rewrite bool_decide_eq_true_2 by done. by rewrite andb_false_r. }
    unfold pv.allocate_object, allocate.
    by rewrite !run_bind, may_fail_head with (orc := orc).
  - unfold cloned_ptr_from, make_unique. rewrite decide_False by done.
    by rewrite !run_bind, may_fail_head with (orc := orc).
  - done.
Qed.

(** ** Creation functions *)

(** [allocate_polymorphic_value] under every schedule of failures.  It
    returns a value that holds the new object and a control block, both in
    storage of the allocator that was not in use, or it throws; it is never
    undefined.  When it throws, the free store is as before: the object
    that had been constructed is destroyed and deallocated when the block
    cannot be allocated.  Destroying the block of the value it returns
    gives back both the object and the block. *)
Theorem allocate_polymorphic_value_never_leaks (U : class) ms s :
  ∀ r s', pv.allocate_polymorphic_value U ms s = (r, s') ->
  let obj := fresh_address (heap s) in
  let o := {| dyn := U; members := ms |} in
  vars s' = vars s
  ∧ match r with
    | Ok v =>
        ∃ blk,
          v = {| pv.ptr_ := obj;
                 pv.cb_ := Some (pv.allocated_pointer_control_block U obj blk) |}
          ∧ blk ≠ obj ∧ heap s !! obj = None ∧ heap s !! blk = None
          ∧ heap s' = <[blk := Block]> (<[obj := Obj o]> (heap s))
          ∧ ∃ s'', pv.reset_unique (pv.cb_ v) s' = (Ok (), s'')
                   ∧ heap s'' = heap s ∧ vars s'' = vars s
    | Throw _ => heap s' = heap s
    | AssertionFailed | Undefined => False
    end.
Proof.
  intros r s' E obj o. unfold pv.allocate_polymorphic_value in E.
  rewrite run_bind in E.
  change (pv.allocate_object (fun mem => construct mem _))
    with (new_ o) in E.
  destruct (new_ o s) as [r1 s1] eqn:E1.
  destruct (new_inv _ _ _ _ E1) as [V1 Hr1].
  destruct r1 as [a| | |]; try done; [|by injection E as <- <-].
  destruct Hr1 as [-> H1]. fold obj in H1, E, E1.
  assert (heap s !! obj = None) as Hf by apply fresh_address_unused.
  assert (obj ≠ nullptr) as Hn by apply fresh_address_not_null.
  assert (heap s1 !! obj = Some (Obj o)) as Hobj
    by (rewrite H1; apply lookup_insert_eq).
  rewrite run_bind in E. unfold try_catch_rethrow in E.
  destruct (pv.allocate_object pv.construct_block s1) as [r2 s2] eqn:E2.
  destruct (allocate_object_block_inv _ _ _ E2) as [V2 Hr2].
  destruct r2 as [blk| | |]; try done.
  - destruct Hr2 as [-> H2]. injection E as <- <-. split; [congruence|].
    set (blk := fresh_address (heap s1)) in *.
    assert (heap s1 !! blk = None) as Hfb by apply fresh_address_unused.
    assert (blk ≠ obj) as Hne by (intros Heq; congruence).
    exists blk. split; [done|]. split; [done|]. split; [done|]. split.
    { rewrite H1, lookup_insert_ne in Hfb; done. }
    split; [by rewrite H2, H1|].
    eexists. split.
    + simpl pv.cb_. unfold pv.reset_unique.
      apply destroy_allocated with (o := o); [done|].
      rewrite H2, lookup_insert_ne; done.
    + simpl. split; [|congruence].
      rewrite H2, H1. apply map_eq. intros k.
      rewrite !lookup_delete, !lookup_insert.
      rewrite H1, lookup_insert_ne in Hfb by done.
      repeat case_decide; simplify_eq; done.
  - destruct Hr2 as [-> H2]. unfold bind in E.
    rewrite deallocate_object_live with (o := o) in E;
      [|done|by rewrite H2].
    injection E as <- <-. simpl. split; [congruence|].
    rewrite H2, H1. by apply delete_insert_id.
Qed.

(** [make_polymorphic_value] and the in-place constructor under every
    schedule of failures.  Both do the same: the value they return holds a
    new object of class [U] inside its control block and observes it, so
    that it is engaged, [operator*] yields the object, and destroying the
    block restores the free store; when they throw, the free store is as
    before. *)
Theorem make_polymorphic_value_round_trip (U : class) ms s :
  let a := fresh_address (heap s) in
  let o := {| dyn := U; members := ms |} in
  let v := {| pv.ptr_ := a; pv.cb_ := Some (pv.direct_control_block U a) |} in
  pv.polymorphic_value_in_place U ms s = pv.make_polymorphic_value U ms s
  ∧ (quiet s ->
     returns (pv.make_polymorphic_value U ms) s v
       (<[a := Obj o]> (heap s)) (vars s))
  ∧ pv.value_ok v ∧ pv.operator_bool v = true
  ∧ (∀ r s', pv.make_polymorphic_value U ms s = (r, s') ->
       vars s' = vars s
       ∧ match r with
         | Ok v' =>
             v' = v ∧ heap s' = <[a := Obj o]> (heap s)
             ∧ pv.operator_star NDEBUG v s' = (Ok o, s')
             ∧ pv.operator_arrow NDEBUG v s' = (Ok a, s')
             ∧ ∃ s'', pv.reset_unique (pv.cb_ v) s' = (Ok (), s'')
                      ∧ heap s'' = heap s
         | Throw _ => heap s' = heap s
         | AssertionFailed | Undefined => False
         end).
Proof.
  intros a o v.
  assert (a ≠ nullptr) as Hn by apply fresh_address_not_null.
  assert (heap s !! a = None) as Hf by apply fresh_address_unused.
  split; [|split; [|split; [|split]]].
  - unfold pv.polymorphic_value_in_place, pv.make_polymorphic_value.
    rewrite !run_bind. by destruct (new_ _ s) as [[]].
  - intros Q. destruct (returns_new o s Q) as (s1 & E1 & H1 & V1 & Q1).
    exists s1. split; [|done].
    change (pv.make_polymorphic_value U ms)
      with (u ← new_ o;
            mret {| pv.ptr_ := u;
                    pv.cb_ := Some (pv.direct_control_block U u) |}).
    by rewrite run_bind, E1.
  - split; [done|reflexivity].
  - reflexivity.
  - intros r s'.
    change (pv.make_polymorphic_value U ms)
      with (u ← new_ o;
            mret {| pv.ptr_ := u;
                    pv.cb_ := Some (pv.direct_control_block U u) |}).
    rewrite run_bind. destruct (new_ o s) as [r1 s1] eqn:E1.
    destruct (new_inv _ _ _ _ E1) as [V1 Hr1].
    destruct r1 as [x| | |]; try done; intros [= <- <-]; (split; [done|]);
      [|done].
    destruct Hr1 as [-> H1].
    assert (heap s1 !! a = Some (Obj o)) as Hobj
      by (rewrite H1; apply lookup_insert_eq).
    split; [done|]. split; [done|]. split; [|split].
    + unfold pv.operator_star, pv.assert_. simpl.
      destruct NDEBUG; by rewrite run_bind, run_ret, deref_live with (o := o).
    + unfold pv.operator_arrow, pv.assert_. simpl. by destruct NDEBUG.
    + simpl. rewrite delete_deletable by (right; by exists o).
      eexists. split; [done|]. simpl. rewrite H1. by apply without_fresh.
Qed.

(** ** Assignment, moves and [swap] of values *)

Lemma value_reset_unique_spec (u : option (@pv.control_block class)) s :
  pv.disposable is_base_of s u ->
  pv.reset_unique u s
  = (Ok (), set_heap (foldr delete (heap s) (pv.storage_of u)) s).
Proof.
  destruct u as [b|]; simpl.
  - intros (a & f & o & Hb & Hn & Hobj). by apply value_destroy_spec with a f o.
  - intros _. by destruct s.
Qed.

Lemma read_value_lookup (x : var) v (V : gmap var (@pv.polymorphic_value class)) s :
  V !! x = Some v -> pv.read_value x V s = (Ok v, s).
Proof. intros E. unfold pv.read_value. by rewrite E. Qed.

Lemma value_reset_unique_no_throw
    (u : option (@pv.control_block class)) s e s' :
  pv.reset_unique u s ≠ (Throw e, s').
Proof.
  destruct u as [b|]; simpl; [|done]. revert s s'.
  induction b as [U u|U q cp d|d IH|U q blk]; simpl; intros s s' E.
  - by destruct (delete_inv _ _ _ _ E) as [_ ?].
  - by destruct (delete_inv _ _ _ _ E) as [_ ?].
  - destruct IH as [b IH|]; [by eapply IH|done].
  - unfold pv.deallocate_object, pv.destroy_block, pv.deallocate_object,
      pv.destroy_object, deallocate in E.
    rewrite !run_bind in E.
    destruct (deref q s) as [r0 s0] eqn:E0.
    destruct (deref_inv _ _ _ _ E0) as [-> Hr0].
    by destruct r0.
Qed.

(** Copy assignment of a [polymorphic_value].  Assigning a value to itself
    changes nothing.  Otherwise the copy is made first and the block the
    destination held is destroyed afterwards; so when the assignment
    throws, the free store is as before (and no value has been touched),
    and when it returns, the destination holds the copy and the cells of
    its former block are gone.  Assigning a disengaged value destroys the
    block of the destination and leaves it disengaged. *)
Theorem value_copy_assignment (this p : var) hp ht
    (V : gmap var (@pv.polymorphic_value class)) s :
  V !! p = Some hp -> V !! this = Some ht -> this ≠ p ->
  pv.copy_assign is_base_of NDEBUG this this V s = (Ok V, s)
  ∧ (∀ e s',
       pv.copy_assign is_base_of NDEBUG this p V s = (Throw e, s') ->
       heap s' = heap s ∧ vars s' = vars s)
  ∧ (pv.cb_ hp = None -> pv.disposable is_base_of s (pv.cb_ ht) ->
     pv.copy_assign is_base_of NDEBUG this p V s
     = (Ok (<[this := pv.empty_value]> V),
        set_heap (foldr delete (heap s) (pv.storage_of (pv.cb_ ht))) s))
  ∧ (∀ b c s1 a,
       pv.cb_ hp = Some b ->
       pv.clone is_base_of NDEBUG b s = (Ok c, s1) ->
       pv.ptr c = Some a ->
       pv.disposable is_base_of s (pv.cb_ ht) ->
       pv.copy_assign is_base_of NDEBUG this p V s
       = (Ok (<[this := {| pv.ptr_ := a; pv.cb_ := Some c |}]> V),
          set_heap (foldr delete (heap s1) (pv.storage_of (pv.cb_ ht))) s1)
       ∧ a = fresh_address (heap s)).
Proof.
  intros Hp Hthis Hne. split; [|split; [|split]].
  - unfold pv.copy_assign. by rewrite decide_True.
  - intros e s'. unfold pv.copy_assign. rewrite decide_False by done.
    rewrite run_bind, read_value_lookup with (v := hp) by done.
    rewrite run_bind, read_value_lookup with (v := ht) by done.
    destruct (pv.operator_bool hp) eqn:Hb; simpl.
    + destruct (pv.cb_ hp) as [b|]; [|done]. rewrite run_bind.
      destruct (pv.clone is_base_of NDEBUG b s) as [r1 s1] eqn:E1.
      destruct (value_clone_inv b s _ _ E1) as [V1 Hr1].
      destruct r1 as [c| | |]; try done; [|by intros [= <- <-]].
      destruct (pv.ptr c); [|done]. rewrite run_bind.
      destruct (pv.reset_unique (pv.cb_ ht) s1) as [[[]|e'| |] s2] eqn:E2;
        try done.
      by apply value_reset_unique_no_throw in E2.
    + rewrite run_bind.
      destruct (pv.reset_unique (pv.cb_ ht) s) as [[[]|e'| |] s2] eqn:E2;
        try done.
      by apply value_reset_unique_no_throw in E2.
  - intros Hnone Hdis. unfold pv.copy_assign. rewrite decide_False by done.
    rewrite run_bind, read_value_lookup with (v := hp) by done.
    rewrite run_bind, read_value_lookup with (v := ht) by done.
    unfold pv.operator_bool. rewrite Hnone. simpl.
    by rewrite run_bind, value_reset_unique_spec.
  - intros b c s1 a Hcb E1 P Hdis.
    destruct (value_clone_inv b s _ _ E1)
      as (V1 & a0 & f0 & o0 & Hb0 & Hn0 & Hobj0 & Hc & P' & Hnew & Hsub & _).
    assert (a = fresh_address (heap s)) as -> by congruence.
    assert (pv.disposable is_base_of s1 (pv.cb_ ht)) as Hdis1.
    { destruct (pv.cb_ ht) as [bt|]; [|done].
      destruct Hdis as (x & f & o & ? & ? & ?). exists x, f, o.
      repeat split; try done. by apply (lookup_weaken (heap s)). }
    split; [|done].
    unfold pv.copy_assign. rewrite decide_False by done.
    rewrite run_bind, read_value_lookup with (v := hp) by done.
    rewrite run_bind, read_value_lookup with (v := ht) by done.
    unfold pv.operator_bool. rewrite Hcb. simpl.
    rewrite run_bind, E1, P.
    by rewrite run_bind, value_reset_unique_spec.
Qed.

(** Moves and [swap] of a [polymorphic_value] never allocate and never
    consult the failure schedule.  Move construction hands the observer and
    the block of [p] to the new value and leaves [p] disengaged, with the
    free store untouched.  Move assignment does the same after destroying
    the block the destination held, and does nothing when source and
    destination are the same value.  [swap] exchanges the two values;
    swapping twice, or swapping a value with itself, gives back the store
    one started from; the non-member [swap] is the member. *)
Theorem value_move_and_swap (this p : var) hp ht
    (V : gmap var (@pv.polymorphic_value class)) s :
  V !! p = Some hp -> V !! this = Some ht ->
  (∀ d, pv.move_construct d p V s
        = (Ok (<[d := hp]> (<[p := pv.empty_value]> V)), s))
  ∧ pv.operator_bool (pv.empty_value (class := class)) = false
  ∧ pv.move_assign this this V s = (Ok V, s)
  ∧ (this ≠ p -> pv.disposable is_base_of s (pv.cb_ ht) ->
     pv.move_assign this p V s
     = (Ok (<[p := pv.empty_value]> (<[this := hp]> V)),
        set_heap (foldr delete (heap s) (pv.storage_of (pv.cb_ ht))) s))
  ∧ pv.swap this p V s = (Ok (<[p := ht]> (<[this := hp]> V)), s)
  ∧ pv.nonmember_swap this p V s = pv.swap this p V s
  ∧ (V' ← pv.swap this p V; pv.swap this p V') s = (Ok V, s)
  ∧ (this = p -> pv.swap this p V s = (Ok V, s)).
Proof.
  intros Hp Hthis.
  assert (∀ v : @pv.polymorphic_value class,
            {| pv.ptr_ := pv.ptr_ v; pv.cb_ := pv.cb_ v |} = v) as Heta
    by by intros [].
  assert (pv.swap this p V s = (Ok (<[p := ht]> (<[this := hp]> V)), s))
    as Hswap.
  { unfold pv.swap.
    rewrite run_bind, read_value_lookup with (v := ht) by done.
    rewrite run_bind, read_value_lookup with (v := hp) by done.
    by rewrite !Heta. }
  split; [|split; [|split; [|split; [|split; [|split; [|split]]]]]].
  - intros d. unfold pv.move_construct.
    rewrite run_bind, read_value_lookup with (v := hp) by done.
    by rewrite Heta.
  - done.
  - unfold pv.move_assign. by rewrite decide_True.
  - intros Hne Hdis. unfold pv.move_assign. rewrite decide_False by done.
    rewrite run_bind, read_value_lookup with (v := hp) by done.
    rewrite run_bind, read_value_lookup with (v := ht) by done.
    by rewrite run_bind, value_reset_unique_spec, Heta.
  - done.
  - done.
  - rewrite run_bind, Hswap. unfold pv.swap.
    destruct (decide (this = p)) as [->|N].
    + assert (ht = hp) as -> by congruence.
      rewrite run_bind, read_value_lookup with (v := hp)
        by apply lookup_insert_eq.
      rewrite run_bind, read_value_lookup with (v := hp)
        by apply lookup_insert_eq.
      rewrite !Heta, !insert_insert_eq. by rewrite insert_id.
    + rewrite run_bind, read_value_lookup with (v := hp)
        by (rewrite lookup_insert_ne by done; apply lookup_insert_eq).
      rewrite run_bind, read_value_lookup with (v := ht)
        by apply lookup_insert_eq.
      rewrite !Heta. rewrite run_ret. do 2 f_equal.
      apply map_eq. intros k. rewrite !lookup_insert.
      repeat case_decide; simplify_eq; done.
  - intros ->. assert (ht = hp) as -> by congruence.
    rewrite Hswap, insert_insert_eq. by rewrite insert_id.
Qed.

(** ** Conversion of a disengaged value *)

(** The converting constructors wrap the block of their source in a
    [delegating_control_block] whether or not the source holds one.
    Converting a disengaged value therefore yields a value that observes
    nothing and yet is engaged: [operator bool] is true, the non-const
    [operator->] passes its assertion and returns null while the const one
    fails its assertion, [operator*] dereferences null, and copying the
    value, once the storage of the new block has been obtained, calls
    [clone()] through the null delegate.  Destroying it is harmless. *)
Theorem converting_a_disengaged_value (this p : var) v
    (V : gmap var (@pv.polymorphic_value class)) s :
  pv.cb_ v = None -> pv.ptr_ v = nullptr -> V !! p = Some v ->
  let w := {| pv.ptr_ := nullptr;
              pv.cb_ := Some (pv.delegating_control_block None) |} in
  (quiet s ->
   returns (pv.polymorphic_value_convert_copy is_base_of NDEBUG v) s w
     (heap s) (vars s)
   ∧ returns (pv.convert_move_construct this p V) s
       (<[this := w]> (<[p := pv.empty_value]> V)) (heap s) (vars s))
  ∧ (∀ orc, oracle s = false :: orc ->
       pv.polymorphic_value_convert_copy is_base_of NDEBUG v s
       = (Throw bad_alloc, set_oracle orc s)
       ∧ pv.convert_move_construct this p V s
         = (Throw bad_alloc, set_oracle orc s))
  ∧ pv.operator_bool w = true ∧ ¬ pv.value_ok w
  ∧ (∀ s0,
       pv.operator_arrow false w s0 = (Ok nullptr, s0)
       ∧ pv.operator_arrow_const false w s0 = (AssertionFailed, s0)
       ∧ pv.operator_star NDEBUG w s0 = (Undefined, s0)
       ∧ (quiet s0 ->
          ∃ s1, pv.polymorphic_value_copy is_base_of NDEBUG w s0
                = (Undefined, s1))
       ∧ pv.reset_unique (pv.cb_ w) s0 = (Ok (), s0)).
Proof.
  intros Hcb Hptr Hp w.
  assert (pv.polymorphic_value_copy is_base_of NDEBUG v s
          = (Ok pv.empty_value, s)) as Hcopy.
  { unfold pv.polymorphic_value_copy, pv.operator_bool. by rewrite Hcb. }
  split; [|split; [|split; [|split]]].
  - intros Q.
    destruct (returns_may_fail bad_alloc s Q) as (s1 & E & H1 & V1 & Q1).
    split; exists s1; (split; [|done]).
    + unfold pv.polymorphic_value_convert_copy.
      rewrite run_bind, Hcopy. unfold try_catch_rethrow.
      by rewrite run_bind, E.
    + unfold pv.convert_move_construct.
      rewrite run_bind, read_value_lookup with (v := v) by done.
      rewrite run_bind, E. by rewrite Hcb, Hptr.
  - intros orc Horc. split.
    + unfold pv.polymorphic_value_convert_copy.
      rewrite run_bind, Hcopy. unfold try_catch_rethrow.
      by rewrite run_bind, may_fail_head with (orc := orc).
    + unfold pv.convert_move_construct.
      rewrite run_bind, read_value_lookup with (v := v) by done.
      by rewrite run_bind, may_fail_head with (orc := orc).
  - done.
  - by intros [? _].
  - intros s0. split; [done|]. split; [done|]. split.
    + unfold pv.operator_star, pv.assert_. simpl. by destruct NDEBUG.
    + split; [|done]. intros _. by exists s0.
Qed.

(** ** The converting copy constructor *)

(** The converting copy constructor of [polymorphic_value] copies its
    source into a local value and wraps the block of that local in a
    [delegating_control_block].  With no failure scheduled, a source that
    holds a live object gives a value that observes the copy and whose own
    copies are made in the same way.  Whenever the constructor throws, the
    free store and the handles are as before: the local, which owns the
    copy while the adapter is allocated, is destroyed on the way out. *)
Theorem value_converting_copy v s :
  (∀ e s',
     pv.polymorphic_value_convert_copy is_base_of NDEBUG v s = (Throw e, s') ->
     heap s' = heap s ∧ vars s' = vars s)
  ∧ (∀ b a f o,
       pv.cb_ v = Some b ->
       pv.copied_by is_base_of b = Some (a, f) ->
       a ≠ nullptr -> heap s !! a = Some (Obj o) -> quiet s ->
       ∃ c s',
         pv.polymorphic_value_convert_copy is_base_of NDEBUG v s
         = (Ok {| pv.ptr_ := fresh_address (heap s);
                  pv.cb_ := Some (pv.delegating_control_block (Some c)) |},
            s')
         ∧ quiet s' ∧ vars s' = vars s
         ∧ pv.copied_by is_base_of (pv.delegating_control_block (Some c))
           = Some (fresh_address (heap s), f)
         ∧ pv.ptr (pv.delegating_control_block (Some c))
           = Some (fresh_address (heap s))
         ∧ heap s' !! fresh_address (heap s) = Some (Obj (f o))
         ∧ heap s' !! a = Some (Obj o)).
Proof.
  split.
  - intros e s'. unfold pv.polymorphic_value_convert_copy.
    rewrite run_bind. unfold pv.polymorphic_value_copy.
    destruct (pv.operator_bool v) eqn:Hb; simpl.
    + destruct (pv.cb_ v) as [b|]; [|done]. rewrite run_bind.
      destruct (pv.clone is_base_of NDEBUG b s) as [r1 s1] eqn:E1.
      destruct (value_clone_inv b s _ _ E1) as [V1 Hr1].
      destruct r1 as [c| | |]; try done; [|by intros [= <- <-]].
      destruct Hr1 as (a & f & o & Hb0 & Hn & Hobj & Hc & P & Hnew & Hsub
                       & Hrest & Hback).
      rewrite P. simpl. unfold try_catch_rethrow. rewrite run_bind.
      destruct (may_fail bad_alloc s1) as [r2 s2] eqn:E2.
      destruct (may_fail_inv _ _ _ _ E2) as (H2 & V2 & [-> | ->]);
        [done|].
      unfold bind. simpl.
      rewrite (value_destroy_spec c (fresh_address (heap s)) f (f o));
        [|done|apply fresh_address_not_null|by rewrite H2].
      intros [= <- <-]. simpl. rewrite H2, Hback. split; congruence.
    + unfold try_catch_rethrow. rewrite run_bind.
      destruct (may_fail bad_alloc s) as [r2 s2] eqn:E2.
      destruct (may_fail_inv _ _ _ _ E2) as (H2 & V2 & [-> | ->]);
        [done|].
      unfold bind. simpl. by intros [= <- <-].
  - intros b a f o Hcb Hb Hn Hobj Q.
    destruct (returns_value_clone b a f o s Q Hb Hn Hobj)
      as (c & s1 & E1 & Q1).
    destruct (value_clone_inv b s _ _ E1)
      as (V1 & a0 & f0 & o0 & Hb0 & _ & Hobj0 & Hc & P & Hnew & Hsub & _).
    assert (a0 = a ∧ f0 = f) as [-> ->] by (split; congruence).
    assert (o0 = o) as -> by congruence.
    destruct (returns_may_fail bad_alloc s1 Q1) as (s2 & E2 & H2 & V2 & Q2).
    exists c, s2. split.
    + unfold pv.polymorphic_value_convert_copy, pv.polymorphic_value_copy,
        pv.operator_bool.
      rewrite Hcb. simpl. rewrite !run_bind, E1, P. simpl.
      unfold try_catch_rethrow. by rewrite run_bind, E2.
    + split; [done|]. split; [congruence|]. split; [done|]. split; [done|].
      rewrite H2. split; [done|]. by apply (lookup_weaken (heap s)).
Qed.

(** ** Construction from a pointer that passes the check *)

(** From a null pointer every pointer constructor yields the empty value
    or handle: nothing is inspected, allocated or thrown.  When [U] is a
    polymorphic class and the checked constructors of [polymorphic_value]
    (default copier and deleter, or an allocator; RTTI available) return
    with a pointer to an object, the dynamic class of the object is the
    static class of the pointer, the value observes the object through a
    block that holds it, and a copy made by that block has the dynamic
    class of the original.  The pointer constructor leaves the free store
    as it is; the allocator constructor adds the control block.  When [U]
    is not polymorphic the constructors do not look at the object: with
    no failure scheduled they return and adopt the pointer, whatever it
    points to. *)
Theorem construction_adopts_the_pointer (NO_RTTI : bool) (U : class) u cp d s :
  (u = nullptr ->
   pv.polymorphic_value_from NO_RTTI is_polymorphic U u cp d s
   = (Ok pv.empty_value, s)
   ∧ pv.polymorphic_value_from_allocated NO_RTTI is_polymorphic U u s
     = (Ok pv.empty_value, s)
   ∧ cloned_ptr_from U u s = (Ok empty_handle, s))
  ∧ (u ≠ nullptr -> is_polymorphic U = true ->
     ∀ v s',
       pv.polymorphic_value_from false is_polymorphic U u
         pv.default_copy pv.default_delete s
       = (Ok v, s') ->
       ∃ o,
         heap s !! u = Some (Obj o) ∧ dyn o = U
         ∧ v = {| pv.ptr_ := u;
                  pv.cb_ := Some (pv.pointer_control_block U u
                                    pv.default_copy pv.default_delete) |}
         ∧ heap s' = heap s ∧ vars s' = vars s
         ∧ pv.value_ok v
         ∧ dyn (copy_as is_base_of U o) = dyn o)
  ∧ (u ≠ nullptr -> is_polymorphic U = true ->
     ∀ v s',
       pv.polymorphic_value_from_allocated false is_polymorphic U u s
       = (Ok v, s') ->
       ∃ o,
         heap s !! u = Some (Obj o) ∧ dyn o = U
         ∧ v = {| pv.ptr_ := u;
                  pv.cb_ := Some (pv.allocated_pointer_control_block U u
                                    (fresh_address (heap s))) |}
         ∧ heap s' = <[fresh_address (heap s) := Block]> (heap s)
         ∧ vars s' = vars s
         ∧ pv.value_ok v
         ∧ dyn (copy_as is_base_of U o) = dyn o)
  ∧ (u ≠ nullptr -> is_polymorphic U = false -> quiet s ->
     returns (pv.polymorphic_value_from NO_RTTI is_polymorphic U u cp d) s
       {| pv.ptr_ := u; pv.cb_ := Some (pv.pointer_control_block U u cp d) |}
       (heap s) (vars s)
     ∧ returns (pv.polymorphic_value_from_allocated NO_RTTI is_polymorphic U u)
         s
         {| pv.ptr_ := u;
            pv.cb_ := Some (pv.allocated_pointer_control_block U u
                              (fresh_address (heap s))) |}
         (<[fresh_address (heap s) := Block]> (heap s)) (vars s)).
Proof.
  split; [|split; [|split]].
  - intros ->. unfold pv.polymorphic_value_from,
      pv.polymorphic_value_from_allocated, cloned_ptr_from.
    by rewrite !decide_True.
  - intros Hn Hpoly v s'. unfold pv.polymorphic_value_from, pv.typeid_differs.
    rewrite decide_False by done. simpl. rewrite Hpoly, !run_bind.
    destruct (deref u s) as [r1 s1] eqn:E1.
    destruct (deref_inv _ _ _ _ E1) as [-> Hr1].
    destruct r1 as [o| | |]; try done.
    destruct Hr1 as [_ Hobj]. rewrite run_ret.
    destruct (bool_decide (dyn o = U)) eqn:Hdec; [|done].
    apply bool_decide_eq_true_1 in Hdec as Hdyn. simpl.
    unfold try_catch_rethrow. rewrite run_bind.
    destruct (may_fail bad_alloc s) as [r2 s2] eqn:E2.
    destruct (may_fail_inv _ _ _ _ E2) as (H2 & V2 & [-> | ->]).
    + intros [= <- <-]. exists o. repeat split; try done.
    + unfold bind. by destruct (delete_ u s2) as [[[]|?| |] ?].
  - intros Hn Hpoly v s'.
    unfold pv.polymorphic_value_from_allocated, pv.typeid_differs.
    rewrite decide_False by done. rewrite Hpoly, !run_bind.
    destruct (deref u s) as [r1 s1] eqn:E1.
    destruct (deref_inv _ _ _ _ E1) as [-> Hr1].
    destruct r1 as [o| | |]; try done.
    destruct Hr1 as [_ Hobj]. rewrite run_ret.
    destruct (bool_decide (dyn o = U)) eqn:Hdec; [|done].
    apply bool_decide_eq_true_1 in Hdec as Hdyn. simpl.
    rewrite ?run_ret, run_bind.
    destruct (pv.allocate_object pv.construct_block s) as [r2 s2] eqn:E2.
    destruct (allocate_object_block_inv _ _ _ E2) as [V2 Hr2].
    destruct r2 as [blk| | |]; try done.
    destruct Hr2 as [-> H2]. intros [= <- <-].
    exists o. repeat split; try done.
  - intros Hn Hpoly Q.
    destruct (returns_may_fail bad_alloc s Q) as (s1 & E & H1 & V1 & Q1).
    destruct (returns_allocate_block s Q) as (s2 & E2 & H2 & V2 & Q2).
    assert (∀ A (k : M A),
              ((differs ← pv.typeid_differs is_polymorphic U u;
                match differs with
                | true => throw bad_polymorphic_value_construction
                | false => mret ()
                end);; k) s = k s) as Hskip.
    { intros A k. unfold pv.typeid_differs. by rewrite Hpoly. }
    split.
    + exists s1. split; [|done].
      unfold pv.polymorphic_value_from. rewrite decide_False by done.
      assert (∀ k : M (@pv.polymorphic_value class),
                ((if NO_RTTI then mret ()
                  else if pv.is_default_delete d && pv.is_default_copy cp
                       then
                         differs ← pv.typeid_differs is_polymorphic U u;
                         match differs with
                         | true => throw bad_polymorphic_value_construction
                         | false => mret ()
                         end
                       else mret ());; k) s = k s) as ->.
      { intros k. destruct NO_RTTI; [done|].
        destruct (pv.is_default_delete d && pv.is_default_copy cp);
          [apply Hskip|done]. }
      unfold try_catch_rethrow. by rewrite run_bind, E.
    + exists s2. split; [|done].
      unfold pv.polymorphic_value_from_allocated.
      rewrite decide_False by done.
      assert (∀ k : M (@pv.polymorphic_value class),
                ((if NO_RTTI then mret ()
                  else
                    differs ← pv.typeid_differs is_polymorphic U u;
                    match differs with
                    | true => throw bad_polymorphic_value_construction
                    | false => mret ()
                    end);; k) s = k s) as ->.
      { intros k. destruct NO_RTTI; [done|apply Hskip]. }
      by rewrite run_bind, E2.
Qed.

End Values.

(** * Instances on the scenarios of the test file *)

Section Instances.

Import TestTypes.

Lemma seven_ok : handle_ok seven.
Proof. intros _. exists (control_block_impl DerivedType 1%N). repeat split. Qed.

Lemma one_owner_quiet : quiet one_owner.
Proof. apply Forall_nil_2. Qed.

Lemma one_owner_owns : owns_ok one_owner.
Proof.
  split; [exact one_owner_ok|]. split.
  - intros x h Hx. unfold one_owner in Hx. simpl in Hx.
    rewrite !lookup_insert, lookup_singleton in Hx.
    repeat case_decide; simplify_eq;
      first [right; by exists (derived 7)|by left].
  - intros x y hx hy Hne Hx Hy. unfold one_owner in Hx, Hy. simpl in Hx, Hy.
    rewrite !lookup_insert, lookup_singleton in Hx, Hy.
    repeat case_decide; simplify_eq; done.
Qed.

Lemma swap_exchanges_handles_witness :
  vars two_owners !! "dptr1" = Some dptr1
  ∧ vars two_owners !! "dptr2" = Some dptr2
  ∧ swap "dptr1" "dptr2" two_owners
    = (Ok (),
       set_vars (<["dptr2" := dptr1]> (<["dptr1" := dptr2]> (vars two_owners)))
         two_owners)
  ∧ (_ ← swap "dptr1" "dptr2"; swap "dptr1" "dptr2") two_owners
    = (Ok (), two_owners).
Proof.
  destruct (swap_exchanges_handles "dptr1" "dptr2" dptr1 dptr2 two_owners
              eq_refl eq_refl) as (E1 & _ & _ & _ & _ & E2).
  split; [reflexivity|]. split; [reflexivity|]. split; [exact E1|exact E2].
Defined.

Lemma reset_replaces_owned_object_witness :
  vars one_owner !! "a" = Some seven
  ∧ nullptr ≠ ptr_ seven
  ∧ deletable one_owner (target_of (cb_ seven))
  ∧ reset "a" DerivedType nullptr one_owner
    = (Ok (),
       {| heap := without (target_of (cb_ seven)) (heap one_owner);
          oracle := oracle one_owner;
          vars := <["a" := empty_handle]> (vars one_owner) |}).
Proof.
  assert (nullptr ≠ ptr_ seven) as Hne by discriminate.
  assert (deletable one_owner (target_of (cb_ seven))) as Hdel.
  { right. exists (derived 7). reflexivity. }
  destruct (reset_replaces_owned_object "a" DerivedType nullptr seven
              one_owner eq_refl Hne Hdel) as (E1 & _).
  split; [reflexivity|]. split; [exact Hne|]. split; [exact Hdel|].
  exact (E1 eq_refl).
Defined.

Lemma converting_move_wraps_descriptor_witness :
  vars one_owner !! "a" = Some seven
  ∧ returns (convert_move_construct "d" "a") one_owner () (heap one_owner)
      (<["d" := {| ptr_ := ptr_ seven;
                   cb_ := Some (delegating_control_block (cb_ seven)) |}]>
         (<["a" := empty_handle]> (vars one_owner)))
  ∧ convert_move_construct "d" "a" allocation_fails
    = (Throw bad_alloc, set_oracle [] allocation_fails).
Proof.
  destruct (converting_move_wraps_descriptor "d" "a" seven one_owner eq_refl)
    as (_ & _ & E1 & _).
  destruct (converting_move_wraps_descriptor "d" "a" seven allocation_fails
              eq_refl) as (_ & _ & _ & _ & E2).
  split; [reflexivity|]. split; [exact (E1 one_owner_quiet)|].
  exact (proj1 (E2 [] eq_refl)).
Defined.

Lemma copy_then_destroy_restores_state_witness :
  quiet one_owner
  ∧ vars one_owner !! "a" = Some seven
  ∧ vars one_owner !! "c" = None
  ∧ handle_ok seven
  ∧ ∃ h' s1,
      copy_construct is_base_of "c" "a" one_owner = (Ok (), s1)
      ∧ vars s1 = <["c" := h']> (vars one_owner)
      ∧ returns (destructor "c") s1 () (heap one_owner) (vars one_owner).
Proof.
  destruct (copy_then_destroy_restores_state is_base_of "c" "a" seven
              one_owner one_owner_quiet eq_refl eq_refl seven_ok
              (fun _ => ex_intro _ (derived 7) eq_refl))
    as (h' & s1 & E1 & V1 & _ & _ & E2).
  split; [exact one_owner_quiet|]. split; [reflexivity|].
  split; [reflexivity|]. split; [exact seven_ok|].
  exists h', s1. split; [exact E1|]. split; [exact V1|exact E2].
Defined.

Lemma casts_copy_behind_an_adapter_witness :
  handle_ok seven
  ∧ ptr_ seven ≠ nullptr
  ∧ bound_class seven = Some DerivedType
  ∧ heap one_owner !! ptr_ seven = Some (Obj (derived 7))
  ∧ quiet one_owner
  ∧ ∃ c x,
      returns (static_pointer_cast is_base_of seven) one_owner
        {| ptr_ := x;
           cb_ := Some (downcasting_delegating_control_block (Some c)) |}
        (<[fresh_address (heap one_owner) :=
             Obj (copy_as is_base_of DerivedType (derived 7))]>
           (heap one_owner))
        (vars one_owner).
Proof.
  assert (ptr_ seven ≠ nullptr) as Hnn by discriminate.
  destruct (casts_copy_behind_an_adapter is_base_of seven DerivedType
              (derived 7) one_owner seven_ok Hnn eq_refl eq_refl)
    as (E1 & _).
  destruct (E1 one_owner_quiet) as (c & x & _ & _ & _ & _ & _ & _ & E & _).
  split; [exact seven_ok|]. split; [exact Hnn|]. split; [reflexivity|].
  split; [reflexivity|]. split; [exact one_owner_quiet|].
  exists c, x. exact E.
Defined.

Lemma dynamic_pointer_cast_copies_witness :
  quiet one_owner
  ∧ handle_ok seven
  ∧ ptr_ seven ≠ nullptr
  ∧ bound_class seven = Some DerivedType
  ∧ heap one_owner !! ptr_ seven = Some (Obj (derived 7))
  ∧ is_base_of DerivedType (dyn (derived 7)) = true
  ∧ ∃ c y,
      returns (dynamic_pointer_cast is_base_of DerivedType seven) one_owner
        {| ptr_ := y;
           cb_ := Some (dynamic_casting_delegating_control_block
                          DerivedType (Some c) y) |}
        (<[fresh_address (heap one_owner) :=
             Obj (copy_as is_base_of DerivedType (derived 7))]>
           (heap one_owner))
        (vars one_owner).
Proof.
  assert (ptr_ seven ≠ nullptr) as Hnn by discriminate.
  destruct (dynamic_pointer_cast_copies is_base_of DerivedType seven
              DerivedType (derived 7) one_owner one_owner_quiet seven_ok Hnn
              eq_refl eq_refl eq_refl)
    as (c & x & y & _ & E & _).
  split; [exact one_owner_quiet|]. split; [exact seven_ok|].
  split; [exact Hnn|]. split; [reflexivity|]. split; [reflexivity|].
  split; [reflexivity|]. exists c, y. exact E.
Defined.

Lemma casts_of_an_empty_handle_witness :
  ptr_ (empty_handle (class := class)) = nullptr
  ∧ dynamic_pointer_cast is_base_of DerivedType empty_handle one_owner
    = (Ok empty_handle, one_owner)
  ∧ static_pointer_cast is_base_of empty_handle allocation_fails
    = (Throw bad_alloc, set_oracle [] allocation_fails).
Proof.
  destruct (casts_of_an_empty_handle is_base_of DerivedType empty_handle
              one_owner eq_refl) as (E1 & _).
  destruct (casts_of_an_empty_handle is_base_of DerivedType empty_handle
              allocation_fails eq_refl) as (_ & _ & E2 & _).
  split; [reflexivity|]. split; [exact E1|].
  exact (proj1 (proj2 (E2 [] eq_refl))).
Defined.

Lemma operations_keep_ownership_witness :
  owns_ok one_owner
  ∧ admissible (Copy "c" "a") one_owner
  ∧ ∃ r s',
      run is_base_of (Copy "c" "a") one_owner = (r, s')
      ∧ completes r ∧ owns_ok s'.
Proof.
  assert (admissible (Copy "c" "a") one_owner) as Hadm
    by (exists seven; reflexivity).
  split; [exact one_owner_owns|]. split; [exact Hadm|].
  exact (operations_keep_ownership is_base_of (Copy "c" "a") one_owner
           one_owner_owns Hadm).
Defined.

Lemma clone_outcomes_witness :
  owned (control_block_impl DerivedType 1%N) = Some (DerivedType, 1%N)
  ∧ (1%N : addr) ≠ nullptr
  ∧ heap one_owner !! 1%N = Some (Obj (derived 7))
  ∧ ∃ r s',
      clone is_base_of (control_block_impl DerivedType 1%N) one_owner = (r, s')
      ∧ vars s' = vars one_owner.
Proof.
  destruct (clone_outcomes is_base_of (control_block_impl DerivedType 1%N)
              DerivedType 1%N (derived 7) one_owner eq_refl
              ltac:(discriminate) eq_refl)
    as (_ & (r & s' & E & V' & _) & _).
  split; [reflexivity|]. split; [discriminate|]. split; [reflexivity|].
  exists r, s'. split; [exact E|exact V'].
Defined.

Lemma one_value_quiet : quiet one_value.
Proof. apply Forall_nil_2. Qed.

Lemma value_copy_is_deep_witness :
  quiet one_value
  ∧ pv.cb_ held = Some held_block
  ∧ pv.copied_by is_base_of held_block
    = Some (1%N, copy_as is_base_of DerivedType)
  ∧ (1%N : addr) ≠ nullptr
  ∧ heap one_value !! 1%N = Some (Obj (derived 7))
  ∧ ∃ c s',
      pv.polymorphic_value_copy is_base_of false held one_value
      = (Ok {| pv.ptr_ := fresh_address (heap one_value); pv.cb_ := Some c |},
         s')
      ∧ heap s' !! fresh_address (heap one_value)
        = Some (Obj (copy_as is_base_of DerivedType (derived 7))).
Proof.
  destruct (value_copy_is_deep is_base_of false held held_block 1%N
              (copy_as is_base_of DerivedType) (derived 7) one_value
              one_value_quiet eq_refl eq_refl ltac:(discriminate) eq_refl)
    as (c & s' & _ & E & _ & _ & _ & _ & _ & _ & _ & Hnew & _).
  split; [exact one_value_quiet|]. split; [reflexivity|].
  split; [reflexivity|]. split; [discriminate|]. split; [reflexivity|].
  exists c, s'. split; [exact E|exact Hnew].
Defined.

Lemma value_clone_failure_restores_store_witness :
  pv.clone is_base_of false allocated_block allocated_owner
  = (Throw bad_alloc, set_oracle [] allocated_owner)
  ∧ heap (set_oracle [] allocated_owner) = heap allocated_owner
  ∧ vars (set_oracle [] allocated_owner) = vars allocated_owner.
Proof.
  assert (pv.clone is_base_of false allocated_block allocated_owner
          = (Throw bad_alloc, set_oracle [] allocated_owner)) as E
    by (vm_compute; reflexivity).
  destruct (value_clone_failure_restores_store is_base_of false
              pv.empty_value allocated_block allocated_owner bad_alloc
              (set_oracle [] allocated_owner) E) as (Hh & Hv & _).
  split; [exact E|]. split; [exact Hh|exact Hv].
Defined.

Lemma construction_failure_and_the_adopted_object_witness :
  (1%N : addr) ≠ nullptr
  ∧ heap allocation_fails !! 1%N = Some (Obj (derived 7))
  ∧ dyn (derived 7) = DerivedType
  ∧ oracle allocation_fails = [false]
  ∧ pv.polymorphic_value_from false is_polymorphic DerivedType 1%N
      pv.default_copy pv.default_delete allocation_fails
    = (Throw bad_alloc,
       {| heap := delete 1%N (heap allocation_fails); oracle := [];
          vars := vars allocation_fails |})
  ∧ pv.polymorphic_value_from_allocated false is_polymorphic DerivedType 1%N
      allocation_fails
    = (Throw bad_alloc, set_oracle [] allocation_fails).
Proof.
  destruct (construction_failure_and_the_adopted_object is_polymorphic false
              DerivedType
              1%N (derived 7) pv.default_copy pv.default_delete []
              allocation_fails ltac:(discriminate) eq_refl eq_refl eq_refl)
    as (E1 & _ & E2 & _).
  split; [discriminate|]. split; [reflexivity|]. split; [reflexivity|].
  split; [reflexivity|]. split; [exact E1|exact E2].
Defined.

Lemma allocate_polymorphic_value_never_leaks_witness :
  pv.allocate_polymorphic_value DerivedType [(DerivedType, 7%Z)] initial
  = (Ok {| pv.ptr_ := 1%N; pv.cb_ := Some allocated_block |},
     set_oracle [] allocated_owner)
  ∧ ∃ s'',
      pv.reset_unique (Some allocated_block) (set_oracle [] allocated_owner)
      = (Ok (), s'')
      ∧ heap s'' = heap initial.
Proof.
  assert (pv.allocate_polymorphic_value DerivedType [(DerivedType, 7%Z)]
            initial
          = (Ok {| pv.ptr_ := 1%N; pv.cb_ := Some allocated_block |},
             set_oracle [] allocated_owner)) as E
    by (vm_compute; reflexivity).
  destruct (allocate_polymorphic_value_never_leaks DerivedType
              [(DerivedType, 7%Z)] initial _ _ E)
    as (_ & blk & Hv & _ & _ & _ & _ & s'' & Hd & Hh & _).
  split; [exact E|]. exists s''. split; [exact Hd|exact Hh].
Defined.

Lemma value_copy_assignment_witness :
  values !! "v" = Some held
  ∧ values !! "w" = Some pv.empty_value
  ∧ "w" ≠ "v"
  ∧ pv.copy_assign is_base_of false "w" "w" values one_value
    = (Ok values, one_value)
  ∧ ∀ e s',
      pv.copy_assign is_base_of false "w" "v" values one_value
      = (Throw e, s') ->
      heap s' = heap one_value ∧ vars s' = vars one_value.
Proof.
  destruct (value_copy_assignment is_base_of false "w" "v" held
              pv.empty_value values one_value eq_refl eq_refl
              ltac:(discriminate)) as (E1 & E2 & _).
  split; [reflexivity|]. split; [reflexivity|]. split; [discriminate|].
  split; [exact E1|exact E2].
Defined.

Lemma value_move_and_swap_witness :
  values !! "v" = Some held
  ∧ values !! "w" = Some pv.empty_value
  ∧ pv.move_assign "w" "v" values one_value
    = (Ok (<["v" := pv.empty_value]> (<["w" := held]> values)), one_value)
  ∧ (V' ← pv.swap "w" "v" values; pv.swap "w" "v" V') one_value
    = (Ok values, one_value).
Proof.
  destruct (value_move_and_swap is_base_of "w" "v" held pv.empty_value
              values one_value eq_refl eq_refl)
    as (_ & _ & _ & E1 & _ & _ & E2 & _).
  split; [reflexivity|]. split; [reflexivity|].
  split; [exact (E1 ltac:(discriminate) I)|exact E2].
Defined.

Lemma converting_a_disengaged_value_witness :
  pv.cb_ (pv.empty_value (class := class)) = None
  ∧ pv.ptr_ (pv.empty_value (class := class)) = nullptr
  ∧ values !! "w" = Some pv.empty_value
  ∧ returns (pv.polymorphic_value_convert_copy is_base_of false pv.empty_value)
      one_value
      {| pv.ptr_ := nullptr;
         pv.cb_ := Some (pv.delegating_control_block None) |}
      (heap one_value) (vars one_value)
  ∧ ∃ s1,
      pv.polymorphic_value_copy is_base_of false
        {| pv.ptr_ := nullptr;
           pv.cb_ := Some (pv.delegating_control_block None) |} one_value
      = (Undefined, s1).
Proof.
  destruct (converting_a_disengaged_value is_base_of false "x" "w"
              pv.empty_value values one_value eq_refl eq_refl eq_refl)
    as (E1 & _ & _ & _ & E2).
  split; [reflexivity|]. split; [reflexivity|]. split; [reflexivity|].
  split; [exact (proj1 (E1 one_value_quiet))|].
  destruct (E2 one_value) as (_ & _ & _ & E3 & _).
  exact (E3 one_value_quiet).
Defined.

End Instances.
